(** * pips-solver: a shallow embedding of the backtracking domino solver

    The Go program keeps its board in heap objects that reference each other
    by pointer: grid squares point at their neighbours, at the restriction of
    their region (shared by every square of the region) and at the domino
    lying on them; moves point at a domino and a square.  The embedding keeps
    that shape: three stores indexed by pointers, and every method of
    [model.go] as a computation over the stores that may panic.

    [model.go] holds two drafts of the model.  The first one (region aware
    [Check], both squares marked by [Assign], rotate and swap moves appended
    to the log, [PruneUselessMoves]) is the one embedded here; of the second
    draft only [Check] is embedded, as [Legacy.Check], to compare the two.
    [main.go] still names the third field of [Restriction]
    [NumSquaresAffected], the name it has in the second draft; it is the
    field [NumSquaresLeft].  Of [main.go] the search ([makeNextMove],
    [pickEmptySquare]) and the functions that build the board from the
    lines of input are embedded; reading the lines and printing are not. *)

From stdpp Require Import base numbers option list strings gmap fin_maps pretty.

Local Open Scope string_scope.
Local Open Scope list_scope.
Local Open Scope Z_scope.

(** ** Machine integers

    Go's [int] is a 64-bit two's complement integer on the platforms the
    program targets: [+], [-], [++] and [--] wrap around, [%] truncates
    towards zero (the remainder has the sign of the dividend). *)

Definition wrap64 (z : Z) : Z := (z + 2 ^ 63) `mod` 2 ^ 64 - 2 ^ 63.
Definition add64 (a b : Z) : Z := wrap64 (a + b).
Definition sub64 (a b : Z) : Z := wrap64 (a - b).
Definition is_int64 (z : Z) : Prop := - 2 ^ 63 ≤ z < 2 ^ 63.

Arguments wrap64 : simpl never.
Arguments add64 : simpl never.
Arguments sub64 : simpl never.

(** ** Data model *)

(** A pointer is an address in one of the stores.  An address outside the
    store's domain stands for a nil (or otherwise invalid) pointer:
    dereferencing it panics. *)
Abbreviation ptr := nat.

Definition RestrictionType : Type := string.
Definition RestrictionTypeNone : RestrictionType := "none".
Definition RestrictionTypeGreaterThan : RestrictionType := "gt".
Definition RestrictionTypeLessThan : RestrictionType := "lt".
Definition RestrictionTypeEqual : RestrictionType := "eq".
Definition RestrictionTypeSumsTo : RestrictionType := "sum".

Record Restriction : Type := mkRestriction {
  Type_ : RestrictionType;
  Arg : Z;
  NumSquaresLeft : Z
}.

Record Domino : Type := mkDomino {
  Square1Value : Z;
  Square2Value : Z;
  IsAssigned : bool;
  rotation : Z
}.

Record GridSquare : Type := mkGridSquare {
  X : Z;
  Y : Z;
  DominoAssigned : option ptr;
  PipValue : Z;
  Restriction_ : option ptr;
  TopNeighbor : option ptr;
  BottomNeighbor : option ptr;
  LeftNeighbor : option ptr;
  RightNeighbor : option ptr
}.

Record Heap : Type := mkHeap {
  dominoes : gmap ptr Domino;
  squares : gmap ptr GridSquare;
  restrictions : gmap ptr Restriction
}.

Definition MoveType : Type := string.
Definition MoveTypeRotate : MoveType := "rotate".
Definition MoveTypeSwap : MoveType := "swap".
Definition MoveTypeAssign : MoveType := "assign".

(** The undo action stored on a move is a closure in Go.  Three closures
    are ever built: the method value [Rotate90DegreesCounterClockwise] bound
    to a domino, the method value [Swap] bound to a domino, and the function
    literal of [Assign], which captures [d], [s], [neighbor] and the two
    flags [wasBlank] and [neighborWasBlank]. *)
Inductive UndoClosure : Type :=
  | UndoRotate (d : ptr)
  | UndoSwap (d : ptr)
  | UndoAssign (d s neighbor : ptr) (wasBlank neighborWasBlank : bool).

Record Move : Type := mkMove {
  Label : string;
  Domino_ : ptr;
  GridSquare_ : ptr;
  MoveType_ : MoveType;
  UndoFunc : option UndoClosure;
  Pruned : bool
}.

(** Every entry of the log is allocated by the search for a single push, so
    the log owns its entries and is a sequence of move records. *)
Abbreviation MoveQueue := (list Move).

Record DominoCandidate : Type := mkDominoCandidate {
  candDomino : ptr;
  isLeftMatch : bool;
  isRightMatch : bool
}.

Abbreviation DominoSet := (list ptr).

#[global] Instance Restriction_eq_dec : EqDecision Restriction.
Proof. solve_decision. Defined.
#[global] Instance Domino_eq_dec : EqDecision Domino.
Proof. solve_decision. Defined.
#[global] Instance GridSquare_eq_dec : EqDecision GridSquare.
Proof. solve_decision. Defined.
#[global] Instance UndoClosure_eq_dec : EqDecision UndoClosure.
Proof. solve_decision. Defined.
#[global] Instance Move_eq_dec : EqDecision Move.
Proof. solve_decision. Defined.

(** Field updates. *)
Definition set_Arg (v : Z) (r : Restriction) : Restriction :=
  mkRestriction (Type_ r) v (NumSquaresLeft r).
Definition set_NumSquaresLeft (v : Z) (r : Restriction) : Restriction :=
  mkRestriction (Type_ r) (Arg r) v.
Definition set_IsAssigned (b : bool) (d : Domino) : Domino :=
  mkDomino (Square1Value d) (Square2Value d) b (rotation d).
Definition set_rotation (v : Z) (d : Domino) : Domino :=
  mkDomino (Square1Value d) (Square2Value d) (IsAssigned d) v.
Definition set_values (v1 v2 : Z) (d : Domino) : Domino :=
  mkDomino v1 v2 (IsAssigned d) (rotation d).
Definition set_DominoAssigned (o : option ptr) (s : GridSquare) : GridSquare :=
  mkGridSquare (X s) (Y s) o (PipValue s) (Restriction_ s)
    (TopNeighbor s) (BottomNeighbor s) (LeftNeighbor s) (RightNeighbor s).
Definition set_UndoFunc (u : option UndoClosure) (m : Move) : Move :=
  mkMove (Label m) (Domino_ m) (GridSquare_ m) (MoveType_ m) u (Pruned m).
Definition set_Pruned (b : bool) (m : Move) : Move :=
  mkMove (Label m) (Domino_ m) (GridSquare_ m) (MoveType_ m) (UndoFunc m) b.

(** ** Computations over the heap

    [M A] is a computation that reads and writes the heap and either returns
    a value with the new heap or panics ([None]). *)
Definition M (A : Type) : Type := Heap → option (A * Heap).

Definition ret {A} (a : A) : M A := λ h, Some (a, h).
Definition bind {A B} (m : M A) (k : A → M B) : M B :=
  λ h, match m h with Some (a, h') => k a h' | None => None end.
Definition panic {A} : M A := λ _, None.

Declare Scope go_scope.
Delimit Scope go_scope with go.
Notation "x <- m ;; k" := (bind m (λ x, k))
  (at level 100, m at next level, right associativity) : go_scope.
Notation "m ;; k" := (bind m (λ _, k))
  (at level 100, right associativity) : go_scope.
Local Open Scope go_scope.

Definition getD (d : ptr) : M Domino :=
  λ h, match dominoes h !! d with Some dm => Some (dm, h) | None => None end.
Definition getS (s : ptr) : M GridSquare :=
  λ h, match squares h !! s with Some sq => Some (sq, h) | None => None end.
Definition getR (r : ptr) : M Restriction :=
  λ h, match restrictions h !! r with Some rs => Some (rs, h) | None => None end.

Definition putD (d : ptr) (dm : Domino) : M unit :=
  λ h, Some (tt, mkHeap (<[d := dm]> (dominoes h)) (squares h) (restrictions h)).
Definition putS (s : ptr) (sq : GridSquare) : M unit :=
  λ h, Some (tt, mkHeap (dominoes h) (<[s := sq]> (squares h)) (restrictions h)).
Definition putR (r : ptr) (rs : Restriction) : M unit :=
  λ h, Some (tt, mkHeap (dominoes h) (squares h) (<[r := rs]> (restrictions h))).

(** [p.f = v] on a pointer: read the object, write it back with the field
    changed; panics when [p] is nil. *)
Definition modD (d : ptr) (f : Domino → Domino) : M unit :=
  dm <- getD d ;; putD d (f dm).
Definition modS (s : ptr) (f : GridSquare → GridSquare) : M unit :=
  sq <- getS s ;; putS s (f sq).
Definition modR (r : ptr) (f : Restriction → Restriction) : M unit :=
  rs <- getR r ;; putR r (f rs).

(** [s.Restriction] followed by a field access: the address of the
    restriction of square [s]; panics when [s] or [s.Restriction] is nil. *)
Definition restrictionOf (s : ptr) : M ptr :=
  sq <- getS s ;;
  match Restriction_ sq with Some r => ret r | None => panic end.

(** ** Restriction *)

Definition Check (r : Restriction) (value numSquares : Z) : bool :=
  if decide (Type_ r = RestrictionTypeNone) then true
  else if decide (Type_ r = RestrictionTypeGreaterThan) then bool_decide (value > Arg r)
  else if decide (Type_ r = RestrictionTypeLessThan) then bool_decide (value < Arg r)
  else if decide (Type_ r = RestrictionTypeEqual) then
    bool_decide (Arg r = -1) || bool_decide (value = Arg r)
  else if decide (Type_ r = RestrictionTypeSumsTo) then
    if bool_decide (sub64 (Arg r) value < 0) then false
    else if bool_decide (NumSquaresLeft r = numSquares) && negb (bool_decide (value = Arg r))
    then false
    else true
  else false.

(** ** Domino *)

Definition GetRotation (d : Domino) : Z := Z.rem (rotation d) 4.

Definition Rotate90DegreesClockwise (d : ptr) : M unit :=
  modD d (λ dm, set_rotation (add64 (rotation dm) 1) dm).

Definition Rotate90DegreesCounterClockwise (d : ptr) : M unit :=
  modD d (λ dm, set_rotation (sub64 (rotation dm) 1) dm).

Definition Swap (d : ptr) : M unit :=
  modD d (λ dm, set_values (Square2Value dm) (Square1Value dm) dm).

(** The four restriction updates of [Assign].  [side] selects the value of
    the domino that lands on the square: [Square1Value] for [s],
    [Square2Value] for [neighbor].  Each block re-reads the restriction
    through the square, as the Go code does, so that two squares sharing a
    restriction see each other's update. *)

(** [if sq.Restriction.Type == RestrictionTypeEqual {
       if sq.Restriction.Arg == -1 { sq.Restriction.Arg = side(d); blank = true } }] *)
Definition bindEqual (d sq : ptr) (side : Domino → Z) : M bool :=
  r <- restrictionOf sq ;;
  rs <- getR r ;;
  if decide (Type_ rs = RestrictionTypeEqual) then
    if bool_decide (Arg rs = -1) then
      dm <- getD d ;;
      putR r (set_Arg (side dm) rs) ;;
      ret true
    else ret false
  else ret false.

(** [if sq.Restriction.Type == RestrictionTypeSumsTo {
       sq.Restriction.Arg -= side(d); sq.Restriction.NumSquaresLeft-- }] *)
Definition consumeSum (d sq : ptr) (side : Domino → Z) : M unit :=
  r <- restrictionOf sq ;;
  rs <- getR r ;;
  if decide (Type_ rs = RestrictionTypeSumsTo) then
    dm <- getD d ;;
    modR r (λ rs, set_Arg (sub64 (Arg rs) (side dm)) rs) ;;
    modR r (λ rs, set_NumSquaresLeft (sub64 (NumSquaresLeft rs) 1) rs)
  else ret tt.

Definition Assign (d s neighbor : ptr) : M UndoClosure :=
  modS s (set_DominoAssigned (Some d)) ;;
  modS neighbor (set_DominoAssigned (Some d)) ;;
  wasBlank <- bindEqual d s Square1Value ;;
  neighborWasBlank <- bindEqual d neighbor Square2Value ;;
  consumeSum d s Square1Value ;;
  consumeSum d neighbor Square2Value ;;
  modD d (set_IsAssigned true) ;;
  ret (UndoAssign d s neighbor wasBlank neighborWasBlank).

(** The blocks of the closure returned by [Assign]. *)

(** [if blank { sq.Restriction.Arg = -1 }] *)
Definition unbindEqual (blank : bool) (sq : ptr) : M unit :=
  if blank then
    r <- restrictionOf sq ;;
    modR r (set_Arg (-1))
  else ret tt.

(** [if sq.Restriction.Type == RestrictionTypeSumsTo {
       sq.Restriction.Arg += side(d); sq.Restriction.NumSquaresLeft++ }] *)
Definition restoreSum (d sq : ptr) (side : Domino → Z) : M unit :=
  r <- restrictionOf sq ;;
  rs <- getR r ;;
  if decide (Type_ rs = RestrictionTypeSumsTo) then
    dm <- getD d ;;
    modR r (λ rs, set_Arg (add64 (Arg rs) (side dm)) rs) ;;
    modR r (λ rs, set_NumSquaresLeft (add64 (NumSquaresLeft rs) 1) rs)
  else ret tt.

(** Calling a stored undo action. *)
Definition runUndo (u : UndoClosure) : M unit :=
  match u with
  | UndoRotate d => Rotate90DegreesCounterClockwise d
  | UndoSwap d => Swap d
  | UndoAssign d s neighbor wasBlank neighborWasBlank =>
      modS s (set_DominoAssigned None) ;;
      modD d (set_IsAssigned false) ;;
      modS neighbor (set_DominoAssigned None) ;;
      unbindEqual wasBlank s ;;
      unbindEqual neighborWasBlank neighbor ;;
      restoreSum d s Square1Value ;;
      restoreSum d neighbor Square2Value
  end.

(** The square the second half of the domino would land on. *)
Definition neighborInDirection (rot : Z) (sq : GridSquare) : option ptr :=
  if bool_decide (rot = 0) then RightNeighbor sq
  else if bool_decide (rot = 1) then BottomNeighbor sq
  else if bool_decide (rot = 2) then LeftNeighbor sq
  else if bool_decide (rot = 3) then TopNeighbor sq
  else None.

(** The restriction checks of [TryAssign], from
    [if s.Restriction == neighbor.Restriction] to the call of [Assign];
    [false] is one of the four [return false, nil] of that part.  The first
    test of the equal case compares [d.Square1Value] with itself, as the
    source does. *)
Definition checkRestrictions (d s neighbor : ptr) : M bool :=
  dm <- getD d ;;
  sq <- getS s ;;
  nb <- getS neighbor ;;
  if decide (Restriction_ sq = Restriction_ nb) then
    r <- restrictionOf s ;;
    rs <- getR r ;;
    if bool_decide (Type_ rs = RestrictionTypeEqual)
         && negb (bool_decide (Square1Value dm = Square1Value dm))
    then ret false
    else if bool_decide (Type_ rs = RestrictionTypeEqual)
              && negb (Check rs (Square1Value dm) 1)
    then ret false
    else if bool_decide (Type_ rs = RestrictionTypeSumsTo)
              && negb (Check rs (add64 (Square1Value dm) (Square2Value dm)) 2)
    then ret false
    else ret true
  else
    r <- restrictionOf neighbor ;;
    rs <- getR r ;;
    if negb (Check rs (Square2Value dm) 1) then ret false else ret true.

Definition TryAssign (d s : ptr) : M (bool * option UndoClosure) :=
  dm <- getD d ;;
  sq <- getS s ;;
  match neighborInDirection (GetRotation dm) sq with
  | None => ret (false, None)
  | Some neighbor =>
      nb <- getS neighbor ;;
      if bool_decide (DominoAssigned nb ≠ None) then ret (false, None)
      else
        ok <- checkRestrictions d s neighbor ;;
        if ok then
          undoFunc <- Assign d s neighbor ;;
          ret (true, Some undoFunc)
        else ret (false, None)
  end.

(** ** Move log *)

Definition TryPush (q : MoveQueue) (m : Move) : M (bool * MoveQueue) :=
  if decide (MoveType_ m = MoveTypeRotate) then
    Rotate90DegreesClockwise (Domino_ m) ;;
    ret (true, q ++ [set_UndoFunc (Some (UndoRotate (Domino_ m))) m])
  else if decide (MoveType_ m = MoveTypeSwap) then
    Swap (Domino_ m) ;;
    ret (true, q ++ [set_UndoFunc (Some (UndoSwap (Domino_ m))) m])
  else if decide (MoveType_ m = MoveTypeAssign) then
    r <- TryAssign (Domino_ m) (GridSquare_ m) ;;
    if r.1 then ret (true, q ++ [set_UndoFunc r.2 m])
    else ret (false, q)
  else ret (false, q).

(** [Pop] returns the popped move ([None] for Go's [nil]) and the shortened
    log.  Calling a nil [UndoFunc] panics. *)
Definition Pop (q : MoveQueue) : M (option Move * MoveQueue) :=
  if decide (length q = 0%nat) then ret (None, q)
  else
    match q !! (length q - 1)%nat with
    | None => panic
    | Some m =>
        match UndoFunc m with
        | None => panic
        | Some u => runUndo u ;; ret (Some m, take (length q - 1) q)
        end
    end.

Definition newline : string := String (Ascii.ascii_of_nat 10) "".

(** The printed trace: the labels of the entries that are not pruned. *)
Definition String_ (q : MoveQueue) : string :=
  foldl (λ s m, if Pruned m then s else s ++ "  - " ++ Label m ++ newline)%string
        ("Move queue:" ++ newline)%string q.

(** [for j := from; j <= i; j++ { q[j].Pruned = true }], with [count] the
    number of iterations left. *)
Fixpoint markPruned (count : nat) (j : nat) (q : MoveQueue) : MoveQueue :=
  match count with
  | O => q
  | S count' => markPruned count' (j + 1)%nat (alter (set_Pruned true) j q)
  end.

(** The loop of [PruneUselessMoves]; [steps] is [len(q) - i].  Indexing
    outside the log panics. *)
Fixpoint pruneLoop (steps : nat) (i firstRotateIndex : nat) (firstRotateMove : Move)
    (q : MoveQueue) : option MoveQueue :=
  match steps with
  | O => Some q
  | S steps' =>
      match q !! i with
      | None => None
      | Some qi =>
          if decide (MoveType_ qi = MoveTypeRotate) then
            if decide (Domino_ firstRotateMove ≠ Domino_ qi) then
              pruneLoop steps' (i + 1)%nat i qi q
            else if decide (Z.of_nat i - Z.of_nat firstRotateIndex = 3) then
              match q !! (i + 1)%nat with
              | None => None
              | Some next =>
                  if negb (bool_decide (MoveType_ next = MoveTypeAssign)
                           && bool_decide (Domino_ next = Domino_ firstRotateMove))
                  then
                    let q' := markPruned (i + 1 - firstRotateIndex)%nat firstRotateIndex q in
                    match q' !! (i + 1)%nat with
                    | None => None
                    | Some first' => pruneLoop steps' (i + 1)%nat (i + 1)%nat first' q'
                    end
                  else pruneLoop steps' (i + 1)%nat firstRotateIndex firstRotateMove q
              end
            else pruneLoop steps' (i + 1)%nat firstRotateIndex firstRotateMove q
          else pruneLoop steps' (i + 1)%nat firstRotateIndex firstRotateMove q
      end
  end.

Definition PruneUselessMoves (q : MoveQueue) : option MoveQueue :=
  match q !! 0%nat with
  | None => None
  | Some first => pruneLoop (length q - 1)%nat 1%nat 0%nat first q
  end.

(** ** Domino set *)

Fixpoint FindAvailableCandidates (ds : DominoSet) (square : ptr) : M (list DominoCandidate) :=
  match ds with
  | [] => ret []
  | domino :: ds' =>
      dm <- getD domino ;;
      if IsAssigned dm then FindAvailableCandidates ds' square
      else
        r <- restrictionOf square ;;
        rs <- getR r ;;
        let leftMatch := Check rs (Square1Value dm) 1 in
        let rightMatch := Check rs (Square2Value dm) 1 in
        if negb leftMatch && negb rightMatch then FindAvailableCandidates ds' square
        else
          rest <- FindAvailableCandidates ds' square ;;
          ret (mkDominoCandidate domino leftMatch rightMatch :: rest)
  end.

Fixpoint HasUnassigned (ds : DominoSet) : M bool :=
  match ds with
  | [] => ret false
  | domino :: ds' =>
      dm <- getD domino ;;
      if negb (IsAssigned dm) then ret true else HasUnassigned ds'
  end.

(** ** Search ([main.go]) *)

(** The first loop of [pickEmptySquare] over one row, then over the grid:
    the open squares that have a restriction, in scan order. *)
Fixpoint blankSquaresOfRow (row : list (option ptr)) : M (list ptr) :=
  match row with
  | [] => ret []
  | None :: row' => blankSquaresOfRow row'
  | Some p :: row' =>
      sq <- getS p ;;
      rest <- blankSquaresOfRow row' ;;
      if bool_decide (DominoAssigned sq = None) && bool_decide (Restriction_ sq ≠ None)
      then ret (p :: rest) else ret rest
  end.

Fixpoint blankSquaresOf (grid : list (list (option ptr))) : M (list ptr) :=
  match grid with
  | [] => ret []
  | row :: grid' =>
      l <- blankSquaresOfRow row ;;
      rest <- blankSquaresOf grid' ;;
      ret (l ++ rest)
  end.

(** [for _, square := range blankSquares { if wanted(square.Restriction) { return square } }] *)
Fixpoint firstSquare (wanted : Restriction → bool) (blankSquares : list ptr) : M (option ptr) :=
  match blankSquares with
  | [] => ret None
  | square :: rest =>
      r <- restrictionOf square ;;
      rs <- getR r ;;
      if wanted rs then ret (Some square) else firstSquare wanted rest
  end.

Definition isSingleSquareSum (rs : Restriction) : bool :=
  bool_decide (Type_ rs = RestrictionTypeSumsTo) && bool_decide (NumSquaresLeft rs = 1).
Definition isBoundEqual (rs : Restriction) : bool :=
  bool_decide (Type_ rs = RestrictionTypeEqual) && bool_decide (Arg rs ≠ -1).
Definition isComparison (rs : Restriction) : bool :=
  bool_decide (Type_ rs = RestrictionTypeGreaterThan)
  || bool_decide (Type_ rs = RestrictionTypeLessThan).

Definition pickEmptySquare (grid : list (list (option ptr))) : M ptr :=
  blankSquares <- blankSquaresOf grid ;;
  r1 <- firstSquare isSingleSquareSum blankSquares ;;
  match r1 with
  | Some square => ret square
  | None =>
      r2 <- firstSquare isBoundEqual blankSquares ;;
      match r2 with
      | Some square => ret square
      | None =>
          r3 <- firstSquare isComparison blankSquares ;;
          match r3 with
          | Some square => ret square
          | None =>
              match blankSquares !! 0%nat with
              | Some square => ret square
              | None => panic
              end
          end
      end
  end.

(** What a call of [makeNextMove] ends in: it returns [success] with the
    log and the heap as they are then, or it panics.  Nothing recovers a
    panic, so the program ends there; the deferred pops that run while the
    stack unwinds are not observed and a panic carries no state.
    [OutOfFuel] belongs to the embedding only: the recursion of the Go
    function is bounded here by a fuel argument. *)
Inductive Result : Type :=
  | OutOfFuel
  | Panicked
  | Returned (success : bool) (q : MoveQueue) (h : Heap).

(** A loop body either leaves the function ([Stop]) or goes on with the log,
    the heap and the number of deferred calls registered so far.  Every
    deferred call is the same closure, [if !success { moveQueue.Pop() }]. *)
Inductive LoopResult : Type :=
  | Stop (r : Result)
  | Continue (q : MoveQueue) (h : Heap) (defers : nat).

(** [%d] of [fmt.Sprintf]. *)
Definition fmt_d (z : Z) : string := pretty z.

Definition swapLabel (dm : Domino) : string :=
  ("Swap domino " ++ fmt_d (Square1Value dm) ++ "-" ++ fmt_d (Square2Value dm))%string.
Definition assignLabel (dm : Domino) (sq : GridSquare) : string :=
  ("Assign domino " ++ fmt_d (Square1Value dm) ++ "-" ++ fmt_d (Square2Value dm)
   ++ " to square " ++ fmt_d (add64 (X sq) 1) ++ "," ++ fmt_d (add64 (Y sq) 1))%string.
Definition rotateLabel (dm : Domino) : string :=
  ("Rotate domino " ++ fmt_d (Square1Value dm) ++ "-" ++ fmt_d (Square2Value dm))%string.

(** The three [&Move{...}] literals of [makeNextMove]. *)
Definition newSwapMove (d s : ptr) : M Move :=
  dm <- getD d ;;
  ret (mkMove (swapLabel dm) d s MoveTypeSwap None false).
Definition newAssignMove (d s : ptr) : M Move :=
  dm <- getD d ;;
  sq <- getS s ;;
  ret (mkMove (assignLabel dm sq) d s MoveTypeAssign None false).
Definition newRotateMove (d s : ptr) : M Move :=
  dm <- getD d ;;
  ret (mkMove (rotateLabel dm) d s MoveTypeRotate None false).

(** The deferred calls, run when the function returns [false]. *)
Fixpoint runDefers (defers : nat) (q : MoveQueue) (h : Heap) : Result :=
  match defers with
  | O => Returned false q h
  | S defers' =>
      match Pop q h with
      | None => Panicked
      | Some ((_, q'), h') => runDefers defers' q' h'
      end
  end.

Section search.
Variable grid : list (list (option ptr)).
Variable dominoes_ : DominoSet.

Section body.
(** [makeNextMove(grid, dominoes, moveQueue, pickEmptySquare(grid))] *)
Variable recurse : MoveQueue → Heap → Result.

(** Push the rotate move and register its deferred pop. *)
Definition pushRotate (d s : ptr) (q : MoveQueue) (h : Heap) (defers : nat) : LoopResult :=
  match (move <- newRotateMove d s ;; TryPush q move) h with
  | None => Stop Panicked
  | Some ((_, q'), h') => Continue q' h' (S defers)
  end.

(** [for i := 0; i < numIterations; i++ { ... }] *)
Fixpoint tryOrientations (numIterations : nat) (d s : ptr)
    (q : MoveQueue) (h : Heap) (defers : nat) : LoopResult :=
  match numIterations with
  | O => Continue q h defers
  | S n =>
      match (move <- newAssignMove d s ;; TryPush q move) h with
      | None => Stop Panicked
      | Some ((true, q1), h1) =>
          match recurse q1 h1 with
          | Returned true q2 h2 => Stop (Returned true q2 h2)
          | Returned false q2 h2 =>
              match Pop q2 h2 with
              | None => Stop Panicked
              | Some ((_, q3), h3) =>
                  match pushRotate d s q3 h3 defers with
                  | Stop r => Stop r
                  | Continue q4 h4 defers' => tryOrientations n d s q4 h4 defers'
                  end
              end
          | OutOfFuel => Stop OutOfFuel
          | Panicked => Stop Panicked
          end
      | Some ((false, q1), h1) =>
          match pushRotate d s q1 h1 defers with
          | Stop r => Stop r
          | Continue q4 h4 defers' => tryOrientations n d s q4 h4 defers'
          end
      end
  end.

(** [numIterations] for a candidate, halved for each side that does not
    match. *)
Definition numIterationsOf (c : DominoCandidate) : nat :=
  let n := 8%nat in
  let n := if negb (isRightMatch c) then (n / 2)%nat else n in
  if negb (isLeftMatch c) then (n / 2)%nat else n.

(** [for _, candidate := range candidates { ... }] *)
Fixpoint tryCandidates (candidates : list DominoCandidate) (s : ptr)
    (q : MoveQueue) (h : Heap) (defers : nat) : LoopResult :=
  match candidates with
  | [] => Continue q h defers
  | candidate :: rest =>
      let d := candDomino candidate in
      let swapped :=
        if negb (isLeftMatch candidate) then
          match (move <- newSwapMove d s ;; TryPush q move) h with
          | None => Stop Panicked
          | Some ((_, q'), h') => Continue q' h' (S defers)
          end
        else Continue q h defers in
      match swapped with
      | Stop r => Stop r
      | Continue q1 h1 defers1 =>
          match tryOrientations (numIterationsOf candidate) d s q1 h1 defers1 with
          | Stop r => Stop r
          | Continue q2 h2 defers2 => tryCandidates rest s q2 h2 defers2
          end
      end
  end.

Definition makeNextMoveBody (q : MoveQueue) (emptySquare : ptr) (h : Heap) : Result :=
  match FindAvailableCandidates dominoes_ emptySquare h with
  | None => Panicked
  | Some (candidates, h0) =>
      if decide (length candidates = 0%nat) then
        if decide (length dominoes_ = 0%nat) then Returned true q h0
        else Returned false q h0
      else
        match tryCandidates candidates emptySquare q h0 0%nat with
        | Stop r => r
        | Continue q' h' defers => runDefers defers q' h'
        end
  end.
End body.

Fixpoint makeNextMove (fuel : nat) (q : MoveQueue) (emptySquare : ptr) (h : Heap) : Result :=
  match fuel with
  | O => OutOfFuel
  | S fuel' =>
      makeNextMoveBody
        (λ q' h',
           match pickEmptySquare grid h' with
           | None => Panicked
           | Some (square, h'') => makeNextMove fuel' q' square h''
           end)
        q emptySquare h
  end.

(** The search as [main] starts it: an empty log and the first square
    picked. *)
Definition solve (fuel : nat) (h : Heap) : Result :=
  match pickEmptySquare grid h with
  | None => Panicked
  | Some (square, h') => makeNextMove fuel [] square h'
  end.
End search.

(** * Reading the puzzle ([main.go])

    [main] builds the board from lines of text.  What the parsing functions
    print is not part of their result and is left out; numbers are read by
    [strconv.Atoi] and lines are cleaned by [strings.TrimSpace], library
    functions the embedding takes as they come: [Atoi] returns [None] for
    an error.  A composite literal [&T{...}] allocates at an address that
    no object of the store has. *)

Definition set_Restriction (o : option ptr) (s : GridSquare) : GridSquare :=
  mkGridSquare (X s) (Y s) (DominoAssigned s) (PipValue s) o
    (TopNeighbor s) (BottomNeighbor s) (LeftNeighbor s) (RightNeighbor s).
Definition set_TopNeighbor (o : option ptr) (s : GridSquare) : GridSquare :=
  mkGridSquare (X s) (Y s) (DominoAssigned s) (PipValue s) (Restriction_ s)
    o (BottomNeighbor s) (LeftNeighbor s) (RightNeighbor s).
Definition set_BottomNeighbor (o : option ptr) (s : GridSquare) : GridSquare :=
  mkGridSquare (X s) (Y s) (DominoAssigned s) (PipValue s) (Restriction_ s)
    (TopNeighbor s) o (LeftNeighbor s) (RightNeighbor s).
Definition set_LeftNeighbor (o : option ptr) (s : GridSquare) : GridSquare :=
  mkGridSquare (X s) (Y s) (DominoAssigned s) (PipValue s) (Restriction_ s)
    (TopNeighbor s) (BottomNeighbor s) o (RightNeighbor s).
Definition set_RightNeighbor (o : option ptr) (s : GridSquare) : GridSquare :=
  mkGridSquare (X s) (Y s) (DominoAssigned s) (PipValue s) (Restriction_ s)
    (TopNeighbor s) (BottomNeighbor s) (LeftNeighbor s) o.

Definition newD (dm : Domino) : M ptr :=
  λ h, let p := fresh (dom (dominoes h)) in
       Some (p, mkHeap (<[p := dm]> (dominoes h)) (squares h) (restrictions h)).
Definition newS (sq : GridSquare) : M ptr :=
  λ h, let p := fresh (dom (squares h)) in
       Some (p, mkHeap (dominoes h) (<[p := sq]> (squares h)) (restrictions h)).
Definition newR (rs : Restriction) : M ptr :=
  λ h, let p := fresh (dom (restrictions h)) in
       Some (p, mkHeap (dominoes h) (squares h) (<[p := rs]> (restrictions h))).

(** [strings.Split(s, " ")]: the pieces of [s] between its spaces, empty
    pieces included; every call of the program has this separator. *)
Fixpoint Split (s : string) : list string :=
  match s with
  | EmptyString => [EmptyString]
  | String c s' =>
      if decide (String c EmptyString = " ") then EmptyString :: Split s'
      else match Split s' with
           | [] => [String c EmptyString]
           | w :: ws => String c w :: ws
           end
  end.

(** [grid[y][x]] for indices in [int]: panics outside the slices. *)
Definition index {A} (l : list A) (i : Z) : M A :=
  if decide (i < 0) then panic
  else match l !! Z.to_nat i with Some a => ret a | None => panic end.

(** [for i, a := range l { f(i, a) }] and the counting loops over a slice
    that is not resized. *)
Fixpoint forRange {A} (f : nat → A → M unit) (i : nat) (l : list A) : M unit :=
  match l with
  | [] => ret tt
  | a :: l' => f i a ;; forRange f (S i) l'
  end.

Section input.
Variable Atoi : string → option Z.
Variable TrimSpace : string → string.

(** [v, err := strconv.Atoi(s); if err != nil { panic(err) }] *)
Definition atoi (s : string) : M Z :=
  match Atoi s with Some z => ret z | None => panic end.

Definition parseDimensions (input : string) : M (Z * Z) :=
  match Split input with
  | [p0; p1] => x <- atoi p0 ;; y <- atoi p1 ;; ret (x, y)
  | _ => ret (0, 0)
  end.

(** The loop of [parseRow] over the parts, filling the set of the keys of
    [blankIndices]. *)
Fixpoint readBlankIndices (parts : list string) (blankIndices : gset Z) : M (gset Z) :=
  match parts with
  | [] => ret blankIndices
  | part :: parts' =>
      num <- atoi part ;;
      readBlankIndices parts' ({[ sub64 num 1 ]} ∪ blankIndices)
  end.

(** [&GridSquare{X: i, Y: rowIndex, Restriction: &Restriction{Type: RestrictionTypeNone}}] *)
Definition newSquare (i rowIndex : Z) : M ptr :=
  r <- newR (mkRestriction RestrictionTypeNone 0 0) ;;
  newS (mkGridSquare i rowIndex None 0 (Some r) None None None None).

Fixpoint fillRow (blankIndices : gset Z) (rowIndex : Z) (i : Z) (n : nat)
    : M (list (option ptr)) :=
  match n with
  | O => ret []
  | S n' =>
      c <- (if decide (i ∈ blankIndices) then ret None
            else p <- newSquare i rowIndex ;; ret (Some p)) ;;
      row <- fillRow blankIndices rowIndex (i + 1) n' ;;
      ret (c :: row)
  end.

Definition parseRow (width : Z) (input : string) (rowIndex : Z) : M (list (option ptr)) :=
  if decide (width < 0) then panic
  else
    let input := TrimSpace input in
    let parts := Split input in
    blankIndices <- (if decide (input = "") then ret ∅
                     else readBlankIndices parts ∅) ;;
    fillRow blankIndices rowIndex 0 (Z.to_nat width).

(** The loop of [parseRestrictedRegion] over the pairs of coordinates. *)
Fixpoint restrictSquares (grid : list (list (option ptr))) (restriction : ptr)
    (parts : list string) : M unit :=
  match parts with
  | [] => ret tt
  | [p0] => atoi p0 ;; panic
  | p0 :: p1 :: parts' =>
      x <- atoi p0 ;;
      y <- atoi p1 ;;
      row <- index grid (sub64 y 1) ;;
      c <- index row (sub64 x 1) ;;
      match c with
      | None => panic
      | Some s =>
          modS s (set_Restriction (Some restriction)) ;;
          modR restriction (λ rs, set_NumSquaresLeft (add64 (NumSquaresLeft rs) 1) rs) ;;
          restrictSquares grid restriction parts'
      end
  end.

(** [arg, err := strconv.Atoi(parts[0]); ...; restriction.Arg = arg;
    parts = parts[1:]] of the cases gt, lt and sum. *)
Definition readArg (restriction : ptr) (parts : list string) : M (list string) :=
  match parts with
  | [] => panic
  | p0 :: parts' =>
      arg <- atoi p0 ;;
      modR restriction (set_Arg arg) ;;
      ret parts'
  end.

Definition parseRestrictedRegion (input : string) (grid : list (list (option ptr)))
    : M unit :=
  match Split input with
  | [] => panic
  | typ :: parts =>
      restriction <- newR (mkRestriction typ 0 0) ;;
      parts <- (if decide (typ = "gt") then readArg restriction parts
                else if decide (typ = "lt") then readArg restriction parts
                else if decide (typ = "sum") then readArg restriction parts
                else if decide (typ = "eq") then
                  modR restriction
                    (λ rs, mkRestriction RestrictionTypeEqual (Arg rs) (NumSquaresLeft rs)) ;;
                  match parts with [] => panic | _ :: parts' => ret parts' end
                else ret parts) ;;
      restrictSquares grid restriction parts
  end.

(** The loop of [parseDominoes] over the pairs of values. *)
Fixpoint readDominoes (parts : list string) (dominoes_ : DominoSet) : M DominoSet :=
  match parts with
  | [] => ret dominoes_
  | [p0] => atoi p0 ;; panic
  | p0 :: p1 :: parts' =>
      v1 <- atoi p0 ;;
      v2 <- atoi p1 ;;
      d <- newD (mkDomino v1 v2 false 0) ;;
      readDominoes parts' (dominoes_ ++ [d])
  end.

Definition parseDominoes (input : string) : M DominoSet :=
  readDominoes (Split input) [].
End input.

(** [grid[y][x]] read by [buildGraph] with indices that are not negative. *)
Definition cellAt (grid : list (list (option ptr))) (y x : nat) : M (option ptr) :=
  match grid !! y with
  | None => panic
  | Some row => match row !! x with None => panic | Some c => ret c end
  end.

(** The body of the inner loop of [buildGraph] for a square that is there.
    The indices run from 0, so [y < len(grid)-1] is [y + 1 < len(grid)]. *)
Definition linkSquare (grid : list (list (option ptr))) (y : nat) (row : list (option ptr))
    (x : nat) (s : ptr) : M unit :=
  (if decide (0 < y)%nat then
     n <- cellAt grid (y - 1) x ;; modS s (set_TopNeighbor n)
   else ret tt) ;;
  (if decide (y + 1 < length grid)%nat then
     n <- cellAt grid (y + 1) x ;; modS s (set_BottomNeighbor n)
   else ret tt) ;;
  (if decide (0 < x)%nat then
     n <- cellAt grid y (x - 1) ;; modS s (set_LeftNeighbor n)
   else ret tt) ;;
  (if decide (x + 1 < length row)%nat then
     n <- cellAt grid y (x + 1) ;; modS s (set_RightNeighbor n)
   else ret tt).

Definition buildGraph (grid : list (list (option ptr))) : M unit :=
  forRange (λ y row,
    forRange (λ x c,
      match c with
      | None => ret tt
      | Some s => linkSquare grid y row x s
      end) 0 row) 0 grid.

(** * The second draft of [Check] ([model.go])

    The second draft of the model checks a value without the number of
    squares it is laid on: a sum region accepts every value that does not
    exceed what remains of its target. *)

Module Legacy.
Definition Check (r : Restriction) (value : Z) : bool :=
  if decide (Type_ r = RestrictionTypeNone) then true
  else if decide (Type_ r = RestrictionTypeGreaterThan) then bool_decide (value > Arg r)
  else if decide (Type_ r = RestrictionTypeLessThan) then bool_decide (value < Arg r)
  else if decide (Type_ r = RestrictionTypeEqual) then
    bool_decide (Arg r = -1) || bool_decide (value = Arg r)
  else if decide (Type_ r = RestrictionTypeSumsTo) then
    bool_decide (sub64 (Arg r) value >= 0)
  else false.
End Legacy.

(** * Vocabulary of the properties *)

(** ** Reference semantics of a check *)

Inductive RestrictionKind : Type :=
  | KindNone | KindGreaterThan | KindLessThan | KindEqual | KindSumsTo | KindUnknown.

Definition kindOf (t : RestrictionType) : RestrictionKind :=
  if decide (t = "none") then KindNone
  else if decide (t = "gt") then KindGreaterThan
  else if decide (t = "lt") then KindLessThan
  else if decide (t = "eq") then KindEqual
  else if decide (t = "sum") then KindSumsTo
  else KindUnknown.

(** The reference semantics of a check, kind by kind.  The difference in
    the sum case is the one the Go code computes, on 64-bit integers. *)
Definition Check_reference (r : Restriction) (value numSquares : Z) : Prop :=
  match kindOf (Type_ r) with
  | KindNone => True
  | KindGreaterThan => value > Arg r
  | KindLessThan => value < Arg r
  | KindEqual => Arg r = -1 ∨ value = Arg r
  | KindSumsTo =>
      ¬ sub64 (Arg r) value < 0
      ∧ ¬ (NumSquaresLeft r = numSquares ∧ value ≠ Arg r)
  | KindUnknown => False
  end.

(** ** Integers in range *)

(** A restriction whose integers are in the range of [int]. *)
Definition int64_restriction (x : Restriction) : Prop :=
  is_int64 (Arg x) ∧ is_int64 (NumSquaresLeft x).

(** A domino whose integers are in the range of [int]. *)
Definition int64_domino (dm : Domino) : Prop :=
  is_int64 (Square1Value dm) ∧ is_int64 (Square2Value dm) ∧ is_int64 (rotation dm).

#[global] Instance is_int64_dec z : Decision (is_int64 z).
Proof. unfold is_int64. apply _. Defined.
#[global] Instance int64_restriction_dec x : Decision (int64_restriction x).
Proof. unfold int64_restriction. apply _. Defined.
#[global] Instance int64_domino_dec dm : Decision (int64_domino dm).
Proof. unfold int64_domino. apply _. Defined.

(** The integers that moves read and change hold values of Go's [int]. *)
Definition int64_heap (h : Heap) : Prop :=
  map_Forall (λ _ dm, int64_domino dm) (dominoes h)
  ∧ map_Forall (λ _ x, int64_restriction x) (restrictions h).

(** ** Updates in place *)

#[global] Instance Restriction_inhabited : Inhabited Restriction :=
  populate (mkRestriction "" 0 0).
#[global] Instance Domino_inhabited : Inhabited Domino :=
  populate (mkDomino 0 0 false 0).

Definition alterD (f : Domino → Domino) (d : ptr) (h : Heap) : Heap :=
  mkHeap (alter f d (dominoes h)) (squares h) (restrictions h).
Definition alterS (f : GridSquare → GridSquare) (s : ptr) (h : Heap) : Heap :=
  mkHeap (dominoes h) (alter f s (squares h)) (restrictions h).
Definition alterR (f : Restriction → Restriction) (r : ptr) (h : Heap) : Heap :=
  mkHeap (dominoes h) (squares h) (alter f r (restrictions h)).

(** Square [sp] exists and its restriction pointer is [r]. *)
Definition restrictionAt (h : Heap) (sp r : ptr) : Prop :=
  ∃ sq, squares h !! sp = Some sq ∧ Restriction_ sq = Some r.

(** The record-level content of the four restriction updates of [Assign]
    and of the four of its undo closure. *)
Definition wasBlankR (x : Restriction) : bool :=
  bool_decide (Type_ x = RestrictionTypeEqual) && bool_decide (Arg x = -1).
Definition bindR (v : Z) (x : Restriction) : Restriction :=
  if wasBlankR x then set_Arg v x else x.
Definition consumeR (v : Z) (x : Restriction) : Restriction :=
  if bool_decide (Type_ x = RestrictionTypeSumsTo)
  then mkRestriction (Type_ x) (sub64 (Arg x) v) (sub64 (NumSquaresLeft x) 1)
  else x.
Definition unbindR (blank : bool) (x : Restriction) : Restriction :=
  if blank then set_Arg (-1) x else x.
Definition restoreR (v : Z) (x : Restriction) : Restriction :=
  if bool_decide (Type_ x = RestrictionTypeSumsTo)
  then mkRestriction (Type_ x) (add64 (Arg x) v) (add64 (NumSquaresLeft x) 1)
  else x.

(** The restrictions after [Assign] and after its undo closure, from the
    restrictions before. *)
Definition assignRestrictions (v1 v2 : Z) (rs rn : ptr)
    (R : gmap ptr Restriction) : gmap ptr Restriction :=
  alter (consumeR v2) rn (alter (consumeR v1) rs
    (alter (bindR v2) rn (alter (bindR v1) rs R))).

Definition undoRestrictions (v1 v2 : Z) (rs rn : ptr) (wasBlank neighborWasBlank : bool)
    (R : gmap ptr Restriction) : gmap ptr Restriction :=
  alter (restoreR v2) rn (alter (restoreR v1) rs
    (alter (unbindR neighborWasBlank) rn (alter (unbindR wasBlank) rs R))).

(** ** What the search pushes *)

(** What the search guarantees when it pushes an assign move: the square
    comes from [pickEmptySquare], so it is open, and the domino from
    [FindAvailableCandidates], so it is not assigned, and both are still so
    at every later attempt of the same call ([tryOrientations_restoring]).
    [TryAssign] itself checks neither. *)
Definition assign_target_free (h : Heap) (m : Move) : Prop :=
  MoveType_ m = MoveTypeAssign →
  (∀ dm, dominoes h !! Domino_ m = Some dm → IsAssigned dm = false)
  ∧ (∀ sq, squares h !! GridSquare_ m = Some sq → DominoAssigned sq = None).

(** ** Pruning *)

(** [m'] is [m], possibly with its [Pruned] flag raised. *)
Definition flagged (m m' : Move) : Prop := m' = m ∨ m' = set_Pruned true m.

(** ** Square selection *)

(** The active squares of the grid in row-major scan order (blank cells
    hold no square). *)
Definition scanOrder (grid : list (list (option ptr))) : list ptr :=
  omap id (concat grid).

(** An open square: no domino on it (and, as the code asks, a restriction
    attached, which every active square has). *)
Definition isOpen (h : Heap) (p : ptr) : bool :=
  match squares h !! p with
  | Some sq => bool_decide (DominoAssigned sq = None) && bool_decide (Restriction_ sq ≠ None)
  | None => false
  end.

Definition openSquares (grid : list (list (option ptr))) (h : Heap) : list ptr :=
  filter (λ p, isOpen h p) (scanOrder grid).

(** The restriction of the region square [p] lies in. *)
Definition regionOf (h : Heap) (p : ptr) : option Restriction :=
  match squares h !! p with
  | Some sq =>
      match Restriction_ sq with
      | Some r => restrictions h !! r
      | None => None
      end
  | None => None
  end.

(** The four classes of the heuristic, 1 the most urgent. *)
Definition priorityClass (rs : Restriction) : nat :=
  if isSingleSquareSum rs then 1
  else if isBoundEqual rs then 2
  else if isComparison rs then 3
  else 4.

Definition classOf (h : Heap) (p : ptr) : nat :=
  match regionOf h p with
  | Some rs => priorityClass rs
  | None => 4
  end.

(** Pointers stored in the grid and in its squares point at objects. *)
Definition validSquare (h : Heap) (p : ptr) : Prop :=
  ∃ sq, squares h !! p = Some sq
        ∧ ∀ r, Restriction_ sq = Some r → is_Some (restrictions h !! r).

Definition validGrid (grid : list (list (option ptr))) (h : Heap) : Prop :=
  Forall (validSquare h) (scanOrder grid).

Definition wantedAt (h : Heap) (wanted : Restriction → bool) (p : ptr) : bool :=
  match regionOf h p with
  | Some rs => wanted rs
  | None => false
  end.

(** ** Invariants of the search *)

(** Which dominoes are assigned. *)
Definition flags (h : Heap) : gmap ptr bool := IsAssigned <$> dominoes h.

(** The number of dominoes not assigned: what the recursion of
    [makeNextMove] consumes. *)
Definition unassigned (h : Heap) : nat :=
  size (filter (λ kv : ptr * bool, kv.2 = false) (flags h)).

(** An undo action that touches neither the assigned flags nor the
    squares: the one of a rotate or of a swap. *)
Definition plainUndo (m : Move) : Prop :=
  ∃ d, UndoFunc m = Some (UndoRotate d) ∨ UndoFunc m = Some (UndoSwap d).

(** Inside a call entered with log [q0] and heap [h0]: the assigned flags
    are those at entry and the log has grown by one rotate or swap entry
    per deferred pop. *)
Definition loopInv (q0 : MoveQueue) (h0 : Heap)
    (q : MoveQueue) (h : Heap) (defers : nat) : Prop :=
  flags h = flags h0
  ∧ ∃ extra, q = q0 ++ extra ∧ length extra = defers ∧ Forall plainUndo extra.

(** A call entered with [q0] and [h0] ends, and when it returns false the
    log and the assigned flags are those at entry. *)
Definition goodResult (q0 : MoveQueue) (h0 : Heap) (r : Result) : Prop :=
  match r with
  | OutOfFuel => False
  | Panicked => True
  | Returned true _ _ => True
  | Returned false q h => q = q0 ∧ flags h = flags h0
  end.

Definition goodLoop (q0 : MoveQueue) (h0 : Heap) (lr : LoopResult) : Prop :=
  match lr with
  | Stop r => r = Panicked ∨ ∃ q h, r = Returned true q h
  | Continue q h defers => loopInv q0 h0 q h defers
  end.

Definition goodRec (bound : nat) (rec : MoveQueue → Heap → Result) : Prop :=
  ∀ q h, (unassigned h < bound)%nat → goodResult q h (rec q h).

(** No domino lies on square [s]. *)
Definition squareOpen (h : Heap) (s : ptr) : Prop :=
  ∀ sq, squares h !! s = Some sq → DominoAssigned sq = None.

(** The stronger invariant inside a call entered with [q0] and [h0], on a
    heap of [int]s: the squares and the assigned flags are those at entry,
    and running the deferred pops now would give back [q0] and [h0]. *)
Definition restoreInv (q0 : MoveQueue) (h0 : Heap)
    (q : MoveQueue) (h : Heap) (defers : nat) : Prop :=
  int64_heap h ∧ flags h = flags h0 ∧ squares h = squares h0
  ∧ runDefers defers q h = Returned false q0 h0.

(** A call that, when it returns false, has put the log and the whole heap
    back. *)
Definition restoredResult (q0 : MoveQueue) (h0 : Heap) (r : Result) : Prop :=
  match r with
  | OutOfFuel => False
  | Panicked => True
  | Returned true _ _ => True
  | Returned false q h => q = q0 ∧ h = h0
  end.

Definition restoringLoop (q0 : MoveQueue) (h0 : Heap) (lr : LoopResult) : Prop :=
  match lr with
  | Stop r => r = Panicked ∨ ∃ q h, r = Returned true q h
  | Continue q h defers => restoreInv q0 h0 q h defers
  end.

Definition restoringRec (bound : nat) (rec : MoveQueue → Heap → Result) : Prop :=
  ∀ q h, (unassigned h < bound)%nat → int64_heap h → restoredResult q h (rec q h).

(** ** Boards and logs the properties are evaluated on *)

(** A board with a single fresh domino, as [parseDominoes] allocates it. *)
Definition freshDominoHeap : Heap :=
  mkHeap {[ 0%nat := mkDomino 1 2 false 0 ]} ∅ ∅.

(** A strip of two squares side by side forming one equal region, not yet
    bound, and the domino 3-4 in its starting orientation. *)
Definition equalStrip : Heap :=
  mkHeap
    {[ 0%nat := mkDomino 3 4 false 0 ]}
    {[ 0%nat := mkGridSquare 0 0 None 0 (Some 0%nat) None None None (Some 1%nat);
       1%nat := mkGridSquare 1 0 None 0 (Some 0%nat) None None (Some 0%nat) None ]}
    {[ 0%nat := mkRestriction RestrictionTypeEqual (-1) 2 ]}.

(** Two unrestricted squares side by side and the domino 1-2: the smallest
    board with a solution. *)
Definition smallBoard : Heap :=
  mkHeap
    {[ 0%nat := mkDomino 1 2 false 0 ]}
    {[ 0%nat := mkGridSquare 0 0 None 0 (Some 0%nat) None None None (Some 1%nat);
       1%nat := mkGridSquare 1 0 None 0 (Some 1%nat) None None (Some 0%nat) None ]}
    {[ 0%nat := mkRestriction RestrictionTypeNone 0 0;
       1%nat := mkRestriction RestrictionTypeNone 0 0 ]}.
Definition smallGrid : list (list (option ptr)) := [[Some 0%nat; Some 1%nat]].

(** A column of two squares forming one sum region with target 7. *)
Definition sumColumn (v1 v2 : Z) : Heap :=
  mkHeap
    {[ 0%nat := mkDomino v1 v2 false 0 ]}
    {[ 0%nat := mkGridSquare 0 0 None 0 (Some 0%nat) None (Some 1%nat) None None;
       1%nat := mkGridSquare 0 1 None 0 (Some 0%nat) (Some 0%nat) None None None ]}
    {[ 0%nat := mkRestriction RestrictionTypeSumsTo 7 2 ]}.
Definition columnGrid : list (list (option ptr)) := [[Some 0%nat]; [Some 1%nat]].

(** A strip of two squares side by side forming one sum region with target
    7, the domino 3-4 in its starting orientation, and the assign move the
    search builds for it. *)
Definition sumStrip : Heap :=
  mkHeap
    {[ 0%nat := mkDomino 3 4 false 0 ]}
    {[ 0%nat := mkGridSquare 0 0 None 0 (Some 0%nat) None None None (Some 1%nat);
       1%nat := mkGridSquare 1 0 None 0 (Some 0%nat) None None (Some 0%nat) None ]}
    {[ 0%nat := mkRestriction RestrictionTypeSumsTo 7 2 ]}.

Definition sumStripAssigned : Heap :=
  mkHeap
    {[ 0%nat := mkDomino 3 4 true 0 ]}
    {[ 0%nat := mkGridSquare 0 0 (Some 0%nat) 0 (Some 0%nat) None None None (Some 1%nat);
       1%nat := mkGridSquare 1 0 (Some 0%nat) 0 (Some 0%nat) None None (Some 0%nat) None ]}
    {[ 0%nat := mkRestriction RestrictionTypeSumsTo 0 0 ]}.

Definition sumStripMove : Move :=
  mkMove "Assign domino 3-4 to square 1,1" 0%nat 0%nat MoveTypeAssign None false.

(** The domino of [smallBoard] cannot go on the right square: nothing lies
    to the right of it. *)
Definition offGridMove : Move :=
  mkMove "Assign domino 1-2 to square 2,1" 0%nat 1%nat MoveTypeAssign None false.

(** Three squares around a blank cell: an unrestricted one, one that must
    be greater than 4, one alone in a sum region. *)
Definition mixedBoard : Heap :=
  mkHeap
    {[ 0%nat := mkDomino 2 5 false 0 ]}
    {[ 0%nat := mkGridSquare 0 0 None 0 (Some 0%nat) None (Some 1%nat) None None;
       1%nat := mkGridSquare 0 1 None 0 (Some 1%nat) (Some 0%nat) None None (Some 2%nat);
       2%nat := mkGridSquare 1 1 None 0 (Some 2%nat) None None (Some 1%nat) None ]}
    {[ 0%nat := mkRestriction RestrictionTypeNone 0 0;
       1%nat := mkRestriction RestrictionTypeGreaterThan 4 1;
       2%nat := mkRestriction RestrictionTypeSumsTo 5 1 ]}.
Definition mixedGrid : list (list (option ptr)) :=
  [[Some 0%nat; None]; [Some 1%nat; Some 2%nat]].

(** A log the search leaves behind when the first candidate, 2-5, matches
    the square on its second side only and fits in none of the four
    orientations, and the second candidate, 6-6, is then placed. *)
Definition swapThenRotations : MoveQueue :=
  [ mkMove "Swap domino 2-5" 0%nat 0%nat MoveTypeSwap (Some (UndoSwap 0%nat)) false;
    mkMove "Rotate domino 5-2" 0%nat 0%nat MoveTypeRotate (Some (UndoRotate 0%nat)) false;
    mkMove "Rotate domino 5-2" 0%nat 0%nat MoveTypeRotate (Some (UndoRotate 0%nat)) false;
    mkMove "Rotate domino 5-2" 0%nat 0%nat MoveTypeRotate (Some (UndoRotate 0%nat)) false;
    mkMove "Rotate domino 5-2" 0%nat 0%nat MoveTypeRotate (Some (UndoRotate 0%nat)) false;
    mkMove "Assign domino 6-6 to square 1,1" 1%nat 0%nat MoveTypeAssign
      (Some (UndoAssign 1%nat 0%nat 1%nat false false)) false ].

Definition fourRotations : MoveQueue :=
  replicate 4
    (mkMove "Rotate domino 5-2" 0%nat 0%nat MoveTypeRotate (Some (UndoRotate 0%nat)) false).

(** ** Runs of pushes *)

(** A run of moves pushed one after the other from log [q] and heap [h],
    each accepted by [TryPush], each assign on a square that is open and
    with a domino that is unassigned at that moment. *)
Inductive pushedRun : MoveQueue → Heap → list Move → MoveQueue → Heap → Prop :=
  | pushedRun_nil q h : pushedRun q h [] q h
  | pushedRun_cons q h m ms q1 h1 q' h' :
      assign_target_free h m →
      TryPush q m h = Some ((true, q1), h1) →
      pushedRun q1 h1 ms q' h' →
      pushedRun q h (m :: ms) q' h'.

(** The entries of the log that the printed trace shows. *)
Definition shown (m : Move) : Prop := Pruned m = false.

#[global] Instance shown_dec m : Decision (shown m).
Proof. unfold shown. apply _. Defined.

(** ** Candidates *)

(** Domino [d] is not assigned and one of its sides passes the check of
    the restriction of [square], taken alone. *)
Definition isCandidate (h : Heap) (square : ptr) (d : ptr) : bool :=
  match dominoes h !! d, regionOf h square with
  | Some dm, Some rs =>
      negb (IsAssigned dm)
      && (Check rs (Square1Value dm) 1 || Check rs (Square2Value dm) 1)
  | _, _ => false
  end.

(** The match flags of a candidate are the two checks. *)
Definition flagsMatch (h : Heap) (square : ptr) (c : DominoCandidate) : Prop :=
  ∃ dm rs, dominoes h !! candDomino c = Some dm ∧ regionOf h square = Some rs
    ∧ isLeftMatch c = Check rs (Square1Value dm) 1
    ∧ isRightMatch c = Check rs (Square2Value dm) 1.

(** ** Results that are not a success *)

Definition notSuccess (r : Result) : Prop :=
  match r with Returned true _ _ => False | _ => True end.

Definition loopNotSuccess (lr : LoopResult) : Prop :=
  match lr with Stop r => notSuccess r | Continue _ _ _ => True end.

(** ** Tokens read in pairs *)

(** The numbers of a list of pairs, in the order a line gives them. *)
Definition pairsFlat (vs : list (Z * Z)) : list Z :=
  vs ≫= λ v, [v.1; v.2].

(** [reads Atoi parts vs]: every part is read without error, giving [vs]. *)
Definition reads (Atoi : string → option Z) (parts : list string) (vs : list Z) : Prop :=
  Forall2 (λ part v, Atoi part = Some v) parts vs.

(** A reader of the numerals of one digit, for the examples. *)
Definition oneDigit (s : string) : option Z :=
  (λ p, Z.of_nat p.1)
    <$> list_find (λ n, n = s) ["0"; "1"; "2"; "3"; "4"; "5"; "6"; "7"; "8"; "9"].

Definition emptyHeap : Heap := mkHeap ∅ ∅ ∅.

(** ** Coordinates *)

(** The square at column [x] of row [y], both counted from 1 as the lines
    of input count them; nothing for a blank cell or outside the grid. *)
Definition squareAt (grid : list (list (option ptr))) (x y : Z) : option ptr :=
  if decide (0 ≤ sub64 y 1 ∧ 0 ≤ sub64 x 1) then
    row ← grid !! Z.to_nat (sub64 y 1) ;
    mjoin (row !! Z.to_nat (sub64 x 1))
  else None.

Definition isArgType (typ : string) : Prop :=
  typ = "gt" ∨ typ = "lt" ∨ typ = "sum".

(** ** Squares made by [parseRow] *)

(** [p] is a square allocated between [h] and [h'], at column [x] of row
    [y], with a restriction of its own of type none, and nothing else
    set. *)
Definition freshSquare (h h' : Heap) (x y : Z) (p : ptr) : Prop :=
  squares h !! p = None
  ∧ ∃ r, restrictions h !! r = None
      ∧ squares h' !! p = Some (mkGridSquare x y None 0 (Some r) None None None None)
      ∧ restrictions h' !! r = Some (mkRestriction RestrictionTypeNone 0 0).

(** Column [i], counted from 0, is listed as blank by the numbers [nums],
    which count from 1. *)
Definition listedBlank (nums : list Z) (i : Z) : Prop :=
  ∃ num, num ∈ nums ∧ sub64 num 1 = i.

(** ** Adjacency *)

(** The cell at row [y] and column [x], counted from 0; nil outside the
    grid. *)
Definition cellOf (grid : list (list (option ptr))) (y x : nat) : option ptr :=
  row ← grid !! y ; mjoin (row !! x).

Definition rectangular (grid : list (list (option ptr))) (w : nat) : Prop :=
  Forall (λ row, length row = w) grid.

(** Square [sq] of row [y] and column [x] with its neighbour fields set to
    the cells around it; on the border of the grid a field keeps the value
    it has. *)
Definition linked (grid : list (list (option ptr))) (w y x : nat) (sq : GridSquare)
    : GridSquare :=
  mkGridSquare (X sq) (Y sq) (DominoAssigned sq) (PipValue sq) (Restriction_ sq)
    (if decide (0 < y)%nat then cellOf grid (y - 1) x else TopNeighbor sq)
    (if decide (y + 1 < length grid)%nat then cellOf grid (y + 1) x
     else BottomNeighbor sq)
    (if decide (0 < x)%nat then cellOf grid y (x - 1) else LeftNeighbor sq)
    (if decide (x + 1 < w)%nat then cellOf grid y (x + 1) else RightNeighbor sq).

(** The field updates of a pass over the grid, in scan order. *)
Fixpoint rowUpdates (grid : list (list (option ptr))) (w y x : nat)
    (cells : list (option ptr)) : list (ptr * (GridSquare → GridSquare)) :=
  match cells with
  | [] => []
  | c :: cells' =>
      match c with Some s => [(s, linked grid w y x)] | None => [] end
      ++ rowUpdates grid w y (S x) cells'
  end.

Fixpoint gridUpdates (grid : list (list (option ptr))) (w y : nat)
    (rows : list (list (option ptr))) : list (ptr * (GridSquare → GridSquare)) :=
  match rows with
  | [] => []
  | row :: rows' => rowUpdates grid w y 0 row ++ gridUpdates grid w (S y) rows'
  end.

Definition applyUpdates (us : list (ptr * (GridSquare → GridSquare)))
    (m : gmap ptr GridSquare) : gmap ptr GridSquare :=
  foldl (λ m u, alter u.2 u.1 m) m us.

(** ** Results on the example boards *)

(** [swapThenRotations] after [PruneUselessMoves]. *)
Definition swapThenRotationsPruned : MoveQueue :=
  (set_Pruned true <$> take 4 swapThenRotations) ++ drop 4 swapThenRotations.

(** [smallBoard] with its domino laid on the two squares. *)
Definition smallBoardAssigned : Heap :=
  mkHeap
    {[ 0%nat := mkDomino 1 2 true 0 ]}
    {[ 0%nat := mkGridSquare 0 0 (Some 0%nat) 0 (Some 0%nat) None None None (Some 1%nat);
       1%nat := mkGridSquare 1 0 (Some 0%nat) 0 (Some 1%nat) None None (Some 0%nat) None ]}
    {[ 0%nat := mkRestriction RestrictionTypeNone 0 0;
       1%nat := mkRestriction RestrictionTypeNone 0 0 ]}.

(** [freshDominoHeap] with its domino turned once. *)
Definition turnedDominoHeap : Heap :=
  mkHeap {[ 0%nat := mkDomino 1 2 false 1 ]} ∅ ∅.

(** The dominoes 1-2 and 0-6 as [parseDominoes] allocates them. *)
Definition twoDominoes : Heap :=
  mkHeap {[ 0%nat := mkDomino 1 2 false 0; 1%nat := mkDomino 0 6 false 0 ]} ∅ ∅.

(** A row of four cells with the second and the fourth blank, as
    [parseRow] allocates it for row 0. *)
Definition rowHeap : Heap :=
  mkHeap ∅
    {[ 0%nat := mkGridSquare 0 0 None 0 (Some 0%nat) None None None None;
       1%nat := mkGridSquare 2 0 None 0 (Some 1%nat) None None None None ]}
    {[ 0%nat := mkRestriction RestrictionTypeNone 0 0;
       1%nat := mkRestriction RestrictionTypeNone 0 0 ]}.

(** [smallBoard] after the line [sum 7 1 1 2 1]. *)
Definition smallBoardSum : Heap :=
  mkHeap
    {[ 0%nat := mkDomino 1 2 false 0 ]}
    {[ 0%nat := mkGridSquare 0 0 None 0 (Some 2%nat) None None None (Some 1%nat);
       1%nat := mkGridSquare 1 0 None 0 (Some 2%nat) None None (Some 0%nat) None ]}
    {[ 0%nat := mkRestriction RestrictionTypeNone 0 0;
       1%nat := mkRestriction RestrictionTypeNone 0 0;
       2%nat := mkRestriction RestrictionTypeSumsTo 7 2 ]}.

(** [smallBoard] after the line [eq 0 1 1 2 1]. *)
Definition smallBoardEqual : Heap :=
  mkHeap
    {[ 0%nat := mkDomino 1 2 false 0 ]}
    {[ 0%nat := mkGridSquare 0 0 None 0 (Some 2%nat) None None None (Some 1%nat);
       1%nat := mkGridSquare 1 0 None 0 (Some 2%nat) None None (Some 0%nat) None ]}
    {[ 0%nat := mkRestriction RestrictionTypeNone 0 0;
       1%nat := mkRestriction RestrictionTypeNone 0 0;
       2%nat := mkRestriction RestrictionTypeEqual 0 2 ]}.

(** * Properties *)

(** ** Machine arithmetic *)

Lemma wrap64_id z : is_int64 z → wrap64 z = z.
Proof.
  unfold is_int64, wrap64. intros Hz.
  rewrite Z.mod_small; lia.
Qed.

Lemma wrap64_range z : is_int64 (wrap64 z).
Proof.
  unfold is_int64, wrap64.
  pose proof (Z.mod_pos_bound (z + 2 ^ 63) (2 ^ 64)). lia.
Qed.

Lemma wrap64_add_l a b : wrap64 (wrap64 a + b) = wrap64 (a + b).
Proof.
  unfold wrap64. f_equal.
  replace ((a + 2 ^ 63) `mod` 2 ^ 64 - 2 ^ 63 + b + 2 ^ 63)
    with ((a + 2 ^ 63) `mod` 2 ^ 64 + b) by lia.
  rewrite Zplus_mod_idemp_l. f_equal. lia.
Qed.

Lemma add64_sub64 a b : is_int64 a → add64 (sub64 a b) b = a.
Proof.
  intros Ha. unfold add64, sub64. rewrite wrap64_add_l.
  replace (a - b + b) with a by lia. by apply wrap64_id.
Qed.

Lemma sub64_add64 a b : is_int64 a → sub64 (add64 a b) b = a.
Proof.
  intros Ha. unfold add64, sub64.
  replace (wrap64 (a + b) - b) with (wrap64 (a + b) + - b) by lia.
  rewrite wrap64_add_l.
  replace (a + b + - b) with a by lia. by apply wrap64_id.
Qed.

Lemma sub64_exact a b : is_int64 (a - b) → sub64 a b = a - b.
Proof. apply wrap64_id. Qed.

(** ** Restriction.Check *)

(** C3. [Check] returns true exactly when the reference semantics holds:
    always for kind none; [value > Arg] for greater-than; [value < Arg] for
    less-than; for equal, when the binding is unset (-1) or [value] is the
    bound [Arg]; for sum-to, unless [Arg - value] is negative or
    [NumSquaresLeft = numSquares] while [value] differs from [Arg]. *)
Theorem Check_reference_semantics (r : Restriction) (value numSquares : Z) :
  Check r value numSquares = true ↔ Check_reference r value numSquares.
Proof.
  unfold Check, Check_reference, kindOf,
    RestrictionTypeNone, RestrictionTypeGreaterThan, RestrictionTypeLessThan,
    RestrictionTypeEqual, RestrictionTypeSumsTo.
  repeat case_decide; try done.
  all: repeat case_bool_decide; simpl; try tauto; try lia.
Qed.

(** On operands whose difference does not overflow, the sum case reads with
    the mathematical difference. *)
Lemma Check_sum_no_overflow (r : Restriction) (value numSquares : Z) :
  Type_ r = RestrictionTypeSumsTo → is_int64 (Arg r - value) →
  Check r value numSquares = true ↔
  0 ≤ Arg r - value ∧ ¬ (NumSquaresLeft r = numSquares ∧ value ≠ Arg r).
Proof.
  intros Ht Hr. unfold Check. rewrite Ht, (sub64_exact _ _ Hr).
  unfold RestrictionTypeNone, RestrictionTypeGreaterThan, RestrictionTypeLessThan,
    RestrictionTypeEqual, RestrictionTypeSumsTo.
  repeat (case_decide; [done|]). case_decide; [|done].
  repeat case_bool_decide; simpl; split; try done; try lia; try tauto.
Qed.

(** ** Domino rotation *)

Lemma GetRotation_nonneg (dm : Domino) :
  0 ≤ rotation dm → 0 ≤ GetRotation dm < 4.
Proof. unfold GetRotation. intros H. apply Z.rem_bound_pos; lia. Qed.

Lemma GetRotation_bounds (dm : Domino) : -4 < GetRotation dm < 4.
Proof.
  unfold GetRotation.
  pose proof (Z.rem_bound_abs (rotation dm) 4). lia.
Qed.

(** C7. From rotation counter 0, one call of
    [Rotate90DegreesCounterClockwise] leaves the counter at -1, and
    [GetRotation] then returns -1, which is outside 0..3: Go's [%] keeps the
    sign of the dividend. *)
Theorem GetRotation_negative_after_counter_clockwise :
  ∃ h dm,
    Rotate90DegreesCounterClockwise 0%nat freshDominoHeap = Some (tt, h)
    ∧ dominoes h !! 0%nat = Some dm
    ∧ rotation dm = -1
    ∧ GetRotation dm = -1
    ∧ ¬ (0 ≤ GetRotation dm ≤ 3).
Proof.
  exists (mkHeap {[ 0%nat := mkDomino 1 2 false (-1) ]} ∅ ∅), (mkDomino 1 2 false (-1)).
  split; [by vm_compute|].
  split; [by vm_compute|].
  split; [reflexivity|].
  split; [reflexivity|].
  change (GetRotation (mkDomino 1 2 false (-1))) with (-1). lia.
Qed.

(** The two rotations are inverse of each other on the counter, hence on
    the facing, whatever the counter is. *)
Lemma rotate_clockwise_then_back (d : ptr) (dm : Domino) (h : Heap) :
  dominoes h !! d = Some dm → is_int64 (rotation dm) →
  (Rotate90DegreesClockwise d ;; Rotate90DegreesCounterClockwise d) h = Some (tt, h).
Proof.
  intros Hd Hr.
  unfold Rotate90DegreesClockwise, Rotate90DegreesCounterClockwise, modD, bind, getD, putD.
  simpl. rewrite Hd. simpl. rewrite lookup_insert_eq. simpl.
  rewrite insert_insert_eq. unfold set_rotation; simpl.
  rewrite sub64_add64 by done.
  destruct h as [ds ss rs]; simpl in *. do 2 f_equal. f_equal.
  rewrite insert_id; [done|]. rewrite Hd. by destruct dm.
Qed.

Lemma rotate_counter_clockwise_then_back (d : ptr) (dm : Domino) (h : Heap) :
  dominoes h !! d = Some dm → is_int64 (rotation dm) →
  (Rotate90DegreesCounterClockwise d ;; Rotate90DegreesClockwise d) h = Some (tt, h).
Proof.
  intros Hd Hr.
  unfold Rotate90DegreesClockwise, Rotate90DegreesCounterClockwise, modD, bind, getD, putD.
  simpl. rewrite Hd. simpl. rewrite lookup_insert_eq. simpl.
  rewrite insert_insert_eq. unfold set_rotation; simpl.
  rewrite add64_sub64 by done.
  destruct h as [ds ss rs]; simpl in *. do 2 f_equal. f_equal.
  rewrite insert_id; [done|]. rewrite Hd. by destruct dm.
Qed.

(** ** Move log: pop *)

Lemma Pop_snoc (q : MoveQueue) (m : Move) (h : Heap) :
  Pop (q ++ [m]) h =
    match UndoFunc m with
    | None => None
    | Some u =>
        match runUndo u h with
        | Some (_, h') => Some ((Some m, q), h')
        | None => None
        end
    end.
Proof.
  unfold Pop. rewrite length_app. simpl.
  destruct (decide _) as [E|_]; [lia|].
  replace (length q + 1 - 1)%nat with (length q) by lia.
  rewrite lookup_app_r by lia. rewrite Nat.sub_diag. simpl.
  destruct (UndoFunc m) as [u|]; [|done].
  unfold bind, ret. destruct (runUndo u h) as [[[] h']|]; [|done].
  by rewrite take_app_length.
Qed.

(** C10. [Pop] on an empty log returns nil without calling any undo action
    and leaves the log and the heap as they are; on a log ending in [m] it
    returns [m], the log without its last entry, and the heap that the undo
    action stored on [m], and nothing else, produces. *)
Theorem Pop_empty_and_last (h : Heap) :
  Pop [] h = Some ((None, []), h)
  ∧ ∀ (q : MoveQueue) (m : Move) (u : UndoClosure),
      Pop (q ++ [set_UndoFunc (Some u) m]) h =
        match runUndo u h with
        | Some (_, h') => Some ((Some (set_UndoFunc (Some u) m), q), h')
        | None => None
        end.
Proof.
  split; [reflexivity|].
  intros q m u. by rewrite Pop_snoc.
Qed.

(** ** Reasoning about heap computations *)

Lemma bind_Some {A B} (m : M A) (k : A → M B) (h : Heap) (r : B * Heap) :
  bind m k h = Some r ↔ ∃ a h', m h = Some (a, h') ∧ k a h' = Some r.
Proof.
  unfold bind. destruct (m h) as [[a h']|]; split.
  - eauto.
  - by intros (? & ? & [= <- <-] & ?).
  - done.
  - by intros (? & ? & ? & ?).
Qed.

Lemma getD_Some d h dm h' :
  getD d h = Some (dm, h') ↔ dominoes h !! d = Some dm ∧ h' = h.
Proof.
  unfold getD. destruct (dominoes h !! d); split.
  - by intros [= -> ->].
  - by intros [[= ->] ->].
  - done.
  - by intros [? _].
Qed.

Lemma getS_Some s h sq h' :
  getS s h = Some (sq, h') ↔ squares h !! s = Some sq ∧ h' = h.
Proof.
  unfold getS. destruct (squares h !! s); split.
  - by intros [= -> ->].
  - by intros [[= ->] ->].
  - done.
  - by intros [? _].
Qed.

Lemma getR_Some r h rs h' :
  getR r h = Some (rs, h') ↔ restrictions h !! r = Some rs ∧ h' = h.
Proof.
  unfold getR. destruct (restrictions h !! r); split.
  - by intros [= -> ->].
  - by intros [[= ->] ->].
  - done.
  - by intros [? _].
Qed.

Lemma restrictionOf_Some s h r h' :
  restrictionOf s h = Some (r, h') ↔
  ∃ sq, squares h !! s = Some sq ∧ Restriction_ sq = Some r ∧ h' = h.
Proof.
  unfold restrictionOf. rewrite bind_Some. split.
  - intros (sq & h1 & Hs%getS_Some & Hr). destruct Hs as [Hs ->].
    destruct (Restriction_ sq) eqn:E; [|done].
    unfold ret in Hr. naive_solver.
  - intros (sq & Hs & Hr & ->). exists sq, h. rewrite getS_Some, Hr. done.
Qed.

(** Inversion of a computation known to return. *)
Ltac monad_inv :=
  repeat match goal with
  | H : bind _ _ _ = Some _ |- _ =>
      let a := fresh "a" in let h := fresh "h" in let E := fresh "E" in
      apply bind_Some in H; destruct H as (a & h & E & H)
  | H : getD _ _ = Some _ |- _ => apply getD_Some in H; destruct H as [H ->]
  | H : getS _ _ = Some _ |- _ => apply getS_Some in H; destruct H as [H ->]
  | H : getR _ _ = Some _ |- _ => apply getR_Some in H; destruct H as [H ->]
  | H : restrictionOf _ _ = Some _ |- _ =>
      let sq := fresh "sq" in let E := fresh "E" in
      apply restrictionOf_Some in H; destruct H as (sq & H & E & ->)
  | H : ret _ _ = Some _ |- _ => unfold ret in H; simplify_eq
  | H : panic _ = Some _ |- _ => discriminate H
  end.

Lemma checkRestrictions_pure d s neighbor h ok h' :
  checkRestrictions d s neighbor h = Some (ok, h') → h' = h.
Proof.
  unfold checkRestrictions. intros H. monad_inv.
  case_decide; monad_inv; repeat (case_match; monad_inv); done.
Qed.

(** A failing [TryAssign] returns a nil undo action and leaves the heap as
    it found it. *)
Lemma TryAssign_fail_pure d s h u h' :
  TryAssign d s h = Some ((false, u), h') → h' = h ∧ u = None.
Proof.
  unfold TryAssign. intros H. monad_inv.
  case_match; monad_inv; [|done].
  case_match; monad_inv; [done|].
  match goal with H : checkRestrictions _ _ _ _ = Some _ |- _ =>
    apply checkRestrictions_pure in H as -> end.
  case_match; monad_inv. done.
Qed.

Lemma TryAssign_success_undo d s h u h' :
  TryAssign d s h = Some ((true, u), h') → is_Some u.
Proof.
  unfold TryAssign. intros H. monad_inv.
  case_match; monad_inv.
  case_match; monad_inv.
  case_match; monad_inv. eauto.
Qed.

(** ** Move log: push *)

Lemma TryPush_assign (q : MoveQueue) (m : Move) (h : Heap) :
  MoveType_ m = MoveTypeAssign →
  TryPush q m h =
    match TryAssign (Domino_ m) (GridSquare_ m) h with
    | None => None
    | Some ((true, u), h') => Some ((true, q ++ [set_UndoFunc u m]), h')
    | Some ((false, u), h') => Some ((false, q), h')
    end.
Proof.
  intros Hm. unfold TryPush. rewrite Hm.
  unfold MoveTypeAssign, MoveTypeRotate, MoveTypeSwap.
  repeat (case_decide; [done|]). case_decide; [|done].
  unfold bind. by destruct (TryAssign _ _ h) as [[[[] u] h']|].
Qed.

Lemma TryPush_rotate (q : MoveQueue) (m : Move) (h : Heap) :
  MoveType_ m = MoveTypeRotate →
  TryPush q m h =
    match Rotate90DegreesClockwise (Domino_ m) h with
    | None => None
    | Some (_, h') =>
        Some ((true, q ++ [set_UndoFunc (Some (UndoRotate (Domino_ m))) m]), h')
    end.
Proof.
  intros Hm. unfold TryPush. rewrite Hm.
  unfold MoveTypeRotate. case_decide; [|done].
  unfold bind. by destruct (Rotate90DegreesClockwise _ h) as [[[] h']|].
Qed.

Lemma TryPush_swap (q : MoveQueue) (m : Move) (h : Heap) :
  MoveType_ m = MoveTypeSwap →
  TryPush q m h =
    match Swap (Domino_ m) h with
    | None => None
    | Some (_, h') =>
        Some ((true, q ++ [set_UndoFunc (Some (UndoSwap (Domino_ m))) m]), h')
    end.
Proof.
  intros Hm. unfold TryPush. rewrite Hm.
  unfold MoveTypeRotate, MoveTypeSwap.
  case_decide; [done|]. case_decide; [|done].
  unfold bind. by destruct (Swap _ h) as [[[] h']|].
Qed.

(** Every entry [TryPush] appends carries an undo action, so [Pop] never
    calls a nil function on a log built by pushes. *)
Lemma TryPush_appends_with_undo (q : MoveQueue) (m : Move) (h : Heap) q1 h1 :
  TryPush q m h = Some ((true, q1), h1) →
  ∃ u, q1 = q ++ [set_UndoFunc (Some u) m].
Proof.
  unfold TryPush. intros H.
  repeat case_decide; monad_inv; eauto.
  destruct a as [[] u]; simpl in H; monad_inv.
  match goal with H : TryAssign _ _ _ = Some _ |- _ =>
    destruct (TryAssign_success_undo _ _ _ _ _ H) as [u' ->] end.
  eauto.
Qed.


(** C5. Pushing an assign move follows [TryAssign] on the move's domino and
    square: when [TryAssign] fails, [TryPush] returns false, the log is the
    one before the call and the heap (the domino, the squares and their
    restrictions) is untouched; when it succeeds, [TryPush] returns true and
    the log has the move, with the undo action, appended; [TryPush] returns
    true in no other case. *)
Theorem TryPush_assign_atomic (q : MoveQueue) (m : Move) (h : Heap) :
  MoveType_ m = MoveTypeAssign →
  match TryAssign (Domino_ m) (GridSquare_ m) h with
  | None => TryPush q m h = None
  | Some ((false, u), h') =>
      h' = h ∧ u = None ∧ TryPush q m h = Some ((false, q), h)
  | Some ((true, u), h') =>
      is_Some u ∧ TryPush q m h = Some ((true, q ++ [set_UndoFunc u m]), h')
  end.
Proof.
  intros Hm. rewrite (TryPush_assign q m h Hm).
  destruct (TryAssign _ _ h) as [[[[] u] h']|] eqn:E; simpl.
  - split; [|done]. by eapply TryAssign_success_undo.
  - apply TryAssign_fail_pure in E as [-> ->]. done.
  - done.
Qed.

(** ** The effect of the primitives, as updates in place *)

Section alter_facts.
Context {A : Type}.
Implicit Types (m : gmap nat A) (f g : A → A).

Lemma insert_as_alter m i x f : m !! i = Some x → <[i := f x]> m = alter f i m.
Proof.
  intros Hi. apply map_eq. intros j. rewrite lookup_insert, lookup_alter.
  case_decide; subst; [by rewrite Hi|done].
Qed.

End alter_facts.

Lemma modD_run d f h :
  is_Some (dominoes h !! d) → modD d f h = Some (tt, alterD f d h).
Proof.
  intros [dm Hd]. unfold modD, bind, getD, putD, alterD. rewrite Hd.
  by rewrite (insert_as_alter _ _ _ f Hd).
Qed.

Lemma modS_run s f h :
  is_Some (squares h !! s) → modS s f h = Some (tt, alterS f s h).
Proof.
  intros [sq Hs]. unfold modS, bind, getS, putS, alterS. rewrite Hs.
  by rewrite (insert_as_alter _ _ _ f Hs).
Qed.

Lemma modR_run r f h :
  is_Some (restrictions h !! r) → modR r f h = Some (tt, alterR f r h).
Proof.
  intros [rs Hr]. unfold modR, bind, getR, putR, alterR. rewrite Hr.
  by rewrite (insert_as_alter _ _ _ f Hr).
Qed.

Lemma modD_Some d f h u h' :
  modD d f h = Some (u, h') → is_Some (dominoes h !! d) ∧ h' = alterD f d h.
Proof.
  intros H. assert (is_Some (dominoes h !! d)) as Hd.
  { unfold modD in H. monad_inv. eauto. }
  rewrite modD_run in H by done. naive_solver.
Qed.

Lemma modS_Some s f h u h' :
  modS s f h = Some (u, h') → is_Some (squares h !! s) ∧ h' = alterS f s h.
Proof.
  intros H. assert (is_Some (squares h !! s)) as Hs.
  { unfold modS in H. monad_inv. eauto. }
  rewrite modS_run in H by done. naive_solver.
Qed.

Lemma modR_Some r f h u h' :
  modR r f h = Some (u, h') → is_Some (restrictions h !! r) ∧ h' = alterR f r h.
Proof.
  intros H. assert (is_Some (restrictions h !! r)) as Hr.
  { unfold modR in H. monad_inv. eauto. }
  rewrite modR_run in H by done. naive_solver.
Qed.

Lemma restrictionOf_run h sp r :
  restrictionAt h sp r → restrictionOf sp h = Some (r, h).
Proof. intros (sq & Hs & Hr). apply restrictionOf_Some. eauto. Qed.

(** The restriction pointer of a square never changes. *)
Lemma restrictionAt_alterS h f p sp r :
  (∀ x, Restriction_ (f x) = Restriction_ x) →
  restrictionAt (alterS f p h) sp r ↔ restrictionAt h sp r.
Proof.
  intros Hf. unfold restrictionAt, alterS; simpl.
  rewrite lookup_alter. case_decide; subst; [|done].
  destruct (squares h !! sp) as [x|]; simpl; [|naive_solver].
  split.
  - intros (sq & [= <-] & Hr). rewrite Hf in Hr. eauto.
  - intros (sq & [= <-] & Hr). eexists. by rewrite Hf.
Qed.

Lemma restrictionAt_alterD h f p sp r :
  restrictionAt (alterD f p h) sp r ↔ restrictionAt h sp r.
Proof. done. Qed.

Lemma restrictionAt_alterR h f p sp r :
  restrictionAt (alterR f p h) sp r ↔ restrictionAt h sp r.
Proof. done. Qed.

Lemma bindEqual_run d sp side h r :
  restrictionAt h sp r → is_Some (restrictions h !! r) → is_Some (dominoes h !! d) →
  bindEqual d sp side h =
    Some (wasBlankR (restrictions h !!! r),
          alterR (bindR (side (dominoes h !!! d))) r h).
Proof.
  intros Hat [x Hx] [dm Hd]. unfold bindEqual, bind.
  rewrite (restrictionOf_run _ _ _ Hat).
  rewrite (lookup_total_correct _ _ _ Hx), (lookup_total_correct _ _ _ Hd).
  unfold getR, getD, putR, ret, alterR, bindR, wasBlankR. rewrite Hx.
  case_decide as Ht.
  - rewrite (bool_decide_eq_true_2 _ Ht). simpl.
    case_bool_decide as Ha.
    + rewrite Hd. do 3 f_equal.
      rewrite <- (insert_as_alter _ _ _ _ Hx).
      by rewrite (bool_decide_eq_true_2 _ Ht), (bool_decide_eq_true_2 _ Ha).
    + do 3 f_equal. destruct h; simpl in *. f_equal.
      symmetry. apply alter_id. intros y Hy. simplify_eq.
      by rewrite (bool_decide_eq_false_2 _ Ha), andb_false_r.
  - rewrite (bool_decide_eq_false_2 _ Ht). simpl.
    do 3 f_equal. destruct h; simpl in *. f_equal.
    symmetry. apply alter_id. intros y Hy. simplify_eq.
    by rewrite (bool_decide_eq_false_2 _ Ht).
Qed.

Lemma consumeSum_run d sp side h r :
  restrictionAt h sp r → is_Some (restrictions h !! r) → is_Some (dominoes h !! d) →
  consumeSum d sp side h =
    Some (tt, alterR (consumeR (side (dominoes h !!! d))) r h).
Proof.
  intros Hat [x Hx] [dm Hd]. unfold consumeSum, bind at 1 2.
  rewrite (restrictionOf_run _ _ _ Hat).
  rewrite (lookup_total_correct _ _ _ Hd).
  unfold getR at 1. rewrite Hx.
  case_decide as Ht.
  - unfold bind, getD. rewrite Hd.
    rewrite modR_run by eauto.
    rewrite modR_run by (apply lookup_alter_is_Some; eauto).
    unfold alterR; simpl. do 3 f_equal.
    rewrite alter_alter_eq. apply alter_ext. intros y Hy. simplify_eq.
    unfold consumeR. by rewrite (bool_decide_eq_true_2 _ Ht).
  - unfold ret. do 2 f_equal. destruct h; unfold alterR; simpl in *. f_equal.
    symmetry. apply alter_id. intros y Hy. simplify_eq.
    unfold consumeR. by rewrite (bool_decide_eq_false_2 _ Ht).
Qed.

Lemma restoreSum_run d sp side h r :
  restrictionAt h sp r → is_Some (restrictions h !! r) → is_Some (dominoes h !! d) →
  restoreSum d sp side h =
    Some (tt, alterR (restoreR (side (dominoes h !!! d))) r h).
Proof.
  intros Hat [x Hx] [dm Hd]. unfold restoreSum, bind at 1 2.
  rewrite (restrictionOf_run _ _ _ Hat).
  rewrite (lookup_total_correct _ _ _ Hd).
  unfold getR at 1. rewrite Hx.
  case_decide as Ht.
  - unfold bind, getD. rewrite Hd.
    rewrite modR_run by eauto.
    rewrite modR_run by (apply lookup_alter_is_Some; eauto).
    unfold alterR; simpl. do 3 f_equal.
    rewrite alter_alter_eq. apply alter_ext. intros y Hy. simplify_eq.
    unfold restoreR. by rewrite (bool_decide_eq_true_2 _ Ht).
  - unfold ret. do 2 f_equal. destruct h; unfold alterR; simpl in *. f_equal.
    symmetry. apply alter_id. intros y Hy. simplify_eq.
    unfold restoreR. by rewrite (bool_decide_eq_false_2 _ Ht).
Qed.

Lemma unbindEqual_run blank sp h r :
  restrictionAt h sp r → is_Some (restrictions h !! r) →
  unbindEqual blank sp h = Some (tt, alterR (unbindR blank) r h).
Proof.
  intros Hat Hr. unfold unbindEqual, unbindR. destruct blank.
  - unfold bind. rewrite (restrictionOf_run _ _ _ Hat). by apply modR_run.
  - unfold ret. do 2 f_equal. destruct h; unfold alterR; simpl. f_equal.
    symmetry. by apply alter_id.
Qed.

Lemma bind_run {A B} (m : M A) (k : A → M B) h a h' :
  m h = Some (a, h') → bind m k h = k a h'.
Proof. unfold bind. by intros ->. Qed.

Lemma restrictionAt_set_DominoAssigned h o p sp r :
  restrictionAt (alterS (set_DominoAssigned o) p h) sp r ↔ restrictionAt h sp r.
Proof. by apply restrictionAt_alterS. Qed.

Lemma restrictionAt_squares h D' R' o1 o2 p1 p2 sp r :
  restrictionAt h sp r →
  restrictionAt
    (mkHeap D' (alter (set_DominoAssigned o1) p1
                  (alter (set_DominoAssigned o2) p2 (squares h))) R') sp r.
Proof.
  intros H.
  change (restrictionAt
            (alterS (set_DominoAssigned o1) p1
               (alterS (set_DominoAssigned o2) p2 (mkHeap D' (squares h) R'))) sp r).
  by rewrite !restrictionAt_set_DominoAssigned.
Qed.

(** Side conditions of the run lemmas on a heap reached by updates in
    place: the domain of the stores and the restriction pointers of the
    squares are those of the heap started from. *)
Ltac still_valid :=
  repeat first
    [ assumption
    | rewrite restrictionAt_alterR
    | rewrite restrictionAt_alterD
    | rewrite restrictionAt_set_DominoAssigned
    | progress (cbn [alterD alterS alterR dominoes squares restrictions])
    | rewrite lookup_alter_is_Some ].

Lemma Assign_run d s n h rs rn :
  is_Some (dominoes h !! d) → is_Some (squares h !! s) → is_Some (squares h !! n) →
  restrictionAt h s rs → restrictionAt h n rn →
  is_Some (restrictions h !! rs) → is_Some (restrictions h !! rn) →
  let v1 := Square1Value (dominoes h !!! d) in
  let v2 := Square2Value (dominoes h !!! d) in
  Assign d s n h =
    Some (UndoAssign d s n
            (wasBlankR (restrictions h !!! rs))
            (wasBlankR (alter (bindR v1) rs (restrictions h) !!! rn)),
          mkHeap (alter (set_IsAssigned true) d (dominoes h))
                 (alter (set_DominoAssigned (Some d)) n
                    (alter (set_DominoAssigned (Some d)) s (squares h)))
                 (assignRestrictions v1 v2 rs rn (restrictions h))).
Proof.
  intros Hd Hs Hn Hrs Hrn Hxs Hxn v1 v2. unfold Assign.
  erewrite bind_run; [|apply modS_run; still_valid].
  erewrite bind_run; [|apply modS_run; still_valid].
  erewrite bind_run; [|apply (bindEqual_run _ _ _ _ rs); still_valid].
  erewrite bind_run; [|apply (bindEqual_run _ _ _ _ rn); still_valid].
  erewrite bind_run; [|apply (consumeSum_run _ _ _ _ rs); still_valid].
  erewrite bind_run; [|apply (consumeSum_run _ _ _ _ rn); still_valid].
  erewrite bind_run; [|apply modD_run; still_valid].
  reflexivity.
Qed.

Lemma runUndo_assign_run d s n wb nwb h rs rn :
  is_Some (dominoes h !! d) → is_Some (squares h !! s) → is_Some (squares h !! n) →
  restrictionAt h s rs → restrictionAt h n rn →
  is_Some (restrictions h !! rs) → is_Some (restrictions h !! rn) →
  let v1 := Square1Value (dominoes h !!! d) in
  let v2 := Square2Value (dominoes h !!! d) in
  runUndo (UndoAssign d s n wb nwb) h =
    Some (tt,
          mkHeap (alter (set_IsAssigned false) d (dominoes h))
                 (alter (set_DominoAssigned None) n
                    (alter (set_DominoAssigned None) s (squares h)))
                 (undoRestrictions v1 v2 rs rn wb nwb (restrictions h))).
Proof.
  intros Hd Hs Hn Hrs Hrn Hxs Hxn v1 v2. unfold runUndo.
  erewrite bind_run; [|apply modS_run; still_valid].
  erewrite bind_run; [|apply modD_run; still_valid].
  erewrite bind_run; [|apply modS_run; still_valid].
  erewrite bind_run; [|apply (unbindEqual_run _ _ _ rs); still_valid].
  erewrite bind_run; [|apply (unbindEqual_run _ _ _ rn); still_valid].
  erewrite bind_run; [|apply (restoreSum_run _ _ _ _ rs); still_valid].
  rewrite (restoreSum_run _ _ _ _ rn) by still_valid.
  cbn [alterD alterS alterR dominoes squares restrictions].
  unfold undoRestrictions, v1, v2.
  destruct Hd as [dm Hd].
  rewrite !lookup_total_alter_eq, Hd. simpl.
  by rewrite (lookup_total_correct _ _ _ Hd).
Qed.

Lemma add64_sub64_twice a v1 v2 :
  is_int64 a → add64 (add64 (sub64 (sub64 a v1) v2) v1) v2 = a.
Proof.
  intros Ha. unfold add64, sub64. rewrite <- !Z.add_opp_r, !wrap64_add_l.
  rewrite <- Z.add_assoc, wrap64_add_l.
  transitivity (wrap64 a); [f_equal; lia | by apply wrap64_id].
Qed.

(** The record-level updates, kind by kind. *)
Section restriction_updates.
Variables (t : RestrictionType) (a n : Z).
Let x := mkRestriction t a n.

Lemma wasBlankR_blank : t = RestrictionTypeEqual → a = -1 → wasBlankR x = true.
Proof. by intros -> ->. Qed.

Lemma wasBlankR_bound : a ≠ -1 → wasBlankR x = false.
Proof.
  intros Ha. unfold wasBlankR; simpl.
  by rewrite (bool_decide_eq_false_2 _ Ha), andb_false_r.
Qed.

Lemma wasBlankR_other : t ≠ RestrictionTypeEqual → wasBlankR x = false.
Proof.
  intros Ht. unfold wasBlankR; simpl.
  by rewrite (bool_decide_eq_false_2 _ Ht).
Qed.

Lemma consumeR_sum v :
  t = RestrictionTypeSumsTo → consumeR v x = mkRestriction t (sub64 a v) (sub64 n 1).
Proof. by intros ->. Qed.

Lemma consumeR_other v : t ≠ RestrictionTypeSumsTo → consumeR v x = x.
Proof. intros Ht. unfold consumeR; simpl. by rewrite (bool_decide_eq_false_2 _ Ht). Qed.

Lemma restoreR_sum v :
  t = RestrictionTypeSumsTo → restoreR v x = mkRestriction t (add64 a v) (add64 n 1).
Proof. by intros ->. Qed.

Lemma restoreR_other v : t ≠ RestrictionTypeSumsTo → restoreR v x = x.
Proof. intros Ht. unfold restoreR; simpl. by rewrite (bool_decide_eq_false_2 _ Ht). Qed.
End restriction_updates.

(** Rewriting a chain of record-level updates on a restriction whose kind
    is known. *)
Ltac restriction_updates :=
  repeat first
    [ rewrite wasBlankR_blank by done
    | rewrite wasBlankR_bound by done
    | rewrite wasBlankR_other by done
    | rewrite consumeR_sum by done
    | rewrite consumeR_other by done
    | rewrite restoreR_sum by done
    | rewrite restoreR_other by done
    | progress (unfold bindR, unbindR, set_Arg; cbn [Type_ Arg NumSquaresLeft]) ].

(** Undo on a restriction that only one of the two squares has. *)
Lemma undo_restriction_single (v : Z) (x : Restriction) :
  int64_restriction x →
  restoreR v (unbindR (wasBlankR x) (consumeR v (bindR v x))) = x.
Proof.
  intros [Ha Hn]. destruct x as [t a n]; simpl in *.
  assert (RestrictionTypeEqual ≠ RestrictionTypeSumsTo) as Hes by done.
  destruct (decide (t = RestrictionTypeEqual)) as [->|Hte].
  - destruct (decide (a = -1)) as [->|Hna]; by restriction_updates.
  - destruct (decide (t = RestrictionTypeSumsTo)) as [->|Hts]; restriction_updates.
    + by rewrite !add64_sub64.
    + done.
Qed.

(** Undo on the restriction that both squares share. *)
Lemma undo_restriction_shared (v1 v2 : Z) (x : Restriction) :
  int64_restriction x →
  restoreR v2 (restoreR v1
    (unbindR (wasBlankR (bindR v1 x)) (unbindR (wasBlankR x)
       (consumeR v2 (consumeR v1 (bindR v2 (bindR v1 x))))))) = x.
Proof.
  intros [Ha Hn]. destruct x as [t a n]; simpl in *.
  assert (RestrictionTypeEqual ≠ RestrictionTypeSumsTo) as Hes by done.
  destruct (decide (t = RestrictionTypeEqual)) as [->|Hte].
  - destruct (decide (a = -1)) as [->|Hna].
    + destruct (decide (v1 = -1)) as [->|Hv]; by restriction_updates.
    + by restriction_updates.
  - destruct (decide (t = RestrictionTypeSumsTo)) as [->|Hts]; restriction_updates.
    + by rewrite !add64_sub64_twice.
    + done.
Qed.

Lemma undoRestrictions_assignRestrictions v1 v2 rs rn (R : gmap ptr Restriction) :
  (∀ x, R !! rs = Some x → int64_restriction x) →
  (∀ x, R !! rn = Some x → int64_restriction x) →
  undoRestrictions v1 v2 rs rn
    (wasBlankR (R !!! rs)) (wasBlankR (alter (bindR v1) rs R !!! rn))
    (assignRestrictions v1 v2 rs rn R) = R.
Proof.
  intros Hs Hn. unfold undoRestrictions, assignRestrictions.
  destruct (decide (rs = rn)) as [->|Hne].
  - rewrite !alter_alter_eq. apply alter_id. intros x Hx. simpl.
    rewrite lookup_total_alter_eq, (lookup_total_correct _ _ _ Hx), Hx. simpl.
    by apply undo_restriction_shared, Hn.
  - apply map_eq. intros i.
    rewrite (lookup_total_alter_ne _ _ rs rn) by done.
    destruct (decide (i = rs)) as [->|Hi1]; [|destruct (decide (i = rn)) as [->|Hi2]].
    + repeat (rewrite lookup_alter_eq || rewrite lookup_alter_ne by done).
      rewrite lookup_total_alt.
      destruct (R !! rs) as [x|] eqn:E; simpl; [|done].
      f_equal. by apply undo_restriction_single, Hs.
    + repeat (rewrite lookup_alter_eq || rewrite lookup_alter_ne by done).
      rewrite (lookup_total_alt R rn).
      destruct (R !! rn) as [x|] eqn:E; simpl; [|done].
      f_equal. by apply undo_restriction_single, Hn.
    + by repeat (rewrite lookup_alter_ne by done).
Qed.

Lemma bindEqual_Some_valid d sp side h b h' :
  bindEqual d sp side h = Some (b, h') →
  ∃ r, restrictionAt h sp r ∧ is_Some (restrictions h !! r).
Proof.
  unfold bindEqual. intros H. monad_inv.
  exists a. split; [by exists sq | eauto].
Qed.

(** [Assign] returns only when both squares have a restriction. *)
Lemma Assign_Some_valid d s n h u h1 :
  is_Some (dominoes h !! d) → is_Some (squares h !! s) → is_Some (squares h !! n) →
  Assign d s n h = Some (u, h1) →
  ∃ rs rn, restrictionAt h s rs ∧ restrictionAt h n rn
           ∧ is_Some (restrictions h !! rs) ∧ is_Some (restrictions h !! rn).
Proof.
  intros Hd Hs Hn H. unfold Assign in H.
  erewrite bind_run in H; [|apply modS_run; still_valid].
  erewrite bind_run in H; [|apply modS_run; still_valid].
  apply bind_Some in H as (wb & h3 & E1 & H).
  pose proof (bindEqual_Some_valid _ _ _ _ _ _ E1) as (rs & Hrs & Hxs).
  rewrite (bindEqual_run _ _ _ _ rs) in E1 by still_valid. simplify_eq.
  apply bind_Some in H as (nwb & h4 & E2 & H).
  pose proof (bindEqual_Some_valid _ _ _ _ _ _ E2) as (rn & Hrn & Hxn).
  exists rs, rn.
  rewrite restrictionAt_alterR, !restrictionAt_set_DominoAssigned in Hrn.
  rewrite !restrictionAt_set_DominoAssigned in Hrs.
  cbn [alterD alterS alterR dominoes squares restrictions] in Hxs, Hxn.
  rewrite lookup_alter_is_Some in Hxn. done.
Qed.

Lemma squares_assign_undo (d s n : ptr) (S : gmap ptr GridSquare) :
  (∀ sq, S !! s = Some sq → DominoAssigned sq = None) →
  (∀ sq, S !! n = Some sq → DominoAssigned sq = None) →
  alter (set_DominoAssigned None) n (alter (set_DominoAssigned None) s
    (alter (set_DominoAssigned (Some d)) n (alter (set_DominoAssigned (Some d)) s S))) = S.
Proof.
  intros Hs Hn. apply map_eq. intros i.
  assert (∀ sq o, DominoAssigned sq = None →
            set_DominoAssigned None (set_DominoAssigned o sq) = sq) as Hset.
  { intros [] o. simpl. by intros ->. }
  destruct (decide (s = n)) as [->|Hne].
  - rewrite !alter_alter_eq, lookup_alter. case_decide; [subst i|done].
    destruct (S !! n) as [sq|] eqn:E; simpl; [|done].
    f_equal. pose proof (Hn _ eq_refl) as HD.
    destruct sq; simpl in *. by subst.
  - destruct (decide (i = s)) as [->|Hi1]; [|destruct (decide (i = n)) as [->|Hi2]].
    + repeat (rewrite lookup_alter_eq || rewrite lookup_alter_ne by done).
      destruct (S !! s) as [sq|] eqn:E; simpl; [|done].
      f_equal. by apply Hset, Hs.
    + repeat (rewrite lookup_alter_eq || rewrite lookup_alter_ne by done).
      destruct (S !! n) as [sq|] eqn:E; simpl; [|done].
      f_equal. by apply Hset, Hn.
    + by repeat (rewrite lookup_alter_ne by done).
Qed.

(** ** Undo round trip *)

Lemma TryAssign_undo_round_trip d s h u h1 :
  int64_heap h →
  (∀ dm, dominoes h !! d = Some dm → IsAssigned dm = false) →
  (∀ sq, squares h !! s = Some sq → DominoAssigned sq = None) →
  TryAssign d s h = Some ((true, Some u), h1) →
  runUndo u h1 = Some (tt, h).
Proof.
  intros [_ Hint] Hfree Hopen H. unfold TryAssign in H. monad_inv.
  destruct (neighborInDirection _ _) as [n|] eqn:En; monad_inv.
  case_bool_decide as Hocc; monad_inv.
  match goal with H : checkRestrictions _ _ _ _ = Some _ |- _ =>
    apply checkRestrictions_pure in H as -> end.
  case_match; monad_inv.
  match goal with H : Assign _ _ _ _ = Some _ |- _ => rename H into HA end.
  assert (is_Some (dominoes h !! d)) as Hd by eauto.
  assert (is_Some (squares h !! s)) as Hs by eauto.
  assert (is_Some (squares h !! n)) as Hn by eauto.
  destruct (Assign_Some_valid _ _ _ _ _ _ Hd Hs Hn HA)
    as (rs & rn & Hrs & Hrn & Hxs & Hxn).
  rewrite (Assign_run d s n h rs rn) in HA by done. simplify_eq.
  rewrite (runUndo_assign_run _ _ _ _ _ _ rs rn);
    [| still_valid; try (by apply restrictionAt_squares);
       unfold assignRestrictions; by rewrite !lookup_alter_is_Some ..].
  cbn [dominoes squares restrictions].
  destruct Hd as [dm Hd].
  rewrite lookup_total_alter_eq, Hd, (lookup_total_correct _ _ _ Hd). simpl.
  destruct h as [D S R]; cbn [dominoes squares restrictions] in *.
  do 2 f_equal. f_equal.
  - rewrite alter_alter_eq. apply alter_id. intros x Hx. simpl.
    pose proof (Hfree _ Hx). destruct x; simpl in *. by subst.
  - apply squares_assign_undo; [done|].
    intros sq Hsq. by simplify_eq.
  - apply undoRestrictions_assignRestrictions; intros x Hx; by eapply Hint.
Qed.

Lemma rotate_undo_round_trip d h u h1 :
  int64_heap h →
  Rotate90DegreesClockwise d h = Some (u, h1) →
  Rotate90DegreesCounterClockwise d h1 = Some (tt, h).
Proof.
  intros [Hint _] H. apply modD_Some in H as [Hd ->].
  unfold Rotate90DegreesCounterClockwise.
  rewrite modD_run by still_valid.
  destruct h as [D S R]; unfold alterD; cbn [dominoes squares restrictions] in *.
  do 2 f_equal. f_equal.
  rewrite alter_alter_eq. apply alter_id. intros x Hx. simpl.
  unfold set_rotation; simpl. rewrite sub64_add64 by (by eapply (Hint d x)).
  by destruct x.
Qed.

Lemma swap_undo_round_trip d h u h1 :
  Swap d h = Some (u, h1) → Swap d h1 = Some (tt, h).
Proof.
  intros H. apply modD_Some in H as [Hd ->].
  unfold Swap. rewrite modD_run by still_valid.
  destruct h as [D S R]; unfold alterD; cbn [dominoes squares restrictions] in *.
  do 2 f_equal. f_equal.
  rewrite alter_alter_eq. apply alter_id. intros x Hx. by destruct x.
Qed.

(** C1. Undo round trip.  In a heap whose integers are Go [int]s, a move
    that [TryPush] accepts (a rotate, a swap, or an assign of an unassigned
    domino to an open square, as the search pushes them) is stored as the
    last entry of the log with an undo action, and [Pop] right after it
    returns that entry and restores the log and the whole heap: the domino's
    rotation counter, sides and assigned flag, the [DominoAssigned]
    reference of both squares, and the [Arg] and [NumSquaresLeft] of their
    restrictions are those before the push. *)
Theorem push_pop_round_trip (q : MoveQueue) (m : Move) (h : Heap)
    (q1 : MoveQueue) (h1 : Heap) :
  int64_heap h →
  assign_target_free h m →
  TryPush q m h = Some ((true, q1), h1) →
  ∃ u, q1 = q ++ [set_UndoFunc (Some u) m]
       ∧ Pop q1 h1 = Some ((Some (set_UndoFunc (Some u) m), q), h).
Proof.
  intros Hint Hfree H.
  destruct (decide (MoveType_ m = MoveTypeRotate)) as [Hr|Hnr];
    [|destruct (decide (MoveType_ m = MoveTypeSwap)) as [Hs|Hns];
      [|destruct (decide (MoveType_ m = MoveTypeAssign)) as [Ha|Hna]]].
  - rewrite TryPush_rotate in H by done.
    destruct (Rotate90DegreesClockwise _ h) as [[[] h']|] eqn:E; [|done].
    simplify_eq. eexists. split; [done|].
    rewrite Pop_snoc. simpl.
    by rewrite (rotate_undo_round_trip _ _ _ _ Hint E).
  - rewrite TryPush_swap in H by done.
    destruct (Swap _ h) as [[[] h']|] eqn:E; [|done].
    simplify_eq. eexists. split; [done|].
    rewrite Pop_snoc. simpl.
    by rewrite (swap_undo_round_trip _ _ _ _ E).
  - rewrite TryPush_assign in H by done.
    destruct (TryAssign _ _ h) as [[[[] u] h']|] eqn:E; [|done..].
    simplify_eq.
    destruct (TryAssign_success_undo _ _ _ _ _ E) as [u' ->].
    exists u'. split; [done|].
    rewrite Pop_snoc. simpl.
    destruct (Hfree Ha) as [Hd Hs].
    by rewrite (TryAssign_undo_round_trip _ _ _ _ _ Hint Hd Hs E).
  - unfold TryPush in H. repeat (case_decide; [done|]).
    by unfold ret in H.
Qed.

(** ** Equal regions *)

(** C4. On the unbound equal region of two squares, [TryAssign] accepts the
    domino 3-4 laid across the region: the region is bound to 3, the first
    value, and the second square of the region receives the domino's second
    value, 4.  The guard meant to reject this compares [Square1Value] with
    itself. *)
Theorem TryAssign_equal_region_straddled :
  ∃ u h1 dm sq1 rs,
    TryAssign 0%nat 0%nat equalStrip = Some ((true, Some u), h1)
    ∧ restrictions h1 !! 0%nat = Some rs
    ∧ Type_ rs = RestrictionTypeEqual ∧ Arg rs = 3
    ∧ squares h1 !! 1%nat = Some sq1
    ∧ Restriction_ sq1 = Some 0%nat ∧ DominoAssigned sq1 = Some 0%nat
    ∧ dominoes h1 !! 0%nat = Some dm
    ∧ Square2Value dm = 4 ∧ Square2Value dm ≠ Arg rs.
Proof.
  eexists _, _, (mkDomino 3 4 true 0),
    (mkGridSquare 1 0 (Some 0%nat) 0 (Some 0%nat) None None (Some 0%nat) None),
    (mkRestriction RestrictionTypeEqual 3 2).
  split; [vm_compute; reflexivity|].
  repeat split; try (vm_compute; reflexivity). simpl. lia.
Qed.

(** X5. When the two squares have different restrictions, the value landing on
    the neighbour is checked against the neighbour's restriction. *)
Lemma TryAssign_checks_neighbor d s h u h1 dm sq n nb rn x :
  TryAssign d s h = Some ((true, u), h1) →
  dominoes h !! d = Some dm → squares h !! s = Some sq →
  neighborInDirection (GetRotation dm) sq = Some n →
  squares h !! n = Some nb → Restriction_ sq ≠ Restriction_ nb →
  Restriction_ nb = Some rn → restrictions h !! rn = Some x →
  Check x (Square2Value dm) 1 = true.
Proof.
  intros H Hd Hs Hn Hnb Hne Hrn Hx. unfold TryAssign in H. monad_inv.
  simplify_eq. rewrite Hn in H. monad_inv. simplify_eq.
  case_bool_decide; monad_inv.
  match goal with H : checkRestrictions _ _ _ _ = Some _ |- _ =>
    rename H into HC end.
  case_match; monad_inv.
  unfold checkRestrictions in HC. monad_inv. simplify_eq.
  rewrite decide_False in HC by done. monad_inv. simplify_eq.
  destruct (Check _ _ 1); [done|]. by monad_inv.
Qed.

(** ** Success reporting *)

(** With no open square left, [pickEmptySquare] indexes an empty slice. *)
Lemma pickEmptySquare_panics_when_full grid h h' :
  blankSquaresOf grid h = Some ([], h') → pickEmptySquare grid h = None.
Proof. intros H. unfold pickEmptySquare, bind. by rewrite H. Qed.

(** With dominoes in the set, all of them assigned, [makeNextMove] returns
    false: its success test is on the length of the set. *)
Lemma FindAvailableCandidates_all_assigned ds square h :
  Forall (λ d, ∃ dm, dominoes h !! d = Some dm ∧ IsAssigned dm = true) ds →
  FindAvailableCandidates ds square h = Some ([], h).
Proof.
  induction 1 as [|d ds (dm & Hd & Ha) _ IH]; [done|].
  simpl. unfold bind, getD. by rewrite Hd, Ha.
Qed.

Lemma makeNextMove_all_assigned_fails grid ds fuel q square h :
  ds ≠ [] →
  Forall (λ d, ∃ dm, dominoes h !! d = Some dm ∧ IsAssigned dm = true) ds →
  makeNextMove grid ds (S fuel) q square h = Returned false q h.
Proof.
  intros Hne Hall. simpl. unfold makeNextMoveBody.
  rewrite FindAvailableCandidates_all_assigned by done. simpl.
  destruct ds; [done|]. done.
Qed.

(** C2. On the two-square board the search assigns the only domino to the
    two squares, which leaves no open square and no unassigned domino, and
    then panics in [pickEmptySquare] instead of returning true. *)
Theorem solve_panics_on_solved_board :
  (∃ q1 h1,
     TryPush [] (mkMove "Assign domino 1-2 to square 1,1" 0%nat 0%nat MoveTypeAssign None false)
       smallBoard = Some ((true, q1), h1)
     ∧ blankSquaresOf smallGrid h1 = Some ([], h1)
     ∧ HasUnassigned [0%nat] h1 = Some (false, h1)
     ∧ pickEmptySquare smallGrid h1 = None)
  ∧ ∀ fuel, solve smallGrid [0%nat] (S fuel) smallBoard = Panicked.
Proof.
  split.
  - eexists _, _. split; [vm_compute; reflexivity|].
    repeat split; vm_compute; reflexivity.
  - intros fuel. destruct fuel; vm_compute; reflexivity.
Qed.

(** ** Pruning *)

Lemma flagged_refl m : flagged m m.
Proof. by left. Qed.

Lemma flagged_trans m1 m2 m3 : flagged m1 m2 → flagged m2 m3 → flagged m1 m3.
Proof.
  intros [->| ->] [->| ->]; unfold flagged; auto.
Qed.

Lemma flagged_log_trans (q1 q2 q3 : MoveQueue) :
  Forall2 flagged q1 q2 → Forall2 flagged q2 q3 → Forall2 flagged q1 q3.
Proof.
  intros H12. revert q3. induction H12 as [|m1 m2 q1 q2 Hm _ IH]; intros q3 H23.
  - by inversion H23.
  - inversion H23; subst. constructor; [by eapply flagged_trans|by apply IH].
Qed.

Lemma flagged_log_refl (q : MoveQueue) : Forall2 flagged q q.
Proof. induction q; constructor; [apply flagged_refl|done]. Qed.

Lemma flagged_log_alter (q : MoveQueue) j :
  Forall2 flagged q (alter (set_Pruned true) j q).
Proof.
  revert j. induction q as [|m q IH]; intros [|j]; simpl.
  - constructor.
  - constructor.
  - constructor; [by right|apply flagged_log_refl].
  - constructor; [apply flagged_refl|apply IH].
Qed.

Lemma flagged_log_markPruned count j (q : MoveQueue) :
  Forall2 flagged q (markPruned count j q).
Proof.
  revert j q. induction count as [|count IH]; intros j q; simpl.
  - apply flagged_log_refl.
  - eapply flagged_log_trans; [apply flagged_log_alter|apply IH].
Qed.

Lemma flagged_log_pruneLoop steps i fi fm (q q' : MoveQueue) :
  pruneLoop steps i fi fm q = Some q' → Forall2 flagged q q'.
Proof.
  revert i fi fm q. induction steps as [|steps IH]; intros i fi fm q; simpl.
  - intros [= <-]. apply flagged_log_refl.
  - intros H. repeat (case_match; try done); try by eapply IH.
    eapply flagged_log_trans; [apply flagged_log_markPruned|by eapply IH].
Qed.

(** X9. When [PruneUselessMoves] returns, the log has the same entries in the
    same order, and an entry differs from the one before at most by a
    raised [Pruned] flag. *)
Lemma PruneUselessMoves_only_flags (q q' : MoveQueue) :
  PruneUselessMoves q = Some q' → Forall2 flagged q q'.
Proof.
  unfold PruneUselessMoves. case_match; [|done]. apply flagged_log_pruneLoop.
Qed.

(** C8. On the log swap, rotate, rotate, rotate, rotate (all of domino 0),
    assign (of domino 1), [PruneUselessMoves] marks the swap and the first
    three rotations and leaves the fourth rotation unmarked, where the run
    of four rotations is entries 1 to 4.  On the empty log, and on a log
    that ends with the fourth rotation of a run, it panics on an index out
    of range. *)
Theorem PruneUselessMoves_marks_swap :
  (∃ q', PruneUselessMoves swapThenRotations = Some q'
         ∧ MoveType_ <$> q' =
             [MoveTypeSwap; MoveTypeRotate; MoveTypeRotate; MoveTypeRotate;
              MoveTypeRotate; MoveTypeAssign]
         ∧ Pruned <$> q' = [true; true; true; true; false; false])
  ∧ PruneUselessMoves [] = None
  ∧ PruneUselessMoves fourRotations = None.
Proof.
  split; [|split; reflexivity].
  eexists. split; [vm_compute; reflexivity|]. split; reflexivity.
Qed.

(** The printed trace of that log after pruning: the swap is gone from
    it, one of the four rotations is still there. *)
Example String_after_prune :
  String_ <$> PruneUselessMoves swapThenRotations =
    Some ("Move queue:" ++ newline
          ++ "  - Rotate domino 5-2" ++ newline
          ++ "  - Assign domino 6-6 to square 1,1" ++ newline)%string.
Proof. vm_compute. reflexivity. Qed.

(** ** Square selection *)

Lemma blankSquaresOfRow_run row h :
  Forall (validSquare h) (omap id row) →
  blankSquaresOfRow row h = Some (filter (λ p, isOpen h p) (omap id row), h).
Proof.
  induction row as [|[p|] row IH]; simpl; intros Hv.
  - done.
  - apply Forall_cons in Hv as [(sq & Hsq & _) Hv].
    unfold bind, getS. rewrite Hsq, (IH Hv).
    destruct (_ && _) eqn:Eb.
    + rewrite filter_cons_True; [done|]. unfold isOpen. by rewrite Hsq, Eb.
    + rewrite filter_cons_False; [done|]. unfold isOpen. rewrite Hsq, Eb. by intros [].
  - by apply IH.
Qed.

Lemma blankSquaresOf_run grid h :
  validGrid grid h →
  blankSquaresOf grid h = Some (openSquares grid h, h).
Proof.
  unfold validGrid, openSquares, scanOrder.
  induction grid as [|row grid IH]; simpl; intros Hv; [done|].
  rewrite omap_app in Hv. apply Forall_app in Hv as [Hrow Hv].
  unfold bind. rewrite (blankSquaresOfRow_run _ _ Hrow), (IH Hv).
  by rewrite omap_app, filter_app.
Qed.

Lemma firstSquare_run wanted l h :
  Forall (λ p, is_Some (regionOf h p)) l →
  firstSquare wanted l h = Some (snd <$> list_find (λ p, wantedAt h wanted p) l, h).
Proof.
  induction 1 as [|p l [rs Hp] _ IH]; simpl; [done|].
  unfold regionOf in Hp.
  destruct (squares h !! p) as [sq|] eqn:Hsq; [|done].
  destruct (Restriction_ sq) as [r|] eqn:Hr; [|done].
  unfold bind. rewrite (restrictionOf_run h p r) by (by exists sq).
  unfold getR. rewrite Hp.
  assert (wantedAt h wanted p = wanted rs) as Hw.
  { unfold wantedAt, regionOf. by rewrite Hsq, Hr, Hp. }
  destruct (wanted rs) eqn:Ew.
  - rewrite decide_True; [done|]. by rewrite Hw.
  - rewrite decide_False; [|rewrite Hw; by intros []].
    rewrite IH. by destruct (list_find _ l) as [[]|].
Qed.

Lemma openSquares_region grid h :
  validGrid grid h → Forall (λ p, is_Some (regionOf h p)) (openSquares grid h).
Proof.
  intros Hv. unfold openSquares. apply Forall_forall. intros p Hp.
  apply list_elem_of_filter in Hp as [Hopen Hin].
  unfold validGrid in Hv. rewrite Forall_forall in Hv.
  destruct (Hv _ Hin) as (sq & Hsq & Hr).
  unfold isOpen in Hopen. unfold regionOf. rewrite Hsq in *.
  apply andb_True in Hopen as [_ Hne%bool_decide_unpack].
  destruct (Restriction_ sq) as [r|]; [|done]. by apply Hr.
Qed.

Lemma pickEmptySquare_run grid h :
  validGrid grid h →
  pickEmptySquare grid h =
    let l := openSquares grid h in
    match list_find (λ p, wantedAt h isSingleSquareSum p) l with
    | Some (_, square) => Some (square, h)
    | None =>
        match list_find (λ p, wantedAt h isBoundEqual p) l with
        | Some (_, square) => Some (square, h)
        | None =>
            match list_find (λ p, wantedAt h isComparison p) l with
            | Some (_, square) => Some (square, h)
            | None =>
                match l !! 0%nat with
                | Some square => Some (square, h)
                | None => None
                end
            end
        end
    end.
Proof.
  intros Hv. pose proof (openSquares_region _ _ Hv) as Hr.
  unfold pickEmptySquare, bind.
  rewrite (blankSquaresOf_run _ _ Hv).
  rewrite !(firstSquare_run _ _ _ Hr). simpl.
  destruct (list_find _ _) as [[]|]; simpl; [done|].
  rewrite !(firstSquare_run _ _ _ Hr). simpl.
  destruct (list_find _ _) as [[]|]; simpl; [done|].
  rewrite !(firstSquare_run _ _ _ Hr). simpl.
  destruct (list_find _ _) as [[]|]; simpl; [done|].
  by destruct (openSquares grid h).
Qed.

Lemma classOf_cases h p :
  classOf h p =
    if wantedAt h isSingleSquareSum p then 1%nat
    else if wantedAt h isBoundEqual p then 2%nat
    else if wantedAt h isComparison p then 3%nat
    else 4%nat.
Proof.
  unfold classOf, wantedAt, priorityClass. by destruct (regionOf h p).
Qed.


(** ** The search: assigned flags and the log across a call *)

Lemma unassigned_insert_true (F : gmap ptr bool) d :
  F !! d = Some false →
  S (size (filter (λ kv : ptr * bool, kv.2 = false) (<[d := true]> F)))
  = size (filter (λ kv : ptr * bool, kv.2 = false) F).
Proof.
  intros Hd. rewrite map_filter_insert_False by done.
  rewrite map_filter_delete.
  assert (filter (λ kv : ptr * bool, kv.2 = false) F !! d = Some false) as Hf.
  { by apply map_lookup_filter_Some_2. }
  rewrite map_size_delete_Some by eauto.
  assert (size (filter (λ kv : ptr * bool, kv.2 = false) F) ≠ 0%nat); [|lia].
  apply map_size_non_empty_iff. intros He. by rewrite He, lookup_empty in Hf.
Qed.

Lemma flags_alter_IsAssigned b d h D :
  dominoes h = alter (set_IsAssigned b) d D →
  is_Some (D !! d) →
  flags h = <[d := b]> (IsAssigned <$> D).
Proof.
  unfold flags. intros -> [dm Hd].
  rewrite <- (insert_as_alter D d dm) by done.
  by rewrite fmap_insert.
Qed.

Lemma flags_alter_same f d h D :
  dominoes h = alter f d D →
  (∀ x, IsAssigned (f x) = IsAssigned x) →
  flags h = IsAssigned <$> D.
Proof.
  unfold flags. intros -> Hf.
  rewrite (fmap_alter _ _ id) by (intros; apply Hf).
  by apply alter_id.
Qed.

(** Inversion of the writes. *)
Ltac put_inv :=
  repeat match goal with
  | H : putD _ _ _ = Some _ |- _ => unfold putD in H; simplify_eq
  | H : putS _ _ _ = Some _ |- _ => unfold putS in H; simplify_eq
  | H : putR _ _ _ = Some _ |- _ => unfold putR in H; simplify_eq
  | H : modS _ _ _ = Some _ |- _ => apply modS_Some in H as [? ->]
  | H : modR _ _ _ = Some _ |- _ => apply modR_Some in H as [? ->]
  | H : modD _ _ _ = Some _ |- _ => apply modD_Some in H as [? ->]
  end.

Lemma unbindEqual_dominoes blank sp h u h' :
  unbindEqual blank sp h = Some (u, h') → dominoes h' = dominoes h.
Proof.
  unfold unbindEqual. destruct blank; intros H; monad_inv; put_inv; done.
Qed.

Lemma restoreSum_dominoes d sp side h u h' :
  restoreSum d sp side h = Some (u, h') → dominoes h' = dominoes h.
Proof.
  unfold restoreSum. intros H. monad_inv.
  case_decide; monad_inv; put_inv; done.
Qed.

Lemma runUndo_assign_dominoes d s n wb nwb h u h' :
  runUndo (UndoAssign d s n wb nwb) h = Some (u, h') →
  is_Some (dominoes h !! d)
  ∧ dominoes h' = alter (set_IsAssigned false) d (dominoes h).
Proof.
  simpl. intros H. monad_inv. put_inv.
  repeat match goal with
  | H : unbindEqual _ _ _ = Some _ |- _ => apply unbindEqual_dominoes in H
  | H : restoreSum _ _ _ _ = Some _ |- _ => apply restoreSum_dominoes in H
  end.
  cbn [alterD alterS alterR dominoes] in *. split; [done|]. congruence.
Qed.

Lemma TryAssign_success_dominoes d s h u h1 :
  TryAssign d s h = Some ((true, u), h1) →
  (∃ n wb nwb, u = Some (UndoAssign d s n wb nwb))
  ∧ is_Some (dominoes h !! d)
  ∧ dominoes h1 = alter (set_IsAssigned true) d (dominoes h).
Proof.
  intros H. unfold TryAssign in H. monad_inv.
  destruct (neighborInDirection _ _) as [n|] eqn:En; monad_inv.
  case_bool_decide as Hocc; monad_inv.
  match goal with H : checkRestrictions _ _ _ _ = Some _ |- _ =>
    apply checkRestrictions_pure in H as -> end.
  case_match; monad_inv.
  match goal with H : Assign _ _ _ _ = Some _ |- _ => rename H into HA end.
  assert (is_Some (dominoes h !! d)) as Hd by eauto.
  assert (is_Some (squares h !! s)) as Hs by eauto.
  assert (is_Some (squares h !! n)) as Hn by eauto.
  destruct (Assign_Some_valid _ _ _ _ _ _ Hd Hs Hn HA)
    as (rs & rn & Hrs & Hrn & Hxs & Hxn).
  rewrite (Assign_run d s n h rs rn) in HA by done. simplify_eq.
  split; [eauto|]. done.
Qed.

(** Reading the board does not change it. *)
Lemma FindAvailableCandidates_pure ds square h cs h' :
  FindAvailableCandidates ds square h = Some (cs, h') →
  h' = h ∧ Forall (λ c, flags h !! candDomino c = Some false) cs.
Proof.
  revert cs. induction ds as [|d ds IH]; simpl; intros cs H.
  - unfold ret in H. by simplify_eq.
  - monad_inv. destruct (IsAssigned a) eqn:Ea; [by apply IH|].
    monad_inv. case_match; [by apply IH|].
    monad_inv.
    match goal with H : FindAvailableCandidates _ _ _ = Some _ |- _ =>
      destruct (IH _ H) as [-> Hcs] end.
    split; [done|].
    constructor; [|done]. simpl. unfold flags.
    match goal with H : dominoes _ !! d = Some _ |- _ =>
      rewrite lookup_fmap, H; simpl; by rewrite Ea end.
Qed.

Lemma blankSquaresOfRow_pure row h l h' :
  blankSquaresOfRow row h = Some (l, h') → h' = h.
Proof.
  revert h l h'. induction row as [|[p|] row IH]; simpl; intros h l h' H.
  - unfold ret in H. by simplify_eq.
  - monad_inv.
    match goal with H : blankSquaresOfRow _ _ = Some _ |- _ => apply IH in H as -> end.
    case_match; by monad_inv.
  - by eapply IH.
Qed.

Lemma blankSquaresOf_pure grid h l h' :
  blankSquaresOf grid h = Some (l, h') → h' = h.
Proof.
  revert h l h'. induction grid as [|row grid IH]; simpl; intros h l h' H.
  - unfold ret in H. by simplify_eq.
  - monad_inv.
    match goal with H : blankSquaresOfRow _ _ = Some _ |- _ =>
      apply blankSquaresOfRow_pure in H as -> end.
    match goal with H : blankSquaresOf _ _ = Some _ |- _ => by apply IH in H as -> end.
Qed.

Lemma firstSquare_pure wanted l h o h' :
  firstSquare wanted l h = Some (o, h') → h' = h.
Proof.
  revert h o h'. induction l as [|p l IH]; simpl; intros h o h' H.
  - unfold ret in H. by simplify_eq.
  - monad_inv. case_match; [by monad_inv|by eapply IH].
Qed.

Lemma pickEmptySquare_pure grid h square h' :
  pickEmptySquare grid h = Some (square, h') → h' = h.
Proof.
  unfold pickEmptySquare. intros H.
  repeat first
    [ progress monad_inv
    | match goal with
      | H : blankSquaresOf _ _ = Some _ |- _ => apply blankSquaresOf_pure in H as ->
      | H : firstSquare _ _ _ = Some _ |- _ => apply firstSquare_pure in H as ->
      end
    | case_match ];
  done.
Qed.

Lemma newAssignMove_Some d s h m h' :
  newAssignMove d s h = Some (m, h') →
  h' = h ∧ MoveType_ m = MoveTypeAssign ∧ Domino_ m = d ∧ GridSquare_ m = s.
Proof. unfold newAssignMove. intros H. by monad_inv. Qed.

Lemma newRotateMove_Some d s h m h' :
  newRotateMove d s h = Some (m, h') →
  h' = h ∧ MoveType_ m = MoveTypeRotate ∧ Domino_ m = d ∧ GridSquare_ m = s.
Proof. unfold newRotateMove. intros H. by monad_inv. Qed.

Lemma newSwapMove_Some d s h m h' :
  newSwapMove d s h = Some (m, h') →
  h' = h ∧ MoveType_ m = MoveTypeSwap ∧ Domino_ m = d ∧ GridSquare_ m = s.
Proof. unfold newSwapMove. intros H. by monad_inv. Qed.

Lemma loopInv_push q0 h0 q h defers m h' :
  loopInv q0 h0 q h defers → plainUndo m → flags h' = flags h →
  loopInv q0 h0 (q ++ [m]) h' (S defers).
Proof.
  intros (Hf & extra & -> & Hlen & Hall) Hm Hf'. split; [congruence|].
  exists (extra ++ [m]). rewrite app_assoc, length_app. simpl.
  split; [done|]. split; [lia|]. apply Forall_app. by repeat constructor.
Qed.

Lemma Rotate90DegreesClockwise_flags d h u h' :
  Rotate90DegreesClockwise d h = Some (u, h') → flags h' = flags h.
Proof.
  intros H. apply modD_Some in H as [_ ->].
  by eapply flags_alter_same.
Qed.

Lemma Swap_flags d h u h' : Swap d h = Some (u, h') → flags h' = flags h.
Proof.
  intros H. apply modD_Some in H as [_ ->].
  by eapply flags_alter_same.
Qed.

Lemma runUndo_plain_flags m u h r h' :
  plainUndo m → UndoFunc m = Some u → runUndo u h = Some (r, h') →
  flags h' = flags h.
Proof.
  intros [d [Hd|Hd]] Hu H; simplify_eq; simpl in H.
  - apply modD_Some in H as [_ ->]. by eapply flags_alter_same.
  - by eapply Swap_flags.
Qed.

Lemma goodLoop_Stop_Panicked q0 h0 : goodLoop q0 h0 (Stop Panicked).
Proof. by left. Qed.

Lemma pushRotate_good q0 h0 d s q h defers :
  loopInv q0 h0 q h defers → goodLoop q0 h0 (pushRotate d s q h defers).
Proof.
  intros Hinv. unfold pushRotate.
  destruct ((move <- newRotateMove d s ;; TryPush q move) h)
    as [[[b q'] h']|] eqn:E; [|apply goodLoop_Stop_Panicked].
  apply bind_Some in E as (move & h1 & Em & Ep).
  apply newRotateMove_Some in Em as (-> & Hmt & Hmd & Hms).
  rewrite TryPush_rotate in Ep by done.
  destruct (Rotate90DegreesClockwise _ h) as [[[] h2]|] eqn:Er; [|done].
  simplify_eq. simpl. eapply loopInv_push; [done| |].
  - exists (Domino_ move). by left.
  - by eapply Rotate90DegreesClockwise_flags.
Qed.

Lemma pushSwap_good q0 h0 d s q h defers :
  loopInv q0 h0 q h defers →
  goodLoop q0 h0
    match (move <- newSwapMove d s ;; TryPush q move) h with
    | None => Stop Panicked
    | Some ((_, q'), h') => Continue q' h' (S defers)
    end.
Proof.
  intros Hinv.
  destruct ((move <- newSwapMove d s ;; TryPush q move) h)
    as [[[b q'] h']|] eqn:E; [|apply goodLoop_Stop_Panicked].
  apply bind_Some in E as (move & h1 & Em & Ep).
  apply newSwapMove_Some in Em as (-> & Hmt & Hmd & Hms).
  rewrite TryPush_swap in Ep by done.
  destruct (Swap _ h) as [[[] h2]|] eqn:Er; [|done].
  simplify_eq. simpl. eapply loopInv_push; [done| |].
  - exists (Domino_ move). by right.
  - by eapply Swap_flags.
Qed.

Section search_invariant.
Variable rec : MoveQueue → Heap → Result.
Variable bound : nat.
Hypothesis rec_good : goodRec bound rec.

Lemma tryOrientations_good n d s q0 h0 q h defers :
  (unassigned h0 ≤ bound)%nat →
  flags h0 !! d = Some false →
  loopInv q0 h0 q h defers →
  goodLoop q0 h0 (tryOrientations rec n d s q h defers).
Proof.
  intros Hb Hd. revert q h defers.
  induction n as [|n IH]; intros q h defers Hinv; simpl; [done|].
  assert (∀ q' h', loopInv q0 h0 q' h' defers →
            goodLoop q0 h0
              match pushRotate d s q' h' defers with
              | Stop r => Stop r
              | Continue q4 h4 defers' => tryOrientations rec n d s q4 h4 defers'
              end) as Hrot.
  { intros q' h' Hinv'. pose proof (pushRotate_good _ _ d s _ _ _ Hinv') as Hp.
    destruct (pushRotate d s q' h' defers); [done|by apply IH]. }
  destruct ((move <- newAssignMove d s ;; TryPush q move) h)
    as [[[b q1] h1]|] eqn:E; [|apply goodLoop_Stop_Panicked].
  apply bind_Some in E as (move & h' & Em & Ep).
  apply newAssignMove_Some in Em as (-> & Hmt & Hmd & Hms).
  rewrite TryPush_assign in Ep by done.
  destruct (TryAssign _ _ h) as [[[[] u] h2]|] eqn:Et; simplify_eq.
  - apply TryAssign_success_dominoes in Et
      as ((nb & wb & nwb & ->) & Hdom & Hh1).
    pose proof Hinv as (Hf & _).
    assert (flags h1 = <[Domino_ move := true]> (flags h)) as Hf1.
    { by apply flags_alter_IsAssigned. }
    assert (unassigned h1 < bound)%nat as Hlt.
    { pose proof (unassigned_insert_true (flags h) (Domino_ move)) as Hs.
      unfold unassigned in *. rewrite Hf1. rewrite Hf in Hs |- *.
      specialize (Hs Hd). lia. }
    match goal with |- context [rec ?q1 h1] =>
      pose proof (rec_good q1 h1 Hlt) as Hr;
      destruct (rec q1 h1) as [| |[] q2 h2]; simpl in Hr; [done| | |]
    end.
    + apply goodLoop_Stop_Panicked.
    + right. eauto.
    + destruct Hr as [-> Hf2]. rewrite Pop_snoc. cbn [UndoFunc set_UndoFunc].
      destruct (runUndo _ h2) as [[[] h4]|] eqn:Hu;
        [|apply goodLoop_Stop_Panicked].
      apply Hrot. destruct Hinv as (_ & Hq). split; [|done].
      apply runUndo_assign_dominoes in Hu as [Hd2 Hu].
      rewrite (flags_alter_IsAssigned _ _ _ _ Hu Hd2).
      fold (flags h2). rewrite Hf2, Hf1, insert_insert_eq.
      rewrite insert_id; [done|]. by rewrite Hf.
  - apply TryAssign_fail_pure in Et as [-> ->]. by apply Hrot.
Qed.

Lemma tryCandidates_good cands s q0 h0 q h defers :
  (unassigned h0 ≤ bound)%nat →
  Forall (λ c, flags h0 !! candDomino c = Some false) cands →
  loopInv q0 h0 q h defers →
  goodLoop q0 h0 (tryCandidates rec cands s q h defers).
Proof.
  intros Hb Hall. revert q h defers.
  induction Hall as [|c cands Hc _ IH]; intros q h defers Hinv; simpl; [done|].
  assert (goodLoop q0 h0
            (if negb (isLeftMatch c)
             then match (move <- newSwapMove (candDomino c) s ;; TryPush q move) h with
                  | None => Stop Panicked
                  | Some ((_, q'), h') => Continue q' h' (S defers)
                  end
             else Continue q h defers)) as Hsw.
  { destruct (negb _); [by apply pushSwap_good|done]. }
  destruct (if negb (isLeftMatch c) then _ else _) as [r|q1 h1 defers1]; [done|].
  pose proof (tryOrientations_good (numIterationsOf c) (candDomino c) s
                _ _ _ _ _ Hb Hc Hsw) as Ho.
  destruct (tryOrientations _ _ _ _ _ _ _); [done|by apply IH].
Qed.
End search_invariant.

Lemma runDefers_good q0 h0 defers q h :
  loopInv q0 h0 q h defers → goodResult q0 h0 (runDefers defers q h).
Proof.
  revert q h. induction defers as [|defers IH]; intros q h (Hf & extra & -> & Hlen & Hall).
  - destruct extra; [|done]. simpl. by rewrite app_nil_r.
  - destruct (decide (extra = [])) as [->|Hne]; [done|].
    destruct (exists_last Hne) as (extra' & m & ->).
    rewrite length_app in Hlen. simpl in Hlen.
    apply Forall_app in Hall as [Hall Hm]. apply Forall_cons in Hm as [Hm _].
    simpl. rewrite app_assoc, Pop_snoc.
    assert (∃ d, UndoFunc m = Some (UndoRotate d) ∨ UndoFunc m = Some (UndoSwap d))
      as [d Hd] by done.
    destruct (UndoFunc m) as [u|] eqn:Eu; [|by destruct Hd].
    destruct (runUndo u h) as [[[] h']|] eqn:Er; [|done].
    apply IH. split.
    + rewrite <- Hf. by eapply runUndo_plain_flags.
    + exists extra'. split; [done|]. split; [lia|done].
Qed.

Lemma loopInv_entry q h : loopInv q h q h 0.
Proof. split; [done|]. exists []. by rewrite app_nil_r. Qed.

Lemma makeNextMoveBody_good ds rec bound q square h :
  goodRec bound rec → (unassigned h ≤ bound)%nat →
  goodResult q h (makeNextMoveBody ds rec q square h).
Proof.
  intros Hrec Hb. unfold makeNextMoveBody.
  destruct (FindAvailableCandidates ds square h) as [[cands h0]|] eqn:E; [|done].
  apply FindAvailableCandidates_pure in E as [-> Hc].
  case_decide; [by repeat case_decide|].
  pose proof (tryCandidates_good rec bound Hrec cands square q h q h 0
                Hb Hc (loopInv_entry q h)) as Ht.
  destruct (tryCandidates _ _ _ _ _ _) as [r|q' h' defers].
  - by destruct Ht as [->|(? & ? & ->)].
  - by apply runDefers_good.
Qed.

(** With more fuel than unassigned dominoes, a call of [makeNextMove]
    ends; when it returns false, the log is the one it was entered with and
    the same dominoes are assigned. *)
Lemma makeNextMove_good grid ds fuel q square h :
  (unassigned h < fuel)%nat →
  goodResult q h (makeNextMove grid ds fuel q square h).
Proof.
  revert q square h. induction fuel as [|fuel IH]; intros q square h Hlt; [lia|].
  simpl. apply (makeNextMoveBody_good _ _ fuel); [|lia].
  intros q' h' Hlt'.
  destruct (pickEmptySquare grid h') as [[sq h'']|] eqn:E; [|done].
  apply pickEmptySquare_pure in E as ->. by apply IH.
Qed.

Lemma makeNextMove_terminates grid ds fuel q square h :
  (unassigned h < fuel)%nat → makeNextMove grid ds fuel q square h ≠ OutOfFuel.
Proof.
  intros Hlt E. pose proof (makeNextMove_good grid ds _ q square h Hlt) as H.
  by rewrite E in H.
Qed.

(** ** The search: backtracking restores the board *)

Lemma map_Forall_alter_keep {A} (P : A → Prop) (f : A → A) (i : nat) (m : gmap nat A) :
  map_Forall (λ _, P) m → (∀ x, m !! i = Some x → P x → P (f x)) →
  map_Forall (λ _, P) (alter f i m).
Proof.
  intros Hm Hf j y Hy. apply lookup_alter_Some in Hy as [[-> (x & Hx & ->)]|[_ Hy]].
  - apply Hf; [done|]. by eapply Hm.
  - by eapply Hm.
Qed.

Lemma Rotate90DegreesClockwise_int64 d h u h' :
  Rotate90DegreesClockwise d h = Some (u, h') → int64_heap h → int64_heap h'.
Proof.
  intros H [HD HR]. apply modD_Some in H as [_ ->]. split; [|done].
  apply map_Forall_alter_keep; [done|]. intros x _ (H1 & H2 & _).
  split; [exact H1|]. split; [exact H2|]. apply wrap64_range.
Qed.

Lemma Swap_int64 d h u h' : Swap d h = Some (u, h') → int64_heap h → int64_heap h'.
Proof.
  intros H [HD HR]. apply modD_Some in H as [_ ->]. split; [|done].
  apply map_Forall_alter_keep; [done|]. intros x _ (H1 & H2 & H3).
  split; [exact H2|]. split; [exact H1|exact H3].
Qed.

Lemma bindR_int64 v x : is_int64 v → int64_restriction x → int64_restriction (bindR v x).
Proof. intros Hv [Ha Hn]. unfold bindR. by destruct (wasBlankR x). Qed.

Lemma consumeR_int64 v x : int64_restriction x → int64_restriction (consumeR v x).
Proof.
  intros [Ha Hn]. unfold consumeR. case_bool_decide; [|done].
  split; apply wrap64_range.
Qed.

Lemma TryAssign_int64 d s h u h1 :
  TryAssign d s h = Some ((true, u), h1) → int64_heap h → int64_heap h1.
Proof.
  intros H [HD HR]. unfold TryAssign in H. monad_inv.
  destruct (neighborInDirection _ _) as [n|] eqn:En; monad_inv.
  case_bool_decide as Hocc; monad_inv.
  match goal with H : checkRestrictions _ _ _ _ = Some _ |- _ =>
    apply checkRestrictions_pure in H as -> end.
  case_match; monad_inv.
  match goal with H : Assign _ _ _ _ = Some _ |- _ => rename H into HA end.
  assert (is_Some (dominoes h !! d)) as Hd by eauto.
  assert (is_Some (squares h !! s)) as Hs by eauto.
  assert (is_Some (squares h !! n)) as Hn by eauto.
  destruct (Assign_Some_valid _ _ _ _ _ _ Hd Hs Hn HA)
    as (rs & rn & Hrs & Hrn & Hxs & Hxn).
  rewrite (Assign_run d s n h rs rn) in HA by done. simplify_eq.
  destruct Hd as [dm Hd]. rewrite (lookup_total_correct _ _ _ Hd).
  destruct (HD _ _ Hd) as (H1 & H2 & _).
  split; cbn [dominoes restrictions].
  - apply map_Forall_alter_keep; [done|]. intros x _ (Hx1 & Hx2 & Hx3).
    split; [exact Hx1|]. split; [exact Hx2|exact Hx3].
  - unfold assignRestrictions.
    repeat (apply map_Forall_alter_keep; [|intros x _ Hx]);
      auto using bindR_int64, consumeR_int64.
Qed.

(** The square [pickEmptySquare] returns is open, whatever the grid. *)
Lemma blankSquaresOfRow_open row h l h' :
  blankSquaresOfRow row h = Some (l, h') → Forall (squareOpen h) l.
Proof.
  revert h l h'. induction row as [|[p|] row IH]; simpl; intros h l h' H.
  - unfold ret in H. by simplify_eq.
  - monad_inv.
    match goal with H : blankSquaresOfRow _ _ = Some _ |- _ =>
      pose proof (blankSquaresOfRow_pure _ _ _ _ H) as ->; apply IH in H end.
    case_match eqn:Eb; monad_inv; [|done].
    constructor; [|done]. intros sq Hsq. simplify_eq.
    by apply andb_prop in Eb as [Hda%bool_decide_eq_true _].
  - by eapply IH.
Qed.

Lemma blankSquaresOf_open grid h l h' :
  blankSquaresOf grid h = Some (l, h') → Forall (squareOpen h) l.
Proof.
  revert h l h'. induction grid as [|row grid IH]; simpl; intros h l h' H.
  - unfold ret in H. by simplify_eq.
  - monad_inv.
    match goal with H : blankSquaresOfRow _ _ = Some _ |- _ =>
      pose proof (blankSquaresOfRow_pure _ _ _ _ H) as ->;
      apply blankSquaresOfRow_open in H end.
    match goal with H : blankSquaresOf _ _ = Some _ |- _ => apply IH in H end.
    by apply Forall_app.
Qed.

Lemma firstSquare_elem wanted l h p h' :
  firstSquare wanted l h = Some (Some p, h') → p ∈ l.
Proof.
  revert h h'. induction l as [|x l IH]; simpl; intros h h' H.
  - unfold ret in H. by simplify_eq.
  - monad_inv. case_match; monad_inv.
    + apply list_elem_of_here.
    + apply list_elem_of_further. by eapply IH.
Qed.

Lemma pickEmptySquare_squareOpen grid h square h' :
  pickEmptySquare grid h = Some (square, h') → squareOpen h square.
Proof.
  unfold pickEmptySquare. intros H. monad_inv.
  match goal with H : blankSquaresOf _ _ = Some _ |- _ =>
    pose proof (blankSquaresOf_pure _ _ _ _ H) as ->;
    apply blankSquaresOf_open in H; rename H into Hopen end.
  rewrite Forall_forall in Hopen. apply Hopen.
  repeat match goal with
  | H : firstSquare _ _ _ = Some (?o, _) |- _ =>
      pose proof (firstSquare_pure _ _ _ _ _ H) as ->;
      destruct o; [apply firstSquare_elem in H; by monad_inv|clear H]; monad_inv
  end.
  case_match eqn:E0; monad_inv. by eapply list_elem_of_lookup_2.
Qed.

Lemma restoringLoop_Stop_Panicked q0 h0 : restoringLoop q0 h0 (Stop Panicked).
Proof. by left. Qed.

Lemma pushRotate_restoring q0 h0 d s q h defers :
  restoreInv q0 h0 q h defers → restoringLoop q0 h0 (pushRotate d s q h defers).
Proof.
  intros (Hint & Hf & Hsq & Hrun). unfold pushRotate.
  destruct ((move <- newRotateMove d s ;; TryPush q move) h)
    as [[[b q'] h']|] eqn:E; [|apply restoringLoop_Stop_Panicked].
  apply bind_Some in E as (move & h1 & Em & Ep).
  apply newRotateMove_Some in Em as (-> & Hmt & Hmd & Hms).
  rewrite TryPush_rotate in Ep by done.
  destruct (Rotate90DegreesClockwise _ h) as [[[] h2]|] eqn:Er; [|done].
  simplify_eq. cbn [restoringLoop].
  split; [by eapply Rotate90DegreesClockwise_int64|].
  split; [by rewrite (Rotate90DegreesClockwise_flags _ _ _ _ Er)|].
  split; [by apply modD_Some in Er as [_ ->]|].
  cbn [runDefers]. rewrite Pop_snoc. cbn [UndoFunc set_UndoFunc runUndo].
  by rewrite (rotate_undo_round_trip _ _ _ _ Hint Er).
Qed.

Lemma pushSwap_restoring q0 h0 d s q h defers :
  restoreInv q0 h0 q h defers →
  restoringLoop q0 h0
    match (move <- newSwapMove d s ;; TryPush q move) h with
    | None => Stop Panicked
    | Some ((_, q'), h') => Continue q' h' (S defers)
    end.
Proof.
  intros (Hint & Hf & Hsq & Hrun).
  destruct ((move <- newSwapMove d s ;; TryPush q move) h)
    as [[[b q'] h']|] eqn:E; [|apply restoringLoop_Stop_Panicked].
  apply bind_Some in E as (move & h1 & Em & Ep).
  apply newSwapMove_Some in Em as (-> & Hmt & Hmd & Hms).
  rewrite TryPush_swap in Ep by done.
  destruct (Swap _ h) as [[[] h2]|] eqn:Er; [|done].
  simplify_eq. cbn [restoringLoop].
  split; [by eapply Swap_int64|].
  split; [by rewrite (Swap_flags _ _ _ _ Er)|].
  split; [by apply modD_Some in Er as [_ ->]|].
  cbn [runDefers]. rewrite Pop_snoc. cbn [UndoFunc set_UndoFunc runUndo].
  by rewrite (swap_undo_round_trip _ _ _ _ Er).
Qed.

Section search_restores.
Variable rec : MoveQueue → Heap → Result.
Variable bound : nat.
Hypothesis rec_restores : restoringRec bound rec.

Lemma tryOrientations_restoring n d s q0 h0 q h defers :
  (unassigned h0 ≤ bound)%nat →
  flags h0 !! d = Some false →
  squareOpen h0 s →
  restoreInv q0 h0 q h defers →
  restoringLoop q0 h0 (tryOrientations rec n d s q h defers).
Proof.
  intros Hb Hd Hopen. revert q h defers.
  induction n as [|n IH]; intros q h defers Hinv; simpl; [done|].
  assert (∀ q' h', restoreInv q0 h0 q' h' defers →
            restoringLoop q0 h0
              match pushRotate d s q' h' defers with
              | Stop r => Stop r
              | Continue q4 h4 defers' => tryOrientations rec n d s q4 h4 defers'
              end) as Hrot.
  { intros q' h' Hinv'. pose proof (pushRotate_restoring _ _ d s _ _ _ Hinv') as Hp.
    destruct (pushRotate d s q' h' defers); [done|by apply IH]. }
  destruct ((move <- newAssignMove d s ;; TryPush q move) h)
    as [[[b q1] h1]|] eqn:E; [|apply restoringLoop_Stop_Panicked].
  apply bind_Some in E as (move & h' & Em & Ep).
  apply newAssignMove_Some in Em as (-> & Hmt & Hmd & Hms).
  rewrite TryPush_assign in Ep by done.
  destruct (TryAssign _ _ h) as [[[[] u] h2]|] eqn:Et; simplify_eq.
  - pose proof Hinv as (Hint & Hf & Hsq & Hrun).
    pose proof (TryAssign_success_dominoes _ _ _ _ _ Et)
      as ((nb & wb & nwb & ->) & Hdom & Hh1).
    assert (flags h1 = <[Domino_ move := true]> (flags h)) as Hf1.
    { by apply flags_alter_IsAssigned. }
    assert (unassigned h1 < bound)%nat as Hlt.
    { pose proof (unassigned_insert_true (flags h) (Domino_ move)) as Hs.
      unfold unassigned in *. rewrite Hf1. rewrite Hf in Hs |- *.
      specialize (Hs Hd). lia. }
    pose proof (TryAssign_int64 _ _ _ _ _ Et Hint) as Hint1.
    match goal with |- context [rec ?q1 h1] =>
      pose proof (rec_restores q1 h1 Hlt Hint1) as Hr;
      destruct (rec q1 h1) as [| |[] q2 h2]; simpl in Hr; [done| | |]
    end.
    + apply restoringLoop_Stop_Panicked.
    + right. eauto.
    + destruct Hr as [-> ->]. rewrite Pop_snoc. cbn [UndoFunc set_UndoFunc].
      assert (∀ dm, dominoes h !! Domino_ move = Some dm → IsAssigned dm = false)
        as Hfree.
      { intros dm Hdm. rewrite <- Hf in Hd. unfold flags in Hd.
        rewrite lookup_fmap, Hdm in Hd. by simplify_eq/=. }
      assert (squareOpen h (GridSquare_ move)) as Hopen'.
      { intros sq Hs. apply Hopen. by rewrite <- Hsq. }
      rewrite (TryAssign_undo_round_trip _ _ _ _ _ Hint Hfree Hopen' Et).
      by apply Hrot.
  - apply TryAssign_fail_pure in Et as [-> ->]. by apply Hrot.
Qed.

Lemma tryCandidates_restoring cands s q0 h0 q h defers :
  (unassigned h0 ≤ bound)%nat →
  Forall (λ c, flags h0 !! candDomino c = Some false) cands →
  squareOpen h0 s →
  restoreInv q0 h0 q h defers →
  restoringLoop q0 h0 (tryCandidates rec cands s q h defers).
Proof.
  intros Hb Hall Hopen. revert q h defers.
  induction Hall as [|c cands Hc _ IH]; intros q h defers Hinv; simpl; [done|].
  assert (restoringLoop q0 h0
            (if negb (isLeftMatch c)
             then match (move <- newSwapMove (candDomino c) s ;; TryPush q move) h with
                  | None => Stop Panicked
                  | Some ((_, q'), h') => Continue q' h' (S defers)
                  end
             else Continue q h defers)) as Hsw.
  { destruct (negb _); [by apply pushSwap_restoring|done]. }
  destruct (if negb (isLeftMatch c) then _ else _) as [r|q1 h1 defers1]; [done|].
  pose proof (tryOrientations_restoring (numIterationsOf c) (candDomino c) s
                _ _ _ _ _ Hb Hc Hopen Hsw) as Ho.
  destruct (tryOrientations _ _ _ _ _ _ _); [done|by apply IH].
Qed.
End search_restores.

Lemma makeNextMoveBody_restoring ds rec bound q square h :
  restoringRec bound rec → (unassigned h ≤ bound)%nat →
  int64_heap h → squareOpen h square →
  restoredResult q h (makeNextMoveBody ds rec q square h).
Proof.
  intros Hrec Hb Hint Hopen. unfold makeNextMoveBody.
  destruct (FindAvailableCandidates ds square h) as [[cands h0]|] eqn:E; [|done].
  apply FindAvailableCandidates_pure in E as [-> Hc].
  case_decide; [by repeat case_decide|].
  assert (restoreInv q h q h 0) as Hinv by done.
  pose proof (tryCandidates_restoring rec bound Hrec cands square q h q h 0
                Hb Hc Hopen Hinv) as Ht.
  destruct (tryCandidates _ _ _ _ _ _) as [r|q' h' defers].
  - by destruct Ht as [->|(? & ? & ->)].
  - destruct Ht as (_ & _ & _ & ->). done.
Qed.

(** Backtracking restores the board: a call of [makeNextMove] on a heap of
    [int]s and an open square that returns false returns with the log and
    the whole heap it was entered with. *)
Lemma makeNextMove_restoring grid ds fuel q square h :
  (unassigned h < fuel)%nat → int64_heap h → squareOpen h square →
  restoredResult q h (makeNextMove grid ds fuel q square h).
Proof.
  revert q square h. induction fuel as [|fuel IH]; intros q square h Hlt Hint Hopen; [lia|].
  simpl. apply (makeNextMoveBody_restoring _ _ fuel); [|lia|done..].
  intros q' h' Hlt' Hint'.
  destruct (pickEmptySquare grid h') as [[sq h'']|] eqn:E; [|done].
  pose proof (pickEmptySquare_squareOpen _ _ _ _ E) as Hopen'.
  apply pickEmptySquare_pure in E as ->. by apply IH.
Qed.

(** X13. A search that [main] starts on a heap of [int]s and that ends with
    false has undone all it did: the log is empty and every domino, square
    and restriction is as it was before the search. *)
Lemma solve_false_restores grid ds fuel h q' h' :
  (unassigned h < fuel)%nat → int64_heap h →
  solve grid ds fuel h = Returned false q' h' → q' = [] ∧ h' = h.
Proof.
  intros Hlt Hint. unfold solve.
  destruct (pickEmptySquare grid h) as [[sq h'']|] eqn:E; [|done].
  pose proof (pickEmptySquare_squareOpen _ _ _ _ E) as Hopen.
  apply pickEmptySquare_pure in E as ->. intros H.
  pose proof (makeNextMove_restoring grid ds fuel [] sq h Hlt Hint Hopen) as Hr.
  by rewrite H in Hr.
Qed.

(** ** The search: independence of the fuel *)

Section fuel_monotone.
Variables rec1 rec2 : MoveQueue → Heap → Result.
Hypothesis rec_mono : ∀ q h, rec1 q h ≠ OutOfFuel → rec2 q h = rec1 q h.

Lemma tryOrientations_mono n d s q h defers :
  tryOrientations rec1 n d s q h defers ≠ Stop OutOfFuel →
  tryOrientations rec2 n d s q h defers = tryOrientations rec1 n d s q h defers.
Proof.
  revert q h defers. induction n as [|n IH]; intros q h defers; simpl; [done|].
  destruct ((move <- newAssignMove d s ;; TryPush q move) h)
    as [[[[] q1] h1]|]; [| |done].
  - destruct (rec1 q1 h1) as [| |[] q2 h2] eqn:E1; [done| | |].
    + intros _. by rewrite rec_mono, E1 by (by rewrite E1).
    + intros _. by rewrite rec_mono, E1 by (by rewrite E1).
    + rewrite rec_mono, E1 by (by rewrite E1).
      destruct (Pop q2 h2) as [[[? q3] h3]|]; [|done].
      destruct (pushRotate d s q3 h3 defers); [done|apply IH].
  - destruct (pushRotate d s q1 h1 defers); [done|apply IH].
Qed.

Lemma tryCandidates_mono cands s q h defers :
  tryCandidates rec1 cands s q h defers ≠ Stop OutOfFuel →
  tryCandidates rec2 cands s q h defers = tryCandidates rec1 cands s q h defers.
Proof.
  revert q h defers. induction cands as [|c cands IH]; intros q h defers; simpl; [done|].
  destruct (if negb (isLeftMatch c) then _ else _) as [r|q1 h1 defers1]; [done|].
  destruct (tryOrientations rec1 _ _ _ _ _ _) as [r|q2 h2 defers2] eqn:E.
  - intros Hr. rewrite tryOrientations_mono, E; [done|]. rewrite E. congruence.
  - rewrite tryOrientations_mono, E by (by rewrite E). apply IH.
Qed.

Lemma runDefers_not_OutOfFuel defers q h : runDefers defers q h ≠ OutOfFuel.
Proof.
  revert q h. induction defers as [|defers IH]; intros q h; simpl; [done|].
  destruct (Pop q h) as [[[? q'] h']|]; [apply IH|done].
Qed.

Lemma makeNextMoveBody_mono ds q square h :
  makeNextMoveBody ds rec1 q square h ≠ OutOfFuel →
  makeNextMoveBody ds rec2 q square h = makeNextMoveBody ds rec1 q square h.
Proof.
  unfold makeNextMoveBody.
  destruct (FindAvailableCandidates ds square h) as [[cands h0]|]; [|done].
  case_decide; [done|].
  destruct (tryCandidates rec1 _ _ _ _ _) as [r|q' h' defers] eqn:E.
  - intros Hr. rewrite tryCandidates_mono, E; [done|]. rewrite E. congruence.
  - by rewrite tryCandidates_mono, E by (by rewrite E).
Qed.
End fuel_monotone.

Lemma makeNextMove_mono grid ds fuel fuel' q square h :
  (fuel ≤ fuel')%nat →
  makeNextMove grid ds fuel q square h ≠ OutOfFuel →
  makeNextMove grid ds fuel' q square h = makeNextMove grid ds fuel q square h.
Proof.
  revert fuel' q square h. induction fuel as [|fuel IH]; intros fuel' q square h Hle; [done|].
  destruct fuel' as [|fuel']; [lia|]. simpl.
  apply makeNextMoveBody_mono. intros q' h'.
  destruct (pickEmptySquare grid h') as [[sq h'']|]; [|done].
  apply IH. lia.
Qed.


(** ** Runs on small boards *)

(** The domino 2-4 fits in no orientation: the search returns false with
    the log empty and the board as it was. *)
Example solve_sumColumn_no_solution :
  solve columnGrid [0%nat] 2 (sumColumn 2 4) = Returned false [] (sumColumn 2 4).
Proof. vm_compute. reflexivity. Qed.

(** The domino 3-4 fits downwards; the search places it and then panics
    where it should report success. *)
Example solve_sumColumn_solution_panics :
  solve columnGrid [0%nat] 2 (sumColumn 3 4) = Panicked.
Proof. vm_compute. reflexivity. Qed.

(** ** The theorems at concrete boards *)

(** The round trip on the sum strip: the assign takes the region from (7, 2)
    to (0, 0), the pop brings it back. *)
Lemma push_pop_round_trip_witness :
  int64_heap sumStrip
  ∧ assign_target_free sumStrip sumStripMove
  ∧ TryPush [] sumStripMove sumStrip =
      Some ((true, [set_UndoFunc (Some (UndoAssign 0%nat 0%nat 1%nat false false))
                      sumStripMove]), sumStripAssigned)
  ∧ ∃ u, [set_UndoFunc (Some (UndoAssign 0%nat 0%nat 1%nat false false)) sumStripMove]
         = [] ++ [set_UndoFunc (Some u) sumStripMove]
         ∧ Pop [set_UndoFunc (Some (UndoAssign 0%nat 0%nat 1%nat false false)) sumStripMove]
             sumStripAssigned
           = Some ((Some (set_UndoFunc (Some u) sumStripMove), []), sumStrip).
Proof.
  assert (int64_heap sumStrip) as Hint.
  { split; apply (bool_decide_unpack _); vm_compute; exact I. }
  assert (assign_target_free sumStrip sumStripMove) as Hfree.
  { intros _. split; intros x Hx; vm_compute in Hx; by simplify_eq. }
  assert (TryPush [] sumStripMove sumStrip =
            Some ((true, [set_UndoFunc (Some (UndoAssign 0%nat 0%nat 1%nat false false))
                            sumStripMove]), sumStripAssigned)) as Hpush.
  { vm_compute. reflexivity. }
  split; [exact Hint|]. split; [exact Hfree|]. split; [exact Hpush|].
  exact (push_pop_round_trip [] sumStripMove sumStrip _ _ Hint Hfree Hpush).
Defined.

(** A push that fails: nothing is to the right of the right square. *)
Lemma TryPush_assign_atomic_witness :
  MoveType_ offGridMove = MoveTypeAssign
  ∧ match TryAssign (Domino_ offGridMove) (GridSquare_ offGridMove) smallBoard with
    | None => TryPush [] offGridMove smallBoard = None
    | Some ((false, u), h') =>
        h' = smallBoard ∧ u = None
        ∧ TryPush [] offGridMove smallBoard = Some ((false, []), smallBoard)
    | Some ((true, u), h') =>
        is_Some u
        ∧ TryPush [] offGridMove smallBoard
          = Some ((true, [] ++ [set_UndoFunc u offGridMove]), h')
    end.
Proof.
  split; [reflexivity|].
  exact (TryPush_assign_atomic [] offGridMove smallBoard eq_refl).
Defined.



Example newAssignMove_sumStrip :
  newAssignMove 0%nat 0%nat sumStrip = Some (sumStripMove, sumStrip).
Proof. vm_compute. reflexivity. Qed.

Example pickEmptySquare_mixedBoard :
  pickEmptySquare mixedGrid mixedBoard = Some (2%nat, mixedBoard).
Proof. vm_compute. reflexivity. Qed.

(** * Further properties of the code *)

(** ** Undoing a whole run of moves *)

Lemma TryPush_int64 q m h q1 h1 :
  TryPush q m h = Some ((true, q1), h1) → int64_heap h → int64_heap h1.
Proof.
  intros H Hint.
  destruct (decide (MoveType_ m = MoveTypeRotate)) as [Hr|Hnr];
    [|destruct (decide (MoveType_ m = MoveTypeSwap)) as [Hs|Hns];
      [|destruct (decide (MoveType_ m = MoveTypeAssign)) as [Ha|Hna]]].
  - rewrite TryPush_rotate in H by done.
    destruct (Rotate90DegreesClockwise _ h) as [[[] h']|] eqn:E; [|done].
    simplify_eq. by eapply Rotate90DegreesClockwise_int64.
  - rewrite TryPush_swap in H by done.
    destruct (Swap _ h) as [[[] h']|] eqn:E; [|done].
    simplify_eq. by eapply Swap_int64.
  - rewrite TryPush_assign in H by done.
    destruct (TryAssign _ _ h) as [[[[] u] h']|] eqn:E; [|done..].
    simplify_eq. by eapply TryAssign_int64.
  - unfold TryPush in H. repeat (case_decide; [done|]). by unfold ret in H.
Qed.

(** One accepted push and the pop that follows it, as a deferred pop. *)
Lemma TryPush_then_deferred_pop q m h q1 h1 :
  int64_heap h → assign_target_free h m →
  TryPush q m h = Some ((true, q1), h1) →
  runDefers 1 q1 h1 = Returned false q h.
Proof.
  intros Hint Hfree H. simpl.
  destruct (decide (MoveType_ m = MoveTypeRotate)) as [Hr|Hnr];
    [|destruct (decide (MoveType_ m = MoveTypeSwap)) as [Hs|Hns];
      [|destruct (decide (MoveType_ m = MoveTypeAssign)) as [Ha|Hna]]].
  - rewrite TryPush_rotate in H by done.
    destruct (Rotate90DegreesClockwise _ h) as [[[] h']|] eqn:E; [|done].
    simplify_eq. rewrite Pop_snoc. cbn [UndoFunc set_UndoFunc runUndo].
    by rewrite (rotate_undo_round_trip _ _ _ _ Hint E).
  - rewrite TryPush_swap in H by done.
    destruct (Swap _ h) as [[[] h']|] eqn:E; [|done].
    simplify_eq. rewrite Pop_snoc. cbn [UndoFunc set_UndoFunc runUndo].
    by rewrite (swap_undo_round_trip _ _ _ _ E).
  - rewrite TryPush_assign in H by done.
    destruct (TryAssign _ _ h) as [[[[] u] h']|] eqn:E; [|done..].
    simplify_eq.
    destruct (TryAssign_success_undo _ _ _ _ _ E) as [u' ->].
    rewrite Pop_snoc. cbn [UndoFunc set_UndoFunc].
    destruct (Hfree Ha) as [Hd Hs].
    by rewrite (TryAssign_undo_round_trip _ _ _ _ _ Hint Hd Hs E).
  - unfold TryPush in H. repeat (case_decide; [done|]). by unfold ret in H.
Qed.

Lemma runDefers_add n k q h q1 h1 :
  runDefers n q h = Returned false q1 h1 →
  runDefers (n + k) q h = runDefers k q1 h1.
Proof.
  revert q h. induction n as [|n IH]; intros q h; simpl.
  - by intros [= -> ->].
  - destruct (Pop q h) as [[[? q2] h2]|]; [apply IH|done].
Qed.

(** X7. Undo to the start: after any run of accepted pushes, as many pops as
    there were pushes give back the log and the whole heap the run started
    from. *)
Theorem pops_undo_pushed_run (q : MoveQueue) (h : Heap) (ms : list Move)
    (q' : MoveQueue) (h' : Heap) :
  int64_heap h →
  pushedRun q h ms q' h' →
  runDefers (length ms) q' h' = Returned false q h.
Proof.
  intros Hint Hrun.
  induction Hrun as [q h|q h m ms q1 h1 q' h' Hfree Hpush Hrun IH]; [done|].
  replace (length (m :: ms)) with (length ms + 1)%nat by (simpl; lia).
  rewrite (runDefers_add _ _ _ _ q1 h1).
  - by apply (TryPush_then_deferred_pop q m h).
  - apply IH. by eapply TryPush_int64.
Qed.

(** ** Pruning and printing *)

Lemma markPruned_length count j (q : MoveQueue) :
  length (markPruned count j q) = length q.
Proof.
  pose proof (flagged_log_markPruned count j q) as H.
  by apply Forall2_length in H.
Qed.

Lemma flagged_MoveType m m' : flagged m m' → MoveType_ m' = MoveType_ m.
Proof. by intros [->| ->]. Qed.

Lemma flagged_log_last_type (q q' : MoveQueue) :
  Forall2 flagged q q' →
  (∀ m, last q = Some m → MoveType_ m ≠ MoveTypeRotate) →
  ∀ m, last q' = Some m → MoveType_ m ≠ MoveTypeRotate.
Proof.
  intros HF Hq m' Hm'.
  rewrite last_lookup in Hm'.
  pose proof (Forall2_length _ _ _ HF) as Hlen. rewrite <- Hlen in Hm'.
  destruct (Forall2_lookup_r _ _ _ _ _ HF Hm') as (m & Hm & Hfl).
  rewrite (flagged_MoveType _ _ Hfl). apply Hq. by rewrite last_lookup.
Qed.

Lemma pruneLoop_returns steps i fi fm (q : MoveQueue) :
  (i + steps = length q)%nat →
  (∀ m, last q = Some m → MoveType_ m ≠ MoveTypeRotate) →
  is_Some (pruneLoop steps i fi fm q).
Proof.
  revert i fi fm q. induction steps as [|steps IH]; intros i fi fm q Hlen Hlast; simpl.
  - eauto.
  - destruct (q !! i) as [qi|] eqn:Hi;
      [|apply lookup_ge_None in Hi; lia].
    assert (∀ fi' fm', is_Some (pruneLoop steps (i + 1) fi' fm' q)) as Hnext.
    { intros. apply IH; [lia|done]. }
    case_decide as Hrot; [|apply Hnext].
    case_decide; [apply Hnext|].
    case_decide; [|apply Hnext].
    assert (i + 1 < length q)%nat as Hlt.
    { destruct (decide (i + 1 < length q)%nat) as [|Hge]; [done|].
      exfalso. apply (Hlast qi); [|done].
      rewrite last_lookup. replace (pred (length q)) with i by lia. done. }
    destruct (lookup_lt_is_Some_2 q (i + 1)%nat Hlt) as [next Hn]. rewrite Hn.
    destruct (negb _); [|apply Hnext].
    pose proof (flagged_log_markPruned (i + 1 - fi) fi q) as HF.
    rewrite <- (markPruned_length (i + 1 - fi) fi q) in Hlt.
    destruct (lookup_lt_is_Some_2 _ _ Hlt) as [first' Hf]. rewrite Hf.
    apply IH.
    + rewrite markPruned_length. lia.
    + by eapply flagged_log_last_type.
Qed.

(** X8. [PruneUselessMoves] returns, without an index out of range, on every
    log that is not empty and whose last entry is not a rotate move (a log
    that ends with the placement of a domino, for one). *)
Theorem PruneUselessMoves_returns (q : MoveQueue) :
  q ≠ [] →
  (∀ m, last q = Some m → MoveType_ m ≠ MoveTypeRotate) →
  is_Some (PruneUselessMoves q).
Proof.
  intros Hne Hlast. unfold PruneUselessMoves.
  destruct q as [|m0 q]; [done|]. simpl lookup. cbn [length].
  apply pruneLoop_returns; [simpl; lia|done].
Qed.

Lemma String_foldl (q : MoveQueue) (acc : string) :
  foldl (λ s m, if Pruned m then s else s ++ "  - " ++ Label m ++ newline)%string acc q
  = foldl (λ s m, if Pruned m then s else s ++ "  - " ++ Label m ++ newline)%string acc
      (filter shown q).
Proof.
  revert acc. induction q as [|m q IH]; intros acc; [done|].
  simpl. destruct (Pruned m) eqn:Ep.
  - rewrite filter_cons_False by (unfold shown; congruence). apply IH.
  - rewrite filter_cons_True by done. simpl. rewrite Ep. apply IH.
Qed.

(** X10. The printed trace depends on the entries that are not pruned only: it
    is the trace of the log with the pruned entries taken out. *)
Theorem String_skips_pruned (q : MoveQueue) :
  String_ q = String_ (filter shown q).
Proof. unfold String_. apply String_foldl. Qed.

(** ** Candidates of a square *)

Lemma restrictionOf_getR_regionOf square h r rs :
  squares h !! square = Some r → Restriction_ r = Some rs →
  regionOf h square = restrictions h !! rs.
Proof. intros Hs Hr. unfold regionOf. by rewrite Hs, Hr. Qed.

(** X11. [FindAvailableCandidates] leaves the heap alone and returns, in the
    order of the domino set, exactly the dominoes that are unassigned and
    have a side passing the square's check, each with its two match
    flags. *)
Theorem FindAvailableCandidates_filter (ds : DominoSet) (square : ptr) (h : Heap)
    (cs : list DominoCandidate) (h' : Heap) :
  FindAvailableCandidates ds square h = Some (cs, h') →
  h' = h
  ∧ candDomino <$> cs = filter (λ d, isCandidate h square d) ds
  ∧ Forall (flagsMatch h square) cs.
Proof.
  revert cs. induction ds as [|d ds IH]; simpl; intros cs H.
  - unfold ret in H. by simplify_eq.
  - monad_inv.
    match goal with H : dominoes h !! d = Some ?a |- _ => rename H into Hd; rename a into dm end.
    destruct (IsAssigned dm) eqn:Ea.
    + destruct (IH _ H) as (-> & Hf & Hm). split; [done|]. split; [|done].
      rewrite filter_cons_False; [done|].
      unfold isCandidate. rewrite Hd, Ea. destruct (regionOf h square); simpl; by intros [].
    + monad_inv.
      match goal with
      | Hs : squares h !! square = Some ?sq, Hr : Restriction_ ?sq = Some ?r,
        Hx : restrictions h !! ?r = Some ?x |- _ =>
          assert (regionOf h square = Some x) as Hreg
            by (by rewrite (restrictionOf_getR_regionOf _ _ _ _ Hs Hr))
      end.
      match type of H with
      | (if ?b then _ else _) _ = _ => destruct b eqn:Eb
      end.
      * destruct (IH _ H) as (-> & Hf & Hm). split; [done|]. split; [|done].
        rewrite filter_cons_False; [done|].
        unfold isCandidate. rewrite Hd, Hreg, Ea. simpl.
        apply andb_prop in Eb as [Hl Hr'].
        apply negb_true_iff in Hl, Hr'. rewrite Hl, Hr'. by intros [].
      * monad_inv.
        match goal with H : FindAvailableCandidates _ _ _ = Some _ |- _ =>
          destruct (IH _ H) as (-> & Hf & Hm) end.
        split; [done|]. split.
        -- rewrite filter_cons_True.
           ++ by rewrite fmap_cons, Hf.
           ++ unfold isCandidate. rewrite Hd, Hreg, Ea. simpl.
              apply andb_false_iff in Eb as [Hl|Hl];
                apply negb_false_iff in Hl; rewrite Hl; [done|].
              by rewrite orb_true_r.
        -- constructor; [|done]. by eexists _, _.
Qed.

(** X12. [HasUnassigned] leaves the heap alone and answers whether some domino
    of the set is not assigned. *)
Theorem HasUnassigned_iff (ds : DominoSet) (h : Heap) (b : bool) (h' : Heap) :
  HasUnassigned ds h = Some (b, h') →
  h' = h ∧ (b = true ↔ ∃ d, d ∈ ds ∧ flags h !! d = Some false).
Proof.
  revert b. induction ds as [|d ds IH]; simpl; intros b H.
  - unfold ret in H. simplify_eq. split; [done|]. split; [done|].
    intros (d & Hd & _). by apply elem_of_nil in Hd.
  - monad_inv.
    match goal with H : dominoes h !! d = Some ?a |- _ => rename H into Hd; rename a into dm end.
    assert (flags h !! d = Some (IsAssigned dm)) as Hf.
    { unfold flags. by rewrite lookup_fmap, Hd. }
    destruct (IsAssigned dm) eqn:Ea; simpl in H.
    + destruct (IH _ H) as [-> Hiff]. split; [done|]. rewrite Hiff.
      split; intros (d' & Hin & Hd').
      * exists d'. split; [by apply list_elem_of_further|done].
      * apply elem_of_cons in Hin as [->|Hin]; [congruence|eauto].
    + unfold ret in H. simplify_eq. split; [done|]. split; [|done].
      intros _. exists d. split; [apply list_elem_of_here|done].
Qed.

(** ** The square that is picked *)

Lemma blankSquaresOfRow_elem row h l h' p :
  blankSquaresOfRow row h = Some (l, h') → p ∈ l →
  Some p ∈ row ∧ isOpen h p = true.
Proof.
  revert h l h'. induction row as [|[p0|] row IH]; simpl; intros h l h' H Hin.
  - unfold ret in H. simplify_eq. by apply elem_of_nil in Hin.
  - monad_inv.
    match goal with H : blankSquaresOfRow _ _ = Some _ |- _ =>
      pose proof (blankSquaresOfRow_pure _ _ _ _ H) as ->; rename H into Hrow end.
    match goal with H : squares h !! p0 = Some _ |- _ => rename H into Hsq end.
    case_match eqn:Eb; monad_inv.
    + apply elem_of_cons in Hin as [->|Hin].
      * split; [apply list_elem_of_here|]. unfold isOpen. by rewrite Hsq.
      * destruct (IH _ _ _ Hrow Hin). split; [by apply list_elem_of_further|done].
    + destruct (IH _ _ _ Hrow Hin). split; [by apply list_elem_of_further|done].
  - destruct (IH _ _ _ H Hin). split; [by apply list_elem_of_further|done].
Qed.

Lemma blankSquaresOf_elem grid h l h' p :
  blankSquaresOf grid h = Some (l, h') → p ∈ l →
  p ∈ scanOrder grid ∧ isOpen h p = true.
Proof.
  unfold scanOrder.
  revert h l h'. induction grid as [|row grid IH]; simpl; intros h l h' H Hin.
  - unfold ret in H. simplify_eq. by apply elem_of_nil in Hin.
  - monad_inv.
    match goal with H : blankSquaresOfRow _ _ = Some _ |- _ =>
      pose proof (blankSquaresOfRow_pure _ _ _ _ H) as ->; rename H into Hrow end.
    match goal with H : blankSquaresOf _ _ = Some _ |- _ => rename H into Hgrid end.
    rewrite omap_app, elem_of_app.
    apply elem_of_app in Hin as [Hin|Hin].
    + destruct (blankSquaresOfRow_elem _ _ _ _ _ Hrow Hin) as [Hp Ho].
      split; [|done]. left. apply list_elem_of_omap. by exists (Some p).
    + destruct (IH _ _ _ Hgrid Hin) as [Hp Ho]. split; [|done]. by right.
Qed.

(** [pickEmptySquare] reads the heap without changing it, and the square it
    returns is a square of the grid with no domino on it. *)
Theorem pickEmptySquare_sound (grid : list (list (option ptr))) (h : Heap)
    (square : ptr) (h' : Heap) :
  pickEmptySquare grid h = Some (square, h') →
  h' = h ∧ square ∈ scanOrder grid ∧ isOpen h square = true.
Proof.
  intros H. pose proof (pickEmptySquare_pure _ _ _ _ H) as ->. split; [done|].
  unfold pickEmptySquare in H. monad_inv.
  match goal with H : blankSquaresOf _ _ = Some _ |- _ =>
    pose proof (blankSquaresOf_pure _ _ _ _ H) as ->; rename H into Hblank end.
  eapply blankSquaresOf_elem; [exact Hblank|].
  repeat match goal with
  | H : firstSquare _ _ _ = Some (?o, _) |- _ =>
      pose proof (firstSquare_pure _ _ _ _ _ H) as ->;
      destruct o; [apply firstSquare_elem in H; by monad_inv|clear H]; monad_inv
  end.
  case_match eqn:E0; monad_inv. by eapply list_elem_of_lookup_2.
Qed.

(** ** What a successful [TryAssign] has done *)

Lemma TryAssign_success_inv d s h u h1 :
  TryAssign d s h = Some ((true, u), h1) →
  ∃ dm sq n nb rs rn,
    dominoes h !! d = Some dm ∧ squares h !! s = Some sq
    ∧ neighborInDirection (GetRotation dm) sq = Some n
    ∧ squares h !! n = Some nb ∧ DominoAssigned nb = None
    ∧ checkRestrictions d s n h = Some (true, h)
    ∧ Restriction_ sq = Some rs ∧ Restriction_ nb = Some rn
    ∧ is_Some (restrictions h !! rs) ∧ is_Some (restrictions h !! rn)
    ∧ h1 = mkHeap (alter (set_IsAssigned true) d (dominoes h))
                  (alter (set_DominoAssigned (Some d)) n
                     (alter (set_DominoAssigned (Some d)) s (squares h)))
                  (assignRestrictions (Square1Value dm) (Square2Value dm) rs rn
                     (restrictions h)).
Proof.
  intros H. unfold TryAssign in H. monad_inv.
  destruct (neighborInDirection _ _) as [n|] eqn:En; monad_inv.
  case_bool_decide as Hocc; monad_inv.
  match goal with H : checkRestrictions _ _ _ _ = Some _ |- _ =>
    pose proof (checkRestrictions_pure _ _ _ _ _ _ H) as ->; rename H into HC end.
  case_match; monad_inv.
  match goal with H : Assign _ _ _ _ = Some _ |- _ => rename H into HA end.
  assert (is_Some (dominoes h !! d)) as Hd by eauto.
  assert (is_Some (squares h !! s)) as Hs by eauto.
  assert (is_Some (squares h !! n)) as Hn by eauto.
  destruct (Assign_Some_valid _ _ _ _ _ _ Hd Hs Hn HA)
    as (rs & rn & Hrs & Hrn & Hxs & Hxn).
  rewrite (Assign_run d s n h rs rn) in HA by done. simplify_eq.
  destruct Hrs as (sq' & Hsq' & Hrs). destruct Hrn as (nb' & Hnb' & Hrn).
  simplify_eq.
  match goal with Hd' : dominoes h !! d = Some ?dm |- _ =>
    rewrite (lookup_total_correct _ _ _ Hd') end.
  eexists _, _, n, _, rs, rn. repeat split; done.
Qed.

(** X3. A successful [TryAssign] found the neighbour square free, and has
    raised the assigned flag of the domino and set [DominoAssigned] of the
    square and of that neighbour; no other domino and no other square has
    changed. *)
Theorem TryAssign_marks_both_squares (d s : ptr) (h : Heap)
    (u : option UndoClosure) (h1 : Heap) :
  TryAssign d s h = Some ((true, u), h1) →
  ∃ dm sq n nb,
    dominoes h !! d = Some dm ∧ squares h !! s = Some sq
    ∧ neighborInDirection (GetRotation dm) sq = Some n
    ∧ squares h !! n = Some nb ∧ DominoAssigned nb = None
    ∧ dominoes h1 = <[d := set_IsAssigned true dm]> (dominoes h)
    ∧ squares h1 !! s = Some (set_DominoAssigned (Some d) sq)
    ∧ squares h1 !! n = Some (set_DominoAssigned (Some d) nb)
    ∧ ∀ p, p ≠ s → p ≠ n → squares h1 !! p = squares h !! p.
Proof.
  intros H.
  destruct (TryAssign_success_inv _ _ _ _ _ H)
    as (dm & sq & n & nb & rs & rn & Hd & Hs & Hn & Hnb & Hfree & _ & _ & _ & _ & _ & ->).
  exists dm, sq, n, nb. cbn [dominoes squares].
  repeat (split; [done|]).
  split; [by rewrite (insert_as_alter _ _ _ _ Hd)|].
  split; [|split].
  - destruct (decide (s = n)) as [->|Hne].
    + assert (sq = nb) as -> by congruence.
      rewrite alter_alter_eq, lookup_alter_eq, Hnb. simpl. by destruct nb.
    + by rewrite lookup_alter_ne, lookup_alter_eq, Hs by done.
  - destruct (decide (s = n)) as [->|Hne].
    + rewrite alter_alter_eq, lookup_alter_eq, Hnb. simpl. by destruct nb.
    + by rewrite lookup_alter_eq, lookup_alter_ne, Hnb by done.
  - intros p Hps Hpn. by rewrite !lookup_alter_ne by done.
Qed.

Lemma sub64_sub64_add64 v1 v2 : sub64 (sub64 (add64 v1 v2) v1) v2 = 0.
Proof.
  unfold add64, sub64. rewrite <- !Z.add_opp_r, wrap64_add_l.
  rewrite <- (Z.add_assoc (wrap64 _)), wrap64_add_l.
  by replace (v1 + v2 + (- v1 + - v2)) with 0 by lia.
Qed.

(** X4. A domino laid over the last two squares of a sum region is accepted
    only when its two values add up to what remains of the target, and then
    leaves the region with nothing remaining and no square left. *)
Theorem TryAssign_closes_sum_region (d s : ptr) (h : Heap)
    (u : option UndoClosure) (h1 : Heap)
    (dm : Domino) (sq : GridSquare) (n : ptr) (nb : GridSquare)
    (r : ptr) (x : Restriction) :
  TryAssign d s h = Some ((true, u), h1) →
  dominoes h !! d = Some dm → squares h !! s = Some sq →
  neighborInDirection (GetRotation dm) sq = Some n → squares h !! n = Some nb →
  Restriction_ sq = Some r → Restriction_ nb = Some r →
  restrictions h !! r = Some x →
  Type_ x = RestrictionTypeSumsTo → NumSquaresLeft x = 2 →
  add64 (Square1Value dm) (Square2Value dm) = Arg x
  ∧ restrictions h1 !! r = Some (mkRestriction RestrictionTypeSumsTo 0 0).
Proof.
  intros H Hd Hs Hn Hnb Hrs Hrn Hx Ht Hleft.
  destruct (TryAssign_success_inv _ _ _ _ _ H)
    as (dm' & sq' & n' & nb' & rs & rn & Hd' & Hs' & Hn' & Hnb' & _ & HC & Hrs' & Hrn'
        & _ & _ & ->).
  simplify_eq.
  assert (add64 (Square1Value dm) (Square2Value dm) = Arg x) as Hsum.
  { unfold checkRestrictions in HC. monad_inv. simplify_eq.
    rewrite decide_True in HC by congruence. monad_inv. simplify_eq.
    rewrite Ht in HC.
    rewrite (bool_decide_eq_false_2 (RestrictionTypeSumsTo = RestrictionTypeEqual)) in HC
      by done.
    rewrite (bool_decide_eq_true_2 (RestrictionTypeSumsTo = RestrictionTypeSumsTo)) in HC
      by done.
    cbn [andb] in HC.
    destruct (Check _ _ 2) eqn:Ec; [|by monad_inv].
    unfold Check in Ec. rewrite Ht, Hleft in Ec.
    unfold RestrictionTypeNone, RestrictionTypeGreaterThan, RestrictionTypeLessThan,
      RestrictionTypeEqual, RestrictionTypeSumsTo in Ec.
    repeat case_decide; try done. }
  split; [done|]. cbn [restrictions]. unfold assignRestrictions.
  rewrite !alter_alter_eq, lookup_alter_eq, Hx. simpl. f_equal.
  assert (RestrictionTypeSumsTo ≠ RestrictionTypeEqual) as Hne by done.
  destruct x as [t a k]; simpl in *. subst t k.
  restriction_updates.
  by rewrite <- Hsum, sub64_sub64_add64.
Qed.

(** ** Facing *)

(** X2. A clockwise rotation moves the facing one quarter turn on, from 3 back
    to 0, as long as the counter is not negative and does not overflow; the
    sides and the assigned flag stay. *)
Theorem Rotate90DegreesClockwise_advances (d : ptr) (h : Heap) (u : unit) (h' : Heap)
    (dm : Domino) :
  Rotate90DegreesClockwise d h = Some (u, h') →
  dominoes h !! d = Some dm →
  0 ≤ rotation dm < 2 ^ 63 - 1 →
  ∃ dm', dominoes h' !! d = Some dm'
    ∧ GetRotation dm' = (GetRotation dm + 1) `mod` 4
    ∧ Square1Value dm' = Square1Value dm ∧ Square2Value dm' = Square2Value dm
    ∧ IsAssigned dm' = IsAssigned dm.
Proof.
  intros H Hd Hr. apply modD_Some in H as [_ ->].
  exists (set_rotation (add64 (rotation dm) 1) dm).
  cbn [alterD dominoes]. rewrite lookup_alter_eq, Hd. split; [done|].
  split; [|done]. unfold GetRotation; cbn [rotation set_rotation].
  unfold add64. rewrite wrap64_id by (unfold is_int64; lia).
  rewrite !Z.rem_mod_nonneg by lia.
  by rewrite Zplus_mod_idemp_l.
Qed.

(** ** When the search reports success *)

Lemma runDefers_notSuccess defers q h : notSuccess (runDefers defers q h).
Proof.
  revert q h. induction defers as [|defers IH]; intros q h; simpl; [done|].
  destruct (Pop q h) as [[[? q'] h']|]; [apply IH|done].
Qed.

Section never_success.
Variable rec : MoveQueue → Heap → Result.
Hypothesis rec_notSuccess : ∀ q h, notSuccess (rec q h).

Lemma tryOrientations_notSuccess n d s q h defers :
  loopNotSuccess (tryOrientations rec n d s q h defers).
Proof.
  revert q h defers. induction n as [|n IH]; intros q h defers; simpl; [done|].
  destruct ((move <- newAssignMove d s ;; TryPush q move) h)
    as [[[[] q1] h1]|]; [| |done].
  - pose proof (rec_notSuccess q1 h1) as Hr.
    destruct (rec q1 h1) as [| |[] q2 h2]; try done.
    destruct (Pop q2 h2) as [[[? q3] h3]|]; [|done].
    destruct (pushRotate d s q3 h3 defers) as [r|] eqn:E; [|apply IH].
    unfold pushRotate in E. by repeat case_match; simplify_eq.
  - destruct (pushRotate d s q1 h1 defers) as [r|] eqn:E; [|apply IH].
    unfold pushRotate in E. by repeat case_match; simplify_eq.
Qed.

Lemma tryCandidates_notSuccess cands s q h defers :
  loopNotSuccess (tryCandidates rec cands s q h defers).
Proof.
  revert q h defers. induction cands as [|c cands IH]; intros q h defers; simpl; [done|].
  destruct (if negb (isLeftMatch c) then _ else _) as [r|q1 h1 defers1] eqn:E.
  - by repeat case_match; simplify_eq.
  - pose proof (tryOrientations_notSuccess (numIterationsOf c) (candDomino c) s
                  q1 h1 defers1) as Ho.
    destruct (tryOrientations _ _ _ _ _ _ _); [done|apply IH].
Qed.
End never_success.

Lemma makeNextMove_notSuccess grid ds fuel q square h :
  ds ≠ [] → notSuccess (makeNextMove grid ds fuel q square h).
Proof.
  intros Hne. revert q square h.
  induction fuel as [|fuel IH]; intros q square h; [done|].
  simpl. unfold makeNextMoveBody.
  destruct (FindAvailableCandidates ds square h) as [[cands h0]|]; [|done].
  case_decide; [by destruct ds|].
  match goal with |- context [tryCandidates ?rec _ _ _ _ _] =>
    assert (∀ q' h', notSuccess (rec q' h')) as Hrec end.
  { intros q' h'. destruct (pickEmptySquare grid h') as [[sq h'']|]; [apply IH|done]. }
  pose proof (tryCandidates_notSuccess _ Hrec cands square q h0 0) as Ht.
  destruct (tryCandidates _ _ _ _ _ _); [done|apply runDefers_notSuccess].
Qed.

(** X14. The search returns true only for an empty domino set, and then at once,
    with the log and the heap as they were: whenever there is a domino to
    place, a call ends with false or with a panic. *)
Theorem makeNextMove_true_only_without_dominoes (grid : list (list (option ptr)))
    (ds : DominoSet) (fuel : nat) (q : MoveQueue) (square : ptr) (h : Heap)
    (q' : MoveQueue) (h' : Heap) :
  makeNextMove grid ds fuel q square h = Returned true q' h' →
  ds = [] ∧ q' = q ∧ h' = h.
Proof.
  intros H. destruct ds as [|d ds].
  - destruct fuel; [done|]. simpl in H. unfold makeNextMoveBody in H.
    simpl in H. unfold ret in H. by simplify_eq.
  - pose proof (makeNextMove_notSuccess grid (d :: ds) fuel q square h) as Hn.
    rewrite H in Hn. by destruct Hn.
Qed.

(** ** Reading the dominoes *)

Lemma list_pair_ind {A} (P : list A → Prop) :
  P [] → (∀ a, P [a]) → (∀ a b l, P l → P (a :: b :: l)) → ∀ l, P l.
Proof.
  intros H0 H1 H2 l. cut (P l ∧ ∀ a, P (a :: l)); [tauto|].
  induction l as [|b l [IH1 IH2]]; split; auto.
Qed.

Lemma Split_nonempty s : Split s ≠ [].
Proof. destruct s as [|c s]; simpl; [done|]. by repeat case_match. Qed.

Lemma atoi_Some Atoi s h v h' :
  atoi Atoi s h = Some (v, h') ↔ Atoi s = Some v ∧ h' = h.
Proof.
  unfold atoi. destruct (Atoi s); unfold ret, panic; split.
  - by intros [= -> ->].
  - by intros [[= ->] ->].
  - done.
  - by intros [? _].
Qed.

Ltac atoi_inv :=
  repeat match goal with H : atoi _ _ _ = Some _ |- _ =>
    let Ha := fresh "Ha" in
    apply atoi_Some in H; destruct H as [Ha ->] end.

Lemma readDominoes_result Atoi parts acc h ds h' :
  readDominoes Atoi parts acc h = Some (ds, h') →
  ∃ vs new, ds = acc ++ new
    ∧ reads Atoi parts (pairsFlat vs)
    ∧ NoDup new
    ∧ Forall (λ d, dominoes h !! d = None) new
    ∧ (λ d, dominoes h' !! d) <$> new = (λ v, Some (mkDomino v.1 v.2 false 0)) <$> vs
    ∧ (∀ p, p ∉ new → dominoes h' !! p = dominoes h !! p)
    ∧ squares h' = squares h ∧ restrictions h' = restrictions h.
Proof.
  revert acc h. induction parts as [|p0|p0 p1 parts IH] using list_pair_ind;
    intros acc h H; simpl in H.
  - unfold ret in H. simplify_eq. exists [], []. rewrite app_nil_r.
    repeat split; try done; constructor.
  - monad_inv.
  - monad_inv.
    atoi_inv.
    match goal with H : newD _ _ = Some _ |- _ =>
      unfold newD in H; injection H as <- <- end.
    set (d := fresh (dom (dominoes h))) in *.
    assert (dominoes h !! d = None) as Hfresh.
    { apply not_elem_of_dom. apply is_fresh. }
    apply IH in H as (vs & new & -> & Hr & Hnd & Hnew & Hl & Hframe & Hs & Hx).
    cbn [dominoes squares restrictions] in *.
    assert (d ∉ new) as Hd.
    { intros Hin. rewrite Forall_forall in Hnew. specialize (Hnew _ Hin).
      by rewrite lookup_insert_eq in Hnew. }
    exists ((a, a0) :: vs), (d :: new). rewrite <- app_assoc. split; [done|].
    split; [by repeat constructor|].
    split; [by constructor|].
    split.
    { constructor; [done|]. eapply Forall_impl; [exact Hnew|]. simpl.
      intros p Hp. destruct (decide (p = d)) as [->|]; [done|].
      by rewrite lookup_insert_ne in Hp. }
    split.
    { rewrite !fmap_cons, Hl. f_equal. by rewrite Hframe, lookup_insert_eq. }
    split; [|done].
    intros p Hp. apply not_elem_of_cons in Hp as [Hne Hp].
    by rewrite Hframe, lookup_insert_ne.
Qed.

(** X15. [parseDominoes] returns only for a line that is an even number of
    numerals separated by single spaces.  It then returns one domino for
    each pair, in the order of the line, with the two values as written,
    not assigned and not rotated; the dominoes are new objects, different
    from one another, and nothing else in the heap has changed.  For every
    other line it panics. *)
Theorem parseDominoes_result (Atoi : string → option Z) (input : string) (h : Heap)
    (ds : DominoSet) (h' : Heap) :
  parseDominoes Atoi input h = Some (ds, h') →
  ∃ vs : list (Z * Z),
    reads Atoi (Split input) (pairsFlat vs)
    ∧ NoDup ds
    ∧ Forall (λ d, dominoes h !! d = None) ds
    ∧ (λ d, dominoes h' !! d) <$> ds = (λ v, Some (mkDomino v.1 v.2 false 0)) <$> vs
    ∧ (∀ p, p ∉ ds → dominoes h' !! p = dominoes h !! p)
    ∧ squares h' = squares h ∧ restrictions h' = restrictions h.
Proof.
  intros H. apply readDominoes_result in H as (vs & new & -> & H).
  by exists vs.
Qed.

Lemma parseDominoes_nonempty Atoi input h ds h' :
  parseDominoes Atoi input h = Some (ds, h') → ds ≠ [].
Proof.
  intros H. apply readDominoes_result in H as (vs & new & -> & Hr & _ & _ & Hl & _).
  simpl. intros ->. destruct vs as [|v vs]; [|done].
  apply Forall2_nil_inv_r in Hr. by apply Split_nonempty in Hr.
Qed.

(** X16. The program cannot report a solution.  [parseDominoes] never returns an
    empty set (an empty line makes it panic), and the search returns true
    only for an empty set: whatever the board, the search started by [main]
    on the dominoes it has read ends with false or with a panic. *)
Theorem parsed_dominoes_never_solved (Atoi : string → option Z) (input : string)
    (h0 : Heap) (ds : DominoSet) (h1 : Heap) :
  parseDominoes Atoi input h0 = Some (ds, h1) →
  ds ≠ []
  ∧ ∀ (grid : list (list (option ptr))) (fuel : nat) (h : Heap)
      (q' : MoveQueue) (h' : Heap),
      solve grid ds fuel h ≠ Returned true q' h'.
Proof.
  intros H. apply parseDominoes_nonempty in H. split; [done|].
  intros grid fuel h q' h' Hs. unfold solve in Hs.
  destruct (pickEmptySquare grid h) as [[square h2]|]; [|done].
  pose proof (makeNextMove_notSuccess grid ds fuel [] square h2 H) as Hn.
  rewrite Hs in Hn. by destruct Hn.
Qed.

(** ** Reading a restricted region *)

Lemma index_Some {A} (l : list A) i h a h' :
  index l i h = Some (a, h') ↔ 0 ≤ i ∧ l !! Z.to_nat i = Some a ∧ h' = h.
Proof.
  unfold index. case_decide.
  - unfold panic. split; [done|]. intros [? _]. lia.
  - destruct (l !! Z.to_nat i); unfold ret, panic; split.
    + intros [= -> ->]. split; [lia|done].
    + by intros (_ & [= ->] & ->).
    + done.
    + by intros (_ & ? & _).
Qed.

Lemma restrictSquares_even Atoi grid r parts h x :
  restrictSquares Atoi grid r parts h = Some x → Nat.Even (length parts).
Proof.
  revert h. induction parts as [|p0|p0 p1 parts IH] using list_pair_ind;
    intros h H; simpl in H.
  - by exists 0%nat.
  - monad_inv.
  - monad_inv. case_match; monad_inv.
    simpl. apply Nat.Even_succ_succ. eauto.
Qed.

(** X19. The usage text of [main] gives [eq 1 1 1 2 2 1 2 2] as the line of an
    equal region: the type, then pairs of coordinates.  Every line of that
    form panics: after [eq] one more token is dropped, as the argument of
    the other types is, and an odd number of tokens is left for the pairs
    (or none was there to drop). *)
Theorem parseRestrictedRegion_eq_pairs_panics (Atoi : string → option Z)
    (input : string) (grid : list (list (option ptr))) (h : Heap)
    (parts : list string) :
  Split input = "eq" :: parts →
  Nat.Even (length parts) →
  parseRestrictedRegion Atoi input grid h = None.
Proof.
  intros Hsplit Heven.
  destruct (parseRestrictedRegion Atoi input grid h) as [x|] eqn:H; [|done].
  exfalso. unfold parseRestrictedRegion in H. rewrite Hsplit in H.
  monad_inv. repeat (case_decide; [done|]).
  rewrite decide_True in * by done. monad_inv.
  destruct parts as [|p parts]; monad_inv.
  match goal with H : restrictSquares _ _ _ _ _ = Some _ |- _ =>
    apply restrictSquares_even in H end.
  simpl in Heven. apply Nat.Even_succ in Heven.
  by eapply Nat.Even_Odd_False.
Qed.

Lemma restrictSquares_result Atoi grid r parts h u h' rs0 :
  restrictSquares Atoi grid r parts h = Some (u, h') →
  restrictions h !! r = Some rs0 → is_int64 (NumSquaresLeft rs0) →
  ∃ coords targets,
    reads Atoi parts (pairsFlat coords)
    ∧ Forall2 (λ c p, squareAt grid c.1 c.2 = Some p) coords targets
    ∧ dominoes h' = dominoes h
    ∧ restrictions h'
      = <[r := set_NumSquaresLeft
                 (wrap64 (NumSquaresLeft rs0 + Z.of_nat (length targets))) rs0]>
          (restrictions h)
    ∧ ∀ p, squares h' !! p
           = if decide (p ∈ targets)
             then set_Restriction (Some r) <$> squares h !! p
             else squares h !! p.
Proof.
  revert h rs0. induction parts as [|p0|p0 p1 parts IH] using list_pair_ind;
    intros h rs0 H Hr Hint; simpl in H.
  - unfold ret in H. simplify_eq. exists [], []. simpl.
    repeat split; try constructor.
    rewrite Z.add_0_r, wrap64_id by done.
    symmetry. apply insert_id. by destruct rs0.
  - monad_inv.
  - monad_inv.
    atoi_inv.
    repeat match goal with H : index _ _ _ = Some _ |- _ =>
      let Hi := fresh "Hi" in let Hl := fresh "Hl" in
      apply index_Some in H; destruct H as (Hi & Hl & ->) end.
    case_match; monad_inv.
    match goal with H : modS _ _ _ = Some _ |- _ =>
      apply modS_Some in H; destruct H as [Hs ->] end.
    match goal with H : modR _ _ _ = Some _ |- _ =>
      apply modR_Some in H; destruct H as [_ ->] end.
    match goal with H : restrictSquares _ _ _ _ _ = Some _ |- _ =>
      eapply (IH _ (set_NumSquaresLeft (add64 (NumSquaresLeft rs0) 1) rs0)) in H
        as (coords & targets & Hreads & Hat & Hd & Hx & Hsq) end.
    2:{ cbn [alterR alterS restrictions]. by rewrite lookup_alter_eq, Hr. }
    2:{ apply wrap64_range. }
    cbn [alterR alterS restrictions squares dominoes] in *.
    match goal with H : is_Some (squares _ !! ?n) |- _ => rename n into s end.
    exists ((a, a0) :: coords), (s :: targets).
    split; [by repeat constructor|].
    split.
    { constructor; [|done]. unfold squareAt. cbn [fst snd].
      rewrite decide_True by done.
      repeat (match goal with H : _ !! _ = Some _ |- _ => rewrite H; clear H end;
              cbn [mbind option_bind mjoin option_join]).
      done. }
    split; [done|].
    split.
    { rewrite Hx. cbn [NumSquaresLeft set_NumSquaresLeft length].
      rewrite <- (insert_as_alter _ _ _ _ Hr) by done.
      rewrite insert_insert_eq. f_equal.
      unfold set_NumSquaresLeft; cbn. f_equal.
      unfold add64. rewrite wrap64_add_l. f_equal. lia. }
    intros p. rewrite Hsq.
    destruct (decide (p = s)) as [->|Hne].
    + rewrite (decide_True (P := s ∈ s :: targets)) by left.
      rewrite lookup_alter_eq. case_decide; [|done].
      rewrite <- option_fmap_compose. by destruct (squares h !! s).
    + rewrite lookup_alter_ne by done.
      case_decide as Hin; case_decide as Hin'; try done.
      * exfalso. apply Hin'. by right.
      * exfalso. apply elem_of_cons in Hin' as [?|?]; done.
Qed.

Lemma parseRestrictedRegion_inv Atoi input grid h u h' :
  parseRestrictedRegion Atoi input grid h = Some (u, h') →
  ∃ typ rest arg parts r coords targets,
    Split input = typ :: rest
    ∧ (isArgType typ ∧ (∃ a, rest = a :: parts ∧ Atoi a = Some arg)
       ∨ typ = "eq" ∧ (∃ a, rest = a :: parts) ∧ arg = 0
       ∨ ¬ isArgType typ ∧ typ ≠ "eq" ∧ parts = rest ∧ arg = 0)
    ∧ reads Atoi parts (pairsFlat coords)
    ∧ Forall2 (λ c p, squareAt grid c.1 c.2 = Some p) coords targets
    ∧ restrictions h !! r = None
    ∧ restrictions h'
      = <[r := mkRestriction typ arg (wrap64 (Z.of_nat (length targets)))]>
          (restrictions h)
    ∧ dominoes h' = dominoes h
    ∧ ∀ p, squares h' !! p
           = if decide (p ∈ targets)
             then set_Restriction (Some r) <$> squares h !! p
             else squares h !! p.
Proof.
  intros H. unfold parseRestrictedRegion in H.
  destruct (Split input) as [|typ rest] eqn:Hsplit; [done|].
  monad_inv.
  match goal with H : newR _ _ = Some _ |- _ =>
    unfold newR in H; injection H as <- <- end.
  set (r := fresh (dom (restrictions h))) in *.
  assert (restrictions h !! r = None) as Hfresh.
  { apply not_elem_of_dom. apply is_fresh. }
  match goal with H : restrictSquares _ _ _ ?ps ?hr = Some _ |- _ =>
    rename H into Hloop; rename ps into parts; rename hr into h0 end.
  assert (∃ arg,
    (isArgType typ ∧ (∃ a, rest = a :: parts ∧ Atoi a = Some arg)
     ∨ typ = "eq" ∧ (∃ a, rest = a :: parts) ∧ arg = 0
     ∨ ¬ isArgType typ ∧ typ ≠ "eq" ∧ parts = rest ∧ arg = 0)
    ∧ dominoes h0 = dominoes h ∧ squares h0 = squares h
    ∧ restrictions h0 = <[r := mkRestriction typ arg 0]> (restrictions h))
    as (arg & Hcase & Hd0 & Hs0 & Hr0).
  { unfold isArgType.
    repeat case_decide; subst;
      try (unfold readArg in *; destruct rest as [|tok rest]; monad_inv;
           atoi_inv;
           match goal with H : modR _ _ _ = Some _ |- _ =>
             apply modR_Some in H; destruct H as [_ ->] end;
           eexists; split; [left; split; [auto|eauto]|];
           cbn [alterR dominoes squares restrictions];
           by rewrite alter_insert_eq).
    - monad_inv. destruct rest as [|tok rest]; monad_inv.
      match goal with H : modR _ _ _ = Some _ |- _ =>
        apply modR_Some in H; destruct H as [_ ->] end.
      exists 0. split; [right; left; eauto|].
      cbn [alterR dominoes squares restrictions].
      by rewrite alter_insert_eq.
    - monad_inv. exists 0. split; [|done].
      right; right. repeat split; try done. by intros [?|[?|?]]. }
  eapply (restrictSquares_result _ _ _ _ _ _ _ (mkRestriction typ arg 0)) in Hloop
    as (coords & targets & Hreads & Hat & Hd & Hx & Hsq).
  2:{ by rewrite Hr0, lookup_insert_eq. }
  2:{ unfold is_int64; simpl; lia. }
  exists typ, rest, arg, parts, r, coords, targets.
  repeat (split; [done|]).
  split.
  { rewrite Hx, Hr0, insert_insert_eq. done. }
  split; [congruence|].
  intros p. by rewrite Hsq, Hs0.
Qed.

(** X18. [parseRestrictedRegion], when it returns, has made one new restriction
    and changed nothing else but the [Restriction] field of the squares the
    line names: the type is the first token; for gt, lt and sum the
    argument is the number read from the second token, for every other
    type it is 0 (for eq the second token is dropped unread); the squares
    are those at the coordinates read from the remaining tokens, taken in
    pairs [x y] counted from 1; the counter of the restriction is the
    number of pairs. *)
Theorem parseRestrictedRegion_result (Atoi : string → option Z) (input : string)
    (grid : list (list (option ptr))) (h : Heap) (u : unit) (h' : Heap) :
  parseRestrictedRegion Atoi input grid h = Some (u, h') →
  ∃ typ rest arg parts r coords targets,
    Split input = typ :: rest
    ∧ (isArgType typ ∧ (∃ a, rest = a :: parts ∧ Atoi a = Some arg)
       ∨ typ = "eq" ∧ (∃ a, rest = a :: parts) ∧ arg = 0
       ∨ ¬ isArgType typ ∧ typ ≠ "eq" ∧ parts = rest ∧ arg = 0)
    ∧ reads Atoi parts (pairsFlat coords)
    ∧ Forall2 (λ c p, squareAt grid c.1 c.2 = Some p) coords targets
    ∧ restrictions h !! r = None
    ∧ restrictions h'
      = <[r := mkRestriction typ arg (wrap64 (Z.of_nat (length targets)))]>
          (restrictions h)
    ∧ dominoes h' = dominoes h
    ∧ ∀ p, squares h' !! p
           = if decide (p ∈ targets)
             then set_Restriction (Some r) <$> squares h !! p
             else squares h !! p.
Proof. apply parseRestrictedRegion_inv. Qed.

(** X20. An equal region read from the input is bound to 0 from the start, not
    unbound: the restriction is made with [Arg] 0 and the unbound mark is
    -1, so [Check] accepts the value 0 on the region and no other value. *)
Theorem parseRestrictedRegion_eq_accepts_only_zero (Atoi : string → option Z)
    (input : string) (grid : list (list (option ptr))) (h : Heap) (u : unit)
    (h' : Heap) (rest : list string) :
  parseRestrictedRegion Atoi input grid h = Some (u, h') →
  Split input = "eq" :: rest →
  ∃ r rs, restrictions h !! r = None
    ∧ restrictions h' = <[r := rs]> (restrictions h)
    ∧ Type_ rs = RestrictionTypeEqual
    ∧ ∀ value numSquares, Check rs value numSquares = true ↔ value = 0.
Proof.
  intros H Hsplit.
  apply parseRestrictedRegion_inv in H
    as (typ & rest' & arg & parts & r & coords & targets & Hs & Hcase & _ & _
        & Hfresh & Hx & _).
  rewrite Hsplit in Hs. simplify_eq.
  assert (arg = 0) as ->.
  { by destruct Hcase as [[[?|[?|?]] _]|[(_ & _ & ?)|(_ & ? & _)]]. }
  eexists r, _. split; [done|]. split; [done|]. split; [done|].
  intros value k. unfold Check. cbn [Type_ Arg].
  unfold RestrictionTypeNone, RestrictionTypeGreaterThan, RestrictionTypeLessThan,
    RestrictionTypeEqual.
  repeat (case_decide; [done|]). rewrite decide_True by done.
  rewrite (bool_decide_eq_false_2 (0 = -1)) by done. simpl.
  rewrite bool_decide_eq_true. naive_solver.
Qed.

(** ** Reading a row *)

Lemma readBlankIndices_result Atoi parts blank h blank' h' :
  readBlankIndices Atoi parts blank h = Some (blank', h') →
  h' = h
  ∧ ∃ nums, reads Atoi parts nums
      ∧ ∀ i, i ∈ blank' ↔ i ∈ blank ∨ listedBlank nums i.
Proof.
  revert blank h. induction parts as [|part parts IH]; intros blank h H; simpl in H.
  - unfold ret in H. simplify_eq. split; [done|]. exists []. split; [constructor|].
    intros i. split; [auto|]. intros [?|(num & Hin & _)]; [done|].
    by apply elem_of_nil in Hin.
  - monad_inv. atoi_inv.
    apply IH in H as (-> & nums & Hreads & Hiff). split; [done|].
    exists (a :: nums). split; [by constructor|].
    intros i. rewrite Hiff, elem_of_union, elem_of_singleton.
    unfold listedBlank. split.
    + intros [[->|?]|(num & Hin & Hnum)]; [|by left|].
      * right. exists a. split; [left|done].
      * right. exists num. split; [by right|done].
    + intros [?|(num & Hin & Hnum)]; [by left; right|].
      apply elem_of_cons in Hin as [->|Hin]; [by left; left|].
      right. by exists num.
Qed.

Lemma newSquare_result i rowIndex h p h' :
  newSquare i rowIndex h = Some (p, h') →
  dominoes h' = dominoes h
  ∧ squares h !! p = None
  ∧ ∃ r, restrictions h !! r = None
      ∧ squares h' = <[p := mkGridSquare i rowIndex None 0 (Some r) None None None None]>
                       (squares h)
      ∧ restrictions h' = <[r := mkRestriction RestrictionTypeNone 0 0]> (restrictions h).
Proof.
  unfold newSquare, newR, newS, bind. cbn [squares restrictions dominoes].
  intros [= <- <-]. cbn [squares restrictions dominoes].
  split; [done|]. split; [by apply not_elem_of_dom; apply is_fresh|].
  eexists. split; [by apply not_elem_of_dom; apply is_fresh|]. done.
Qed.

Lemma fillRow_result blank rowIndex i n h row h' :
  fillRow blank rowIndex i n h = Some (row, h') →
  length row = n
  ∧ dominoes h' = dominoes h
  ∧ squares h ⊆ squares h'
  ∧ restrictions h ⊆ restrictions h'
  ∧ (∀ (k : nat) c, row !! k = Some c →
       match c with
       | None => i + Z.of_nat k ∈ blank
       | Some p => (i + Z.of_nat k ∉ blank)
                   ∧ freshSquare h h' (i + Z.of_nat k) rowIndex p
       end)
  ∧ ∀ (k1 k2 : nat) p1 p2 sq1 sq2,
      row !! k1 = Some (Some p1) → row !! k2 = Some (Some p2) →
      squares h' !! p1 = Some sq1 → squares h' !! p2 = Some sq2 →
      Restriction_ sq1 = Restriction_ sq2 → k1 = k2.
Proof.
  revert i h row h'. induction n as [|n IH]; intros i h row h' H; simpl in H.
  - unfold ret in H. simplify_eq. repeat split; try done.
  - monad_inv. case_decide as Hblank; monad_inv.
    + match goal with H : fillRow _ _ _ _ _ = Some _ |- _ =>
        apply IH in H as (Hlen & Hd & Hs & Hx & Hcells & Hown) end.
      split; [by rewrite length_cons, Hlen|]. repeat (split; [done|]).
      split.
      * intros [|k] c Hk; simpl in Hk.
        -- simplify_eq. by rewrite Z.add_0_r.
        -- specialize (Hcells k c Hk).
           by replace (i + Z.of_nat (S k)) with (i + 1 + Z.of_nat k) by lia.
      * intros [|k1] [|k2] p1 p2 sq1 sq2 H1 H2; simpl in H1, H2; try done.
        intros. f_equal. eauto.
    + match goal with H : newSquare _ _ _ = Some _ |- _ =>
        apply newSquare_result in H as (Hd1 & Hp & r & Hr & Hs1 & Hx1) end.
      match goal with H : fillRow _ _ _ _ _ = Some _ |- _ =>
        apply IH in H as (Hlen & Hd & Hs & Hx & Hcells & Hown) end.
      match goal with H : squares ?hh = <[?q := _]> _ |- _ =>
        rename hh into h1; rename q into p end.
      match type of Hlen with length ?l = _ => rename l into row' end.
      assert (squares h' !! p
              = Some (mkGridSquare i rowIndex None 0 (Some r) None None None None))
        as Hp'.
      { eapply lookup_weaken; [|exact Hs]. by rewrite Hs1, lookup_insert_eq. }
      assert (restrictions h' !! r = Some (mkRestriction RestrictionTypeNone 0 0))
        as Hr'.
      { eapply lookup_weaken; [|exact Hx]. by rewrite Hx1, lookup_insert_eq. }
      split; [by rewrite length_cons, Hlen|].
      split; [congruence|].
      split.
      { etrans; [|exact Hs]. rewrite Hs1. by apply insert_subseteq. }
      split.
      { etrans; [|exact Hx]. rewrite Hx1. by apply insert_subseteq. }
      split.
      * intros [|k] c Hk; simpl in Hk.
        -- simplify_eq. rewrite Z.add_0_r. split; [done|].
           split; [done|]. by exists r.
        -- specialize (Hcells k c Hk).
           replace (i + Z.of_nat (S k)) with (i + 1 + Z.of_nat k) by lia.
           destruct c as [p'|]; [|done].
           destruct Hcells as (Hnb & Hp1 & r' & Hr1 & Hsq & Hrs).
           split; [done|]. split.
           { rewrite Hs1 in Hp1. by apply lookup_insert_None in Hp1 as [? _]. }
           exists r'. split; [|done].
           rewrite Hx1 in Hr1. by apply lookup_insert_None in Hr1 as [? _].
      * assert (∀ (k : nat) p' sq', row' !! k = Some (Some p') →
                  squares h' !! p' = Some sq' → Restriction_ sq' ≠ Some r) as Hother.
        { intros k p' sq' Hk Hsq' Heq.
          destruct (Hcells k _ Hk) as (_ & _ & r' & Hr1 & Hsq & _).
          rewrite Hsq in Hsq'. simplify_eq. simpl in Heq. simplify_eq.
          by rewrite Hx1, lookup_insert_eq in Hr1. }
        intros [|k1] [|k2] p1 p2 sq1 sq2 H1 H2 Hq1 Hq2 Heq; simpl in H1, H2.
        -- done.
        -- simplify_eq. simpl in Heq.
           by destruct (Hother k2 p2 sq2 H2 Hq2).
        -- simplify_eq. simpl in Heq.
           by destruct (Hother k1 p1 sq1 H1 Hq1).
        -- f_equal. eauto.
Qed.

(** X17. [parseRow] returns a row of [width] cells and allocates a square for
    each cell it does not leave blank.  The blank cells are those whose
    column, counted from 1, is among the numbers of the line (none for an
    empty line).  Every other cell is a new square with its column and the
    row index as coordinates, no domino, no neighbour and a new restriction
    of type none; two squares of the row never share a restriction.
    Objects that were in the heap are unchanged.  The function panics for a
    negative width or a part that is not a number. *)
Theorem parseRow_result (Atoi : string → option Z) (TrimSpace : string → string)
    (width : Z) (input : string) (rowIndex : Z) (h : Heap)
    (row : list (option ptr)) (h' : Heap) :
  parseRow Atoi TrimSpace width input rowIndex h = Some (row, h') →
  ∃ nums,
    (if decide (TrimSpace input = "") then nums = []
     else reads Atoi (Split (TrimSpace input)) nums)
    ∧ 0 ≤ width ∧ length row = Z.to_nat width
    ∧ dominoes h' = dominoes h
    ∧ squares h ⊆ squares h'
    ∧ restrictions h ⊆ restrictions h'
    ∧ (∀ (k : nat) c, row !! k = Some c →
         match c with
         | None => listedBlank nums (Z.of_nat k)
         | Some p => ¬ listedBlank nums (Z.of_nat k)
                     ∧ freshSquare h h' (Z.of_nat k) rowIndex p
         end)
    ∧ ∀ (k1 k2 : nat) p1 p2 sq1 sq2,
        row !! k1 = Some (Some p1) → row !! k2 = Some (Some p2) →
        squares h' !! p1 = Some sq1 → squares h' !! p2 = Some sq2 →
        Restriction_ sq1 = Restriction_ sq2 → k1 = k2.
Proof.
  intros H. unfold parseRow in H. case_decide as Hw; [done|]. monad_inv.
  match goal with H : fillRow _ _ _ _ _ = Some _ |- _ =>
    apply fillRow_result in H as (Hlen & Hd & Hs & Hx & Hcells & Hown) end.
  match goal with H : (if decide _ then _ else _) _ = Some (?b, _) |- _ =>
    rename H into Hb; rename b into blank end.
  assert (∃ nums,
    (if decide (TrimSpace input = "") then nums = []
     else reads Atoi (Split (TrimSpace input)) nums)
    ∧ h0 = h ∧ ∀ i, i ∈ blank ↔ listedBlank nums i) as (nums & Hnums & -> & Hiff).
  { case_decide as He.
    - monad_inv. exists []. split; [done|]. split; [done|]. intros i. split.
      + intros Hi. by apply elem_of_empty in Hi.
      + intros (num & Hin & _). by apply elem_of_nil in Hin.
    - apply readBlankIndices_result in Hb as (-> & nums & Hreads & Hiff).
      exists nums. split; [done|]. split; [done|]. intros i. split.
      + intros Hi. apply Hiff in Hi as [Hi|?]; [|done]. by apply elem_of_empty in Hi.
      + intros Hi. apply Hiff. by right. }
  exists nums. split; [done|]. split; [lia|]. repeat (split; [done|]).
  split; [|done].
  intros k c Hk. specialize (Hcells k c Hk). rewrite Z.add_0_l in Hcells.
  destruct c as [p|]; [|by apply Hiff].
  destruct Hcells as [Hnb Hf]. split; [|done]. by rewrite <- Hiff.
Qed.

(** ** Linking the squares *)

Lemma applyUpdates_cons u us m :
  applyUpdates (u :: us) m = applyUpdates us (alter u.2 u.1 m).
Proof. done. Qed.

Lemma applyUpdates_frame us m p :
  p ∉ us.*1 → applyUpdates us m !! p = m !! p.
Proof.
  revert m. induction us as [|[p0 f0] us IH]; intros m Hp; [done|].
  rewrite fmap_cons in Hp. apply not_elem_of_cons in Hp as [Hne Hp].
  rewrite applyUpdates_cons, IH by done.
  by rewrite lookup_alter_ne.
Qed.

Lemma applyUpdates_lookup us m p f :
  NoDup us.*1 → (p, f) ∈ us → applyUpdates us m !! p = f <$> m !! p.
Proof.
  revert m. induction us as [|[p0 f0] us IH]; intros m Hnd Hin.
  - by apply elem_of_nil in Hin.
  - rewrite fmap_cons in Hnd. apply NoDup_cons in Hnd as [Hp0 Hnd].
    rewrite applyUpdates_cons.
    apply elem_of_cons in Hin as [[= -> ->]|Hin]; cbn [fst snd].
    + rewrite applyUpdates_frame by done.
      by rewrite lookup_alter_eq.
    + assert (p ≠ p0) as Hne.
      { intros ->. apply Hp0. by apply (list_elem_of_fmap_2 fst _ (p0, f)). }
      rewrite IH by done.
      by rewrite lookup_alter_ne.
Qed.

Lemma applyUpdates_is_Some us m p :
  is_Some (applyUpdates us m !! p) ↔ is_Some (m !! p).
Proof.
  revert m. induction us as [|[p0 f0] us IH]; intros m; [done|].
  rewrite applyUpdates_cons, IH.
  by rewrite lookup_alter_is_Some.
Qed.

Lemma rowUpdates_fst grid w y x cells :
  (rowUpdates grid w y x cells).*1 = omap id cells.
Proof.
  revert x. induction cells as [|[s|] cells IH]; intros x; simpl; [done| |].
  - by rewrite IH.
  - by rewrite IH.
Qed.

Lemma gridUpdates_fst grid w y rows :
  (gridUpdates grid w y rows).*1 = scanOrder rows.
Proof.
  unfold scanOrder. revert y. induction rows as [|row rows IH]; intros y; simpl; [done|].
  by rewrite fmap_app, omap_app, rowUpdates_fst, IH.
Qed.

Lemma rowUpdates_elem grid w y x cells k p :
  cells !! k = Some (Some p) →
  (p, linked grid w y (x + k)) ∈ rowUpdates grid w y x cells.
Proof.
  revert x k. induction cells as [|c cells IH]; intros x [|k] Hk; simpl in *; try done.
  - simplify_eq. rewrite Nat.add_0_r. apply elem_of_app. left. by left.
  - apply elem_of_app. right. rewrite <- Nat.add_succ_comm. by apply IH.
Qed.

Lemma gridUpdates_elem grid w y rows j row k p :
  rows !! j = Some row → row !! k = Some (Some p) →
  (p, linked grid w (y + j) k) ∈ gridUpdates grid w y rows.
Proof.
  revert y j. induction rows as [|r rows IH]; intros y [|j] Hj Hk; simpl in *; try done.
  - simplify_eq. rewrite Nat.add_0_r. apply elem_of_app. left.
    by apply (rowUpdates_elem grid w y 0).
  - apply elem_of_app. right. rewrite <- Nat.add_succ_comm. by eapply IH.
Qed.

Lemma cellOf_Some grid y x p :
  cellOf grid y x = Some p ↔ ∃ row, grid !! y = Some row ∧ row !! x = Some (Some p).
Proof.
  unfold cellOf. destruct (grid !! y) as [row|]; simpl.
  - split.
    + intros H. exists row. split; [done|].
      destruct (row !! x) as [[q|]|]; simpl in H; by simplify_eq.
    + by intros (row' & [= <-] & ->).
  - split; [done|]. by intros (? & ? & _).
Qed.

Lemma cellAt_rect grid w y x h :
  rectangular grid w → (y < length grid)%nat → (x < w)%nat →
  cellAt grid y x h = Some (cellOf grid y x, h).
Proof.
  intros Hrect Hy Hx. unfold cellAt, cellOf.
  destruct (lookup_lt_is_Some_2 grid y Hy) as [row Hrow]. rewrite Hrow. simpl.
  assert (length row = w) as Hlen.
  { unfold rectangular in Hrect. rewrite Forall_forall in Hrect.
    apply Hrect. by eapply list_elem_of_lookup_2. }
  destruct (lookup_lt_is_Some_2 row x) as [c Hc]; [lia|]. by rewrite Hc.
Qed.

Lemma heap_eta h : mkHeap (dominoes h) (squares h) (restrictions h) = h.
Proof. by destruct h. Qed.

Lemma linkStep (C : Prop) `{!Decision C} grid w y' x'
    (setF : option ptr → GridSquare → GridSquare) s h :
  rectangular grid w →
  (C → (y' < length grid)%nat ∧ (x' < w)%nat) →
  is_Some (squares h !! s) →
  (if decide C then n <- cellAt grid y' x' ;; modS s (setF n) else ret tt) h
  = Some (tt, alterS (if decide C then setF (cellOf grid y' x') else id) s h).
Proof.
  intros Hrect Hin Hs. case_decide as Hc.
  - destruct (Hin Hc) as [Hy Hx].
    rewrite (bind_run _ _ _ _ _ (cellAt_rect grid w y' x' h Hrect Hy Hx)).
    by apply modS_run.
  - unfold ret, alterS. rewrite alter_id by done. by rewrite heap_eta.
Qed.

Lemma alterS_is_Some f s h p :
  is_Some (squares (alterS f s h) !! p) ↔ is_Some (squares h !! p).
Proof. unfold alterS. cbn [squares]. apply lookup_alter_is_Some. Qed.

Lemma linkSquare_run grid w y row x s h :
  rectangular grid w → (y < length grid)%nat → length row = w → (x < w)%nat →
  is_Some (squares h !! s) →
  linkSquare grid y row x s h = Some (tt, alterS (linked grid w y x) s h).
Proof.
  intros Hrect Hy Hlen Hx Hs. unfold linkSquare. subst w.
  pose proof (linkStep (0 < y)%nat grid (length row) (y - 1) x set_TopNeighbor s h
                Hrect ltac:(lia) Hs) as H1.
  rewrite (bind_run _ _ _ _ _ H1).
  match type of H1 with _ = Some (_, ?hh) => set (h1 := hh) in * end.
  assert (is_Some (squares h1 !! s)) as Hs1 by (by apply alterS_is_Some).
  pose proof (linkStep (y + 1 < length grid)%nat grid (length row) (y + 1) x
                set_BottomNeighbor s h1 Hrect ltac:(lia) Hs1) as H2.
  rewrite (bind_run _ _ _ _ _ H2).
  match type of H2 with _ = Some (_, ?hh) => set (h2 := hh) in * end.
  assert (is_Some (squares h2 !! s)) as Hs2 by (by apply alterS_is_Some).
  pose proof (linkStep (0 < x)%nat grid (length row) y (x - 1)
                set_LeftNeighbor s h2 Hrect ltac:(lia) Hs2) as H3.
  rewrite (bind_run _ _ _ _ _ H3).
  match type of H3 with _ = Some (_, ?hh) => set (h3 := hh) in * end.
  assert (is_Some (squares h3 !! s)) as Hs3 by (by apply alterS_is_Some).
  rewrite (linkStep (x + 1 < length row)%nat grid (length row) y (x + 1)
             set_RightNeighbor s h3 Hrect ltac:(lia) Hs3).
  f_equal. f_equal. unfold h3, h2, h1, alterS. cbn [dominoes squares restrictions].
  f_equal. rewrite !alter_alter_eq. apply alter_ext. intros sq _.
  unfold linked. destruct sq. simpl.
  repeat case_decide; done.
Qed.

Lemma linkRow_run grid w y row :
  rectangular grid w → (y < length grid)%nat → length row = w →
  ∀ cells x h,
    (x + length cells = w)%nat →
    Forall (λ s, is_Some (squares h !! s)) (omap id cells) →
    forRange (λ x c, match c with
                     | None => ret tt
                     | Some s => linkSquare grid y row x s
                     end) x cells h
    = Some (tt, mkHeap (dominoes h)
                  (applyUpdates (rowUpdates grid w y x cells) (squares h))
                  (restrictions h)).
Proof.
  intros Hrect Hy Hlen cells.
  induction cells as [|c cells IH]; intros x h Hx Hv; simpl.
  - unfold ret. by rewrite heap_eta.
  - simpl in Hx. destruct c as [s|]; simpl in Hv.
    + apply Forall_cons in Hv as [Hs Hv]. unfold bind at 1.
      rewrite (linkSquare_run grid w) by (done || lia).
      rewrite IH.
      * done.
      * lia.
      * eapply Forall_impl; [exact Hv|]. intros p Hp. simpl.
        by rewrite lookup_alter_is_Some.
    + unfold bind at 1. unfold ret at 1. rewrite IH by (done || lia). done.
Qed.

Lemma buildGraph_rows grid w :
  rectangular grid w →
  ∀ rows y h,
    (y + length rows = length grid)%nat →
    rectangular rows w →
    Forall (λ s, is_Some (squares h !! s)) (scanOrder rows) →
    forRange (λ y row,
      forRange (λ x c, match c with
                       | None => ret tt
                       | Some s => linkSquare grid y row x s
                       end) 0 row) y rows h
    = Some (tt, mkHeap (dominoes h)
                  (applyUpdates (gridUpdates grid w y rows) (squares h))
                  (restrictions h)).
Proof.
  intros Hrect rows.
  induction rows as [|row rows IH]; intros y h Hy Hrows Hv; simpl.
  - unfold ret. by rewrite heap_eta.
  - simpl in Hy. apply Forall_cons in Hrows as [Hlen Hrows].
    unfold scanOrder in Hv. simpl in Hv. rewrite omap_app in Hv.
    apply Forall_app in Hv as [Hv1 Hv2].
    unfold bind at 1.
    rewrite (linkRow_run grid w y row) by (done || lia).
    rewrite IH.
    + cbn [dominoes squares restrictions]. unfold applyUpdates.
      by rewrite foldl_app.
    + lia.
    + done.
    + eapply Forall_impl; [exact Hv2|]. intros p Hp. simpl.
      by apply applyUpdates_is_Some.
Qed.

(** X21. On a grid whose rows have one length and whose squares are different
    objects, [buildGraph] returns and has changed nothing but the neighbour
    fields of the squares of the grid: every square has, on each side where
    the grid goes on, the cell next to it there (nil for a blank cell), and
    on the border of the grid the value the field had. *)
Theorem buildGraph_links (grid : list (list (option ptr))) (w : nat) (h : Heap) :
  rectangular grid w →
  NoDup (scanOrder grid) →
  Forall (λ s, is_Some (squares h !! s)) (scanOrder grid) →
  ∃ h', buildGraph grid h = Some (tt, h')
    ∧ dominoes h' = dominoes h ∧ restrictions h' = restrictions h
    ∧ (∀ p, p ∉ scanOrder grid → squares h' !! p = squares h !! p)
    ∧ ∀ y x p, cellOf grid y x = Some p →
        squares h' !! p = linked grid w y x <$> squares h !! p.
Proof.
  intros Hrect Hnd Hv. eexists. split.
  { unfold buildGraph. by apply (buildGraph_rows grid w Hrect grid 0). }
  cbn [dominoes squares restrictions]. split; [done|]. split; [done|]. split.
  - intros p Hp. apply applyUpdates_frame. by rewrite gridUpdates_fst.
  - intros y x p Hc. apply cellOf_Some in Hc as (row & Hrow & Hx).
    apply applyUpdates_lookup; [by rewrite gridUpdates_fst|].
    by apply (gridUpdates_elem grid w 0 grid y row x).
Qed.

(** ** The two drafts of [Check] *)

(** X1. The first draft of [Check] accepts what the second draft accepts, but
    for one case: a value laid on all the squares a sum region has left
    must be exactly what remains of the target. *)
Theorem Check_refines_legacy (r : Restriction) (value numSquares : Z) :
  Check r value numSquares = true
  ↔ Legacy.Check r value = true
    ∧ ¬ (Type_ r = RestrictionTypeSumsTo
         ∧ NumSquaresLeft r = numSquares ∧ value ≠ Arg r).
Proof.
  unfold Check, Legacy.Check.
  destruct (decide (Type_ r = RestrictionTypeSumsTo)) as [Hs|Hs].
  - rewrite Hs.
    unfold RestrictionTypeNone, RestrictionTypeGreaterThan, RestrictionTypeLessThan,
      RestrictionTypeEqual, RestrictionTypeSumsTo.
    repeat case_decide; try done;
      repeat case_bool_decide; simpl; split; try done; try lia; try tauto.
  - repeat case_decide; try done; split; try tauto.
Qed.

(** * The further properties on the example boards *)

(** The assign move of [sumStrip], pushed and popped. *)
Lemma pops_undo_pushed_run_witness :
  int64_heap sumStrip
  ∧ pushedRun [] sumStrip [sumStripMove]
      [set_UndoFunc (Some (UndoAssign 0%nat 0%nat 1%nat false false)) sumStripMove]
      sumStripAssigned
  ∧ runDefers (length [sumStripMove])
      [set_UndoFunc (Some (UndoAssign 0%nat 0%nat 1%nat false false)) sumStripMove]
      sumStripAssigned
    = Returned false [] sumStrip.
Proof.
  assert (int64_heap sumStrip) as Hint.
  { split; apply (bool_decide_unpack _); vm_compute; exact I. }
  assert (pushedRun [] sumStrip [sumStripMove]
            [set_UndoFunc (Some (UndoAssign 0%nat 0%nat 1%nat false false)) sumStripMove]
            sumStripAssigned) as Hrun.
  { eapply pushedRun_cons; [| |apply pushedRun_nil].
    - intros _. split; intros x Hx; vm_compute in Hx; by simplify_eq.
    - vm_compute. reflexivity. }
  split; [exact Hint|]. split; [exact Hrun|].
  exact (pops_undo_pushed_run [] sumStrip [sumStripMove] _ _ Hint Hrun).
Defined.

(** The log that ends with the placement of the second candidate. *)
Lemma PruneUselessMoves_returns_witness :
  swapThenRotations ≠ []
  ∧ (∀ m, last swapThenRotations = Some m → MoveType_ m ≠ MoveTypeRotate)
  ∧ is_Some (PruneUselessMoves swapThenRotations).
Proof.
  assert (swapThenRotations ≠ []) as Hne by done.
  assert (∀ m, last swapThenRotations = Some m → MoveType_ m ≠ MoveTypeRotate) as Hlast.
  { intros m [= <-]. done. }
  split; [exact Hne|]. split; [exact Hlast|].
  exact (PruneUselessMoves_returns swapThenRotations Hne Hlast).
Defined.

Lemma PruneUselessMoves_only_flags_witness :
  PruneUselessMoves swapThenRotations = Some swapThenRotationsPruned
  ∧ Forall2 flagged swapThenRotations swapThenRotationsPruned.
Proof.
  assert (PruneUselessMoves swapThenRotations = Some swapThenRotationsPruned) as H.
  { vm_compute. reflexivity. }
  split; [exact H|].
  exact (PruneUselessMoves_only_flags swapThenRotations swapThenRotationsPruned H).
Defined.

(** The domino 2-5 on the square alone in its sum region of 5: only the
    second side passes. *)
Lemma FindAvailableCandidates_filter_witness :
  FindAvailableCandidates [0%nat] 2%nat mixedBoard
    = Some ([mkDominoCandidate 0%nat false true], mixedBoard)
  ∧ mixedBoard = mixedBoard
  ∧ candDomino <$> [mkDominoCandidate 0%nat false true]
    = filter (λ d, isCandidate mixedBoard 2%nat d) [0%nat]
  ∧ Forall (flagsMatch mixedBoard 2%nat) [mkDominoCandidate 0%nat false true].
Proof.
  assert (FindAvailableCandidates [0%nat] 2%nat mixedBoard
            = Some ([mkDominoCandidate 0%nat false true], mixedBoard)) as H.
  { vm_compute. reflexivity. }
  split; [exact H|].
  exact (FindAvailableCandidates_filter [0%nat] 2%nat mixedBoard _ _ H).
Defined.

Lemma HasUnassigned_iff_witness :
  HasUnassigned [0%nat] smallBoard = Some (true, smallBoard)
  ∧ smallBoard = smallBoard
  ∧ (true = true ↔ ∃ d, d ∈ [0%nat] ∧ flags smallBoard !! d = Some false).
Proof.
  assert (HasUnassigned [0%nat] smallBoard = Some (true, smallBoard)) as H.
  { vm_compute. reflexivity. }
  split; [exact H|].
  exact (HasUnassigned_iff [0%nat] smallBoard true smallBoard H).
Defined.

(** The domino 3-4 laid on the strip that sums to 7. *)
Lemma TryAssign_marks_both_squares_witness :
  TryAssign 0%nat 0%nat sumStrip
    = Some ((true, Some (UndoAssign 0%nat 0%nat 1%nat false false)), sumStripAssigned)
  ∧ ∃ dm sq n nb,
      dominoes sumStrip !! 0%nat = Some dm ∧ squares sumStrip !! 0%nat = Some sq
      ∧ neighborInDirection (GetRotation dm) sq = Some n
      ∧ squares sumStrip !! n = Some nb ∧ DominoAssigned nb = None
      ∧ dominoes sumStripAssigned = <[0%nat := set_IsAssigned true dm]> (dominoes sumStrip)
      ∧ squares sumStripAssigned !! 0%nat = Some (set_DominoAssigned (Some 0%nat) sq)
      ∧ squares sumStripAssigned !! n = Some (set_DominoAssigned (Some 0%nat) nb)
      ∧ ∀ p, p ≠ 0%nat → p ≠ n → squares sumStripAssigned !! p = squares sumStrip !! p.
Proof.
  assert (TryAssign 0%nat 0%nat sumStrip
            = Some ((true, Some (UndoAssign 0%nat 0%nat 1%nat false false)),
                    sumStripAssigned)) as H.
  { vm_compute. reflexivity. }
  split; [exact H|].
  exact (TryAssign_marks_both_squares 0%nat 0%nat sumStrip _ _ H).
Defined.

Lemma TryAssign_closes_sum_region_witness :
  TryAssign 0%nat 0%nat sumStrip
    = Some ((true, Some (UndoAssign 0%nat 0%nat 1%nat false false)), sumStripAssigned)
  ∧ dominoes sumStrip !! 0%nat = Some (mkDomino 3 4 false 0)
  ∧ squares sumStrip !! 0%nat
    = Some (mkGridSquare 0 0 None 0 (Some 0%nat) None None None (Some 1%nat))
  ∧ squares sumStrip !! 1%nat
    = Some (mkGridSquare 1 0 None 0 (Some 0%nat) None None (Some 0%nat) None)
  ∧ restrictions sumStrip !! 0%nat = Some (mkRestriction RestrictionTypeSumsTo 7 2)
  ∧ add64 3 4 = 7
  ∧ restrictions sumStripAssigned !! 0%nat = Some (mkRestriction RestrictionTypeSumsTo 0 0).
Proof.
  assert (TryAssign 0%nat 0%nat sumStrip
            = Some ((true, Some (UndoAssign 0%nat 0%nat 1%nat false false)),
                    sumStripAssigned)) as H.
  { vm_compute. reflexivity. }
  assert (dominoes sumStrip !! 0%nat = Some (mkDomino 3 4 false 0)) as Hd
    by reflexivity.
  assert (squares sumStrip !! 0%nat
          = Some (mkGridSquare 0 0 None 0 (Some 0%nat) None None None (Some 1%nat)))
    as Hs by reflexivity.
  assert (squares sumStrip !! 1%nat
          = Some (mkGridSquare 1 0 None 0 (Some 0%nat) None None (Some 0%nat) None))
    as Hn by reflexivity.
  assert (restrictions sumStrip !! 0%nat = Some (mkRestriction RestrictionTypeSumsTo 7 2))
    as Hx by reflexivity.
  split; [exact H|]. split; [exact Hd|]. split; [exact Hs|]. split; [exact Hn|].
  split; [exact Hx|].
  exact (TryAssign_closes_sum_region 0%nat 0%nat sumStrip _ _ _ _ 1%nat _ 0%nat _
           H Hd Hs eq_refl Hn eq_refl eq_refl Hx eq_refl eq_refl).
Defined.

(** The domino 1-2 laid on the two unrestricted squares: its second value
    is checked against the restriction of the right square. *)
Lemma TryAssign_checks_neighbor_witness :
  TryAssign 0%nat 0%nat smallBoard
    = Some ((true, Some (UndoAssign 0%nat 0%nat 1%nat false false)), smallBoardAssigned)
  ∧ dominoes smallBoard !! 0%nat = Some (mkDomino 1 2 false 0)
  ∧ squares smallBoard !! 0%nat
    = Some (mkGridSquare 0 0 None 0 (Some 0%nat) None None None (Some 1%nat))
  ∧ squares smallBoard !! 1%nat
    = Some (mkGridSquare 1 0 None 0 (Some 1%nat) None None (Some 0%nat) None)
  ∧ restrictions smallBoard !! 1%nat = Some (mkRestriction RestrictionTypeNone 0 0)
  ∧ Check (mkRestriction RestrictionTypeNone 0 0) 2 1 = true.
Proof.
  assert (TryAssign 0%nat 0%nat smallBoard
            = Some ((true, Some (UndoAssign 0%nat 0%nat 1%nat false false)),
                    smallBoardAssigned)) as H.
  { vm_compute. reflexivity. }
  assert (dominoes smallBoard !! 0%nat = Some (mkDomino 1 2 false 0)) as Hd
    by reflexivity.
  assert (squares smallBoard !! 0%nat
          = Some (mkGridSquare 0 0 None 0 (Some 0%nat) None None None (Some 1%nat)))
    as Hs by reflexivity.
  assert (squares smallBoard !! 1%nat
          = Some (mkGridSquare 1 0 None 0 (Some 1%nat) None None (Some 0%nat) None))
    as Hn by reflexivity.
  assert (restrictions smallBoard !! 1%nat = Some (mkRestriction RestrictionTypeNone 0 0))
    as Hx by reflexivity.
  split; [exact H|]. split; [exact Hd|]. split; [exact Hs|]. split; [exact Hn|].
  split; [exact Hx|].
  refine (TryAssign_checks_neighbor 0%nat 0%nat smallBoard _ _ _ _ 1%nat _ 1%nat _
            H Hd Hs eq_refl Hn _ eq_refl Hx).
  simpl. discriminate.
Defined.


Lemma Rotate90DegreesClockwise_advances_witness :
  Rotate90DegreesClockwise 0%nat freshDominoHeap = Some (tt, turnedDominoHeap)
  ∧ dominoes freshDominoHeap !! 0%nat = Some (mkDomino 1 2 false 0)
  ∧ 0 ≤ rotation (mkDomino 1 2 false 0) < 2 ^ 63 - 1
  ∧ ∃ dm', dominoes turnedDominoHeap !! 0%nat = Some dm'
      ∧ GetRotation dm' = (GetRotation (mkDomino 1 2 false 0) + 1) `mod` 4
      ∧ Square1Value dm' = Square1Value (mkDomino 1 2 false 0)
      ∧ Square2Value dm' = Square2Value (mkDomino 1 2 false 0)
      ∧ IsAssigned dm' = IsAssigned (mkDomino 1 2 false 0).
Proof.
  assert (Rotate90DegreesClockwise 0%nat freshDominoHeap = Some (tt, turnedDominoHeap))
    as H.
  { vm_compute. reflexivity. }
  assert (dominoes freshDominoHeap !! 0%nat = Some (mkDomino 1 2 false 0)) as Hd
    by reflexivity.
  assert (0 ≤ rotation (mkDomino 1 2 false 0) < 2 ^ 63 - 1) as Hr by (simpl; lia).
  split; [exact H|]. split; [exact Hd|]. split; [exact Hr|].
  exact (Rotate90DegreesClockwise_advances 0%nat freshDominoHeap tt turnedDominoHeap
           _ H Hd Hr).
Defined.

(** The domino 2-4 on the column that sums to 7. *)
Lemma solve_false_restores_witness :
  (unassigned (sumColumn 2 4) < 2)%nat
  ∧ int64_heap (sumColumn 2 4)
  ∧ solve columnGrid [0%nat] 2 (sumColumn 2 4) = Returned false [] (sumColumn 2 4)
  ∧ [] = ([] : MoveQueue) ∧ sumColumn 2 4 = sumColumn 2 4.
Proof.
  assert (unassigned (sumColumn 2 4) < 2)%nat as Hlt by (vm_compute; lia).
  assert (int64_heap (sumColumn 2 4)) as Hint.
  { split; apply (bool_decide_unpack _); vm_compute; exact I. }
  assert (solve columnGrid [0%nat] 2 (sumColumn 2 4) = Returned false [] (sumColumn 2 4))
    as H.
  { vm_compute. reflexivity. }
  split; [exact Hlt|]. split; [exact Hint|]. split; [exact H|].
  exact (solve_false_restores columnGrid [0%nat] 2 (sumColumn 2 4) [] (sumColumn 2 4)
           Hlt Hint H).
Defined.

(** A search without dominoes. *)
Lemma makeNextMove_true_only_without_dominoes_witness :
  makeNextMove smallGrid [] 1 [] 0%nat smallBoard = Returned true [] smallBoard
  ∧ ([] : DominoSet) = [] ∧ [] = ([] : MoveQueue) ∧ smallBoard = smallBoard.
Proof.
  assert (makeNextMove smallGrid [] 1 [] 0%nat smallBoard = Returned true [] smallBoard)
    as H.
  { vm_compute. reflexivity. }
  split; [exact H|].
  exact (makeNextMove_true_only_without_dominoes smallGrid [] 1 [] 0%nat smallBoard
           [] smallBoard H).
Defined.


(** The line [1 2 0 6] read into an empty heap. *)
Lemma parseDominoes_result_witness :
  parseDominoes oneDigit "1 2 0 6" emptyHeap = Some ([0%nat; 1%nat], twoDominoes)
  ∧ ∃ vs : list (Z * Z),
      reads oneDigit (Split "1 2 0 6") (pairsFlat vs)
      ∧ NoDup [0%nat; 1%nat]
      ∧ Forall (λ d, dominoes emptyHeap !! d = None) [0%nat; 1%nat]
      ∧ (λ d, dominoes twoDominoes !! d) <$> [0%nat; 1%nat]
        = (λ v, Some (mkDomino v.1 v.2 false 0)) <$> vs
      ∧ (∀ p, p ∉ [0%nat; 1%nat] → dominoes twoDominoes !! p = dominoes emptyHeap !! p)
      ∧ squares twoDominoes = squares emptyHeap
      ∧ restrictions twoDominoes = restrictions emptyHeap.
Proof.
  assert (parseDominoes oneDigit "1 2 0 6" emptyHeap = Some ([0%nat; 1%nat], twoDominoes))
    as H.
  { vm_compute. reflexivity. }
  split; [exact H|].
  exact (parseDominoes_result oneDigit "1 2 0 6" emptyHeap _ _ H).
Defined.

Lemma parsed_dominoes_never_solved_witness :
  parseDominoes oneDigit "1 2 0 6" emptyHeap = Some ([0%nat; 1%nat], twoDominoes)
  ∧ [0%nat; 1%nat] ≠ []
  ∧ ∀ (grid : list (list (option ptr))) (fuel : nat) (h : Heap)
      (q' : MoveQueue) (h' : Heap),
      solve grid [0%nat; 1%nat] fuel h ≠ Returned true q' h'.
Proof.
  assert (parseDominoes oneDigit "1 2 0 6" emptyHeap = Some ([0%nat; 1%nat], twoDominoes))
    as H.
  { vm_compute. reflexivity. }
  split; [exact H|].
  exact (parsed_dominoes_never_solved oneDigit "1 2 0 6" emptyHeap _ _ H).
Defined.

(** The line of the usage text, on the two squares of [smallBoard]. *)
Lemma parseRestrictedRegion_eq_pairs_panics_witness :
  Split "eq 1 1 1 2 2 1 2 2" = "eq" :: ["1"; "1"; "1"; "2"; "2"; "1"; "2"; "2"]
  ∧ Nat.Even (length ["1"; "1"; "1"; "2"; "2"; "1"; "2"; "2"])
  ∧ parseRestrictedRegion oneDigit "eq 1 1 1 2 2 1 2 2" smallGrid smallBoard = None.
Proof.
  assert (Split "eq 1 1 1 2 2 1 2 2" = "eq" :: ["1"; "1"; "1"; "2"; "2"; "1"; "2"; "2"])
    as Hs by reflexivity.
  assert (Nat.Even (length ["1"; "1"; "1"; "2"; "2"; "1"; "2"; "2"])) as He.
  { exists 4%nat. reflexivity. }
  split; [exact Hs|]. split; [exact He|].
  exact (parseRestrictedRegion_eq_pairs_panics oneDigit "eq 1 1 1 2 2 1 2 2"
           smallGrid smallBoard _ Hs He).
Defined.

(** The line [sum 7 1 1 2 1] on [smallBoard]. *)
Lemma parseRestrictedRegion_result_witness :
  parseRestrictedRegion oneDigit "sum 7 1 1 2 1" smallGrid smallBoard
    = Some (tt, smallBoardSum)
  ∧ ∃ typ rest arg parts r coords targets,
      Split "sum 7 1 1 2 1" = typ :: rest
      ∧ (isArgType typ ∧ (∃ a, rest = a :: parts ∧ oneDigit a = Some arg)
         ∨ typ = "eq" ∧ (∃ a, rest = a :: parts) ∧ arg = 0
         ∨ ¬ isArgType typ ∧ typ ≠ "eq" ∧ parts = rest ∧ arg = 0)
      ∧ reads oneDigit parts (pairsFlat coords)
      ∧ Forall2 (λ c p, squareAt smallGrid c.1 c.2 = Some p) coords targets
      ∧ restrictions smallBoard !! r = None
      ∧ restrictions smallBoardSum
        = <[r := mkRestriction typ arg (wrap64 (Z.of_nat (length targets)))]>
            (restrictions smallBoard)
      ∧ dominoes smallBoardSum = dominoes smallBoard
      ∧ ∀ p, squares smallBoardSum !! p
             = if decide (p ∈ targets)
               then set_Restriction (Some r) <$> squares smallBoard !! p
               else squares smallBoard !! p.
Proof.
  assert (parseRestrictedRegion oneDigit "sum 7 1 1 2 1" smallGrid smallBoard
            = Some (tt, smallBoardSum)) as H.
  { vm_compute. reflexivity. }
  split; [exact H|].
  exact (parseRestrictedRegion_result oneDigit "sum 7 1 1 2 1" smallGrid smallBoard
           tt smallBoardSum H).
Defined.

(** The line [eq 0 1 1 2 1] on [smallBoard]: the token after [eq] is
    dropped. *)
Lemma parseRestrictedRegion_eq_accepts_only_zero_witness :
  parseRestrictedRegion oneDigit "eq 0 1 1 2 1" smallGrid smallBoard
    = Some (tt, smallBoardEqual)
  ∧ Split "eq 0 1 1 2 1" = "eq" :: ["0"; "1"; "1"; "2"; "1"]
  ∧ ∃ r rs, restrictions smallBoard !! r = None
      ∧ restrictions smallBoardEqual = <[r := rs]> (restrictions smallBoard)
      ∧ Type_ rs = RestrictionTypeEqual
      ∧ ∀ value numSquares, Check rs value numSquares = true ↔ value = 0.
Proof.
  assert (parseRestrictedRegion oneDigit "eq 0 1 1 2 1" smallGrid smallBoard
            = Some (tt, smallBoardEqual)) as H.
  { vm_compute. reflexivity. }
  assert (Split "eq 0 1 1 2 1" = "eq" :: ["0"; "1"; "1"; "2"; "1"]) as Hs by reflexivity.
  split; [exact H|]. split; [exact Hs|].
  exact (parseRestrictedRegion_eq_accepts_only_zero oneDigit "eq 0 1 1 2 1"
           smallGrid smallBoard tt smallBoardEqual _ H Hs).
Defined.

(** The line [2 4] for a row of four cells. *)
Lemma parseRow_result_witness :
  parseRow oneDigit id 4 "2 4" 0 emptyHeap
    = Some ([Some 0%nat; None; Some 1%nat; None], rowHeap)
  ∧ ∃ nums,
      (if decide (id "2 4" = "") then nums = []
       else reads oneDigit (Split (id "2 4")) nums)
      ∧ 0 ≤ 4 ∧ length [Some 0%nat; None; Some 1%nat; None] = Z.to_nat 4
      ∧ dominoes rowHeap = dominoes emptyHeap
      ∧ squares emptyHeap ⊆ squares rowHeap
      ∧ restrictions emptyHeap ⊆ restrictions rowHeap
      ∧ (∀ (k : nat) c, [Some 0%nat; None; Some 1%nat; None] !! k = Some c →
           match c with
           | None => listedBlank nums (Z.of_nat k)
           | Some p => ¬ listedBlank nums (Z.of_nat k)
                       ∧ freshSquare emptyHeap rowHeap (Z.of_nat k) 0 p
           end)
      ∧ ∀ (k1 k2 : nat) p1 p2 sq1 sq2,
          [Some 0%nat; None; Some 1%nat; None] !! k1 = Some (Some p1) →
          [Some 0%nat; None; Some 1%nat; None] !! k2 = Some (Some p2) →
          squares rowHeap !! p1 = Some sq1 → squares rowHeap !! p2 = Some sq2 →
          Restriction_ sq1 = Restriction_ sq2 → k1 = k2.
Proof.
  assert (parseRow oneDigit id 4 "2 4" 0 emptyHeap
            = Some ([Some 0%nat; None; Some 1%nat; None], rowHeap)) as H.
  { vm_compute. reflexivity. }
  split; [exact H|].
  exact (parseRow_result oneDigit id 4 "2 4" 0 emptyHeap _ rowHeap H).
Defined.

(** The three squares of [mixedBoard] around their blank cell. *)
Lemma buildGraph_links_witness :
  rectangular mixedGrid 2
  ∧ NoDup (scanOrder mixedGrid)
  ∧ Forall (λ s, is_Some (squares mixedBoard !! s)) (scanOrder mixedGrid)
  ∧ ∃ h', buildGraph mixedGrid mixedBoard = Some (tt, h')
      ∧ dominoes h' = dominoes mixedBoard ∧ restrictions h' = restrictions mixedBoard
      ∧ (∀ p, p ∉ scanOrder mixedGrid → squares h' !! p = squares mixedBoard !! p)
      ∧ ∀ y x p, cellOf mixedGrid y x = Some p →
          squares h' !! p = linked mixedGrid 2 y x <$> squares mixedBoard !! p.
Proof.
  assert (rectangular mixedGrid 2) as Hrect by (by repeat constructor).
  assert (NoDup (scanOrder mixedGrid)) as Hnd.
  { apply (bool_decide_unpack _). vm_compute. exact I. }
  assert (Forall (λ s, is_Some (squares mixedBoard !! s)) (scanOrder mixedGrid)) as Hv.
  { repeat constructor; eexists; reflexivity. }
  split; [exact Hrect|]. split; [exact Hnd|]. split; [exact Hv|].
  exact (buildGraph_links mixedGrid 2 mixedBoard Hrect Hnd Hv).
Defined.
